(** * K-means clustering over MPI: a shallow embedding of [KMeansMPI.h]

    The class template [KMeansMPI<k, d>] is run by [P] processes in lock-step.
    Each process owns one object of the class; the collectives
    ([MPI_Bcast], [MPI_Scatterv], [MPI_Gather], [MPI_Gatherv]) move byte
    buffers between them.  The embedding keeps one record per process (its
    rank is its position in the list of processes) and writes each collective
    as a function on the buffers of all ranks.

    Conventions.
    - [unsigned char] values and [int] values that are stored in buffers or
      vectors are [Z]; a conversion to [unsigned char] is [uchar], written
      wherever the source converts a wider value.
    - Loop counters, array subscripts and element counts ([nColors],
      [proccesses], [maxNum], [rank]) are [nat]: every such quantity is
      bounded by a buffer size.  The [int] and [double] arithmetic of
      [updateCentroid] is written out: the sum of the two counts is taken in
      32 bits ([int32]), the weighted sum and the quotient are binary64
      values, and the conversion of the quotient to [int] is partial
      ([double_to_int]).
    - Reading an array outside what was written yields the default of [nth].
    - [double] distances are IEEE binary64 values, [PrimFloat.float].

    The definitions come first, in the order of the source; the lemmas
    follow by component, and the properties of the specification close the
    file, each with a concrete instance. *)

From Stdlib Require Import ZArith Lia Floats Uint63 Ascii Sorted.
From stdpp Require Import base numbers list strings.

(** ** Data model *)

(** [(unsigned char) z]. *)
Definition uchar (z : Z) : Z := (z mod 256)%Z.

(** [using Element = array<unsigned char, d>]. *)
Abbreviation Element := (list Z) (only parsing).

(** [struct Cluster { vector<int> elements; Element centroid; }]. *)
Record Cluster := mkCluster { elements : list Z; centroid : Element }.

(** [using Clusters = array<Cluster, k>]. *)
Abbreviation Clusters := (list Cluster) (only parsing).

(** The template parameters [k] and [d] and the pure virtual [distance] that a
    subclass supplies.  [nan_to_int] is not part of the class: it stands for
    the [int] that the target leaves in [size] where C++ does not define the
    conversion of [int size = sum / n] (a quotient that is a NaN, an infinity
    or outside the range of [int]); see [double_to_int]. *)
Class KMeansMPI := {
  k : nat;
  d : nat;
  distance : Element → Element → float;
  nan_to_int : Z
}.

Definition MAX_NUM_GENERATIONS : nat := 300.
Definition ROOT : nat := 0.

(** The members of one process's object that [fitWork] uses, together with
    [fitWork]'s local [prev].  [nColors] and [proccesses] are the same on every
    rank once [broadcastSize] and [MPI_Comm_size] have run; they are passed as
    arguments. *)
Record Proc := mkProc {
  partition : list Element;
  colorIds : list Z;
  maxNum : nat;
  clusters : Clusters;
  dist : list (list float);
  prev : Clusters
}.

Definition noCluster : Cluster := mkCluster [] [].

(** Assignment to the member [clusters]. *)
Definition withClusters (p : Proc) (cl : Clusters) : Proc :=
  mkProc (partition p) (colorIds p) (maxNum p) cl (dist p) (prev p).

(** [friend bool operator==(const Cluster&, const Cluster&)]: centroids only. *)
Definition cluster_eqb (left right : Cluster) : bool :=
  bool_decide (centroid left = centroid right).

(** [operator==] of [array<Cluster, k>]: element by element. *)
Fixpoint clusters_eqb (a b : Clusters) : bool :=
  match a, b with
  | [], [] => true
  | x :: a', y :: b' => cluster_eqb x y && clusters_eqb a' b'
  | _, _ => false
  end.

(** ** The subclass of the repository: Euclidean distance *)

Definition to_double (z : Z) : float := PrimFloat.of_uint63 (Uint63.of_Z z).

(** [MNISTPixel::calculateEuclideanDistance], over [n] channels. *)
Definition calculateEuclideanDistance (n : nat) (pixels other : Element) : float :=
  PrimFloat.sqrt
    (fold_left
       (λ result i,
          let value := (to_double (nth i pixels 0%Z) - to_double (nth i other 0%Z))%float in
          (result + value * value)%float)
       (seq 0 n) 0%float).

(** [MNISTKMeansMPI<k, d>]; [hw5_extra_credit.cpp] uses it at [k = 10],
    [d = 784].  [nan_to_int] is given the x86-64 value. *)
Definition MNISTKMeansMPI (k d : nat) : KMeansMPI :=
  {| k := k; d := d;
     distance := calculateEuclideanDistance d;
     nan_to_int := (- 2 ^ 31)%Z |}.

(** ** Centroid update *)

(** A conversion to [int]: 32 bits, two's complement. *)
Definition int32 (z : Z) : Z := ((z + 2 ^ 31) mod 2 ^ 32 - 2 ^ 31)%Z.

(** [(double) z] for an [int] [z]. *)
Definition int_to_double (z : Z) : float :=
  if (z <? 0)%Z then (- PrimFloat.of_uint63 (Uint63.of_Z (- z)))%float
  else PrimFloat.of_uint63 (Uint63.of_Z z).

(** [(int) x] for a [double] [x]: the value with its fraction dropped, when
    that is an [int]; C++ does not define the conversion otherwise. *)
Definition double_to_int (x : float) : option Z :=
  match Prim2SF x with
  | S754_zero _ => Some 0%Z
  | S754_finite s m e =>
      let magnitude := if (0 <=? e)%Z then (Z.pos m * 2 ^ e)%Z
                       else (Z.pos m / 2 ^ (- e))%Z in
      let z := if s then (- magnitude)%Z else magnitude in
      if ((- 2 ^ 31 <=? z) && (z <? 2 ^ 31))%Z then Some z else None
  | S754_infinity _ | S754_nan => None
  end.

(** [updateCentroid(centroid, centroidCount, newElement, newElementCount)]:
    the new value of [centroid].  [n] is an [int] sum, [sum] and the quotient
    are binary64 values. *)
Definition updateCentroid `{KMeansMPI} (centroid : Element) (centroidCount : Z)
    (newElement : Element) (newElementCount : Z) : Element :=
  let n := int32 (centroidCount + newElementCount) in
  map (λ i,
         let sum := (to_double (nth i centroid 0%Z) * int_to_double centroidCount
                     + to_double (nth i newElement 0%Z) * int_to_double newElementCount)%float in
         let size := default nan_to_int (double_to_int (sum / int_to_double n)%float) in
         uchar size)
      (seq 0 d).

(** ** Assignment *)

(** [updateDistances]: [dist[i][j] = distance(clusters[j].centroid, partition[i])]. *)
Definition updateDistances `{KMeansMPI} (p : Proc) : Proc :=
  mkProc (partition p) (colorIds p) (maxNum p) (clusters p)
    (map (λ i, map (λ j, distance (centroid (nth j (clusters p) noCluster))
                                  (nth i (partition p) []))
                   (seq 0 k))
         (seq 0 (maxNum p)))
    (prev p).

(** The inner loop of [updateClusters]:
    [int min = 0; for (j = 1; j < k; j++) if (dist[i][j] < dist[i][min]) min = j;]. *)
Definition nearestStep (row : list float) (min j : nat) : nat :=
  if (nth j row nan <? nth min row nan)%float then j else min.

(** [min] once the loop has run for [j = 1 .. n]. *)
Definition nearestUpto (row : list float) (n : nat) : nat :=
  fold_left (nearestStep row) (seq 1 n) 0.

Definition nearest `{KMeansMPI} (row : list float) : nat := nearestUpto row (k - 1).

(** One iteration of the outer loop of [updateClusters]. *)
Definition assignElement `{KMeansMPI} (p : Proc) (cl : Clusters) (i : nat) : Clusters :=
  let min := nearest (nth i (dist p) []) in
  alter (λ c, mkCluster
                (elements c ++ [Z.of_nat i])
                (updateCentroid (centroid c) (Z.of_nat (length (elements c)))
                                (nth i (partition p) []) 1))
        min cl.

(** The first loop of [updateClusters]: every one of the [k] clusters gets the
    value-initialised centroid [Element{}] and no elements. *)
Definition resetClusters `{KMeansMPI} : Clusters :=
  replicate k (mkCluster [] (replicate d 0%Z)).

(** [updateClusters]: the reset, then the elements of the partition are
    assigned in index order. *)
Definition updateClusters `{KMeansMPI} (p : Proc) : Proc :=
  withClusters p (fold_left (assignElement p) (seq 0 (maxNum p)) resetClusters).

(** ** Partitioning *)

(** The send buffer that the root fills in [partitionColors]: for every
    element its [d] channels, then its index as one [unsigned char]. *)
Definition marshalColors `{KMeansMPI} (colorList : list Element) (nColors : nat) : list Z :=
  flat_map
    (λ i, map (λ j, nth j (nth i colorList []) 0%Z) (seq 0 d) ++ [uchar (Z.of_nat i)])
    (seq 0 nColors).

(** [displs[z]] and [sendcounts[z]] of [partitionColors]; [index] is the
    number of bytes marshalled. *)
Definition scatterDispls `{KMeansMPI} (proccesses colorsEachProcess : nat) : list nat :=
  map (λ z, z * colorsEachProcess * (d + 1)) (seq 0 proccesses).

Definition scatterCounts `{KMeansMPI} (proccesses colorsEachProcess index : nat) : list nat :=
  map (λ z, if decide (z = proccesses - 1)
            then index - (proccesses - 1) * colorsEachProcess * (d + 1)
            else colorsEachProcess * (d + 1))
      (seq 0 proccesses).

(** [MPI_Scatterv] as seen by [rank]: the [sendcounts[rank]] bytes of the
    root's buffer that start at [displs[rank]]. *)
Definition MPI_Scatterv (sendbuf : list Z) (sendcounts displs : list nat) (rank : nat) : list Z :=
  take (nth rank sendcounts 0) (drop (nth rank displs 0) sendbuf).

(** [maxNum] as [partitionColors] sets it on [rank]. *)
Definition shardSize (nColors proccesses rank : nat) : nat :=
  let colorsEachProcess := nColors / proccesses in
  if decide (rank = proccesses - 1)
  then nColors - colorsEachProcess * (proccesses - 1)
  else colorsEachProcess.

(** [partitionColors(rank)]: the process after the scatter and the
    unmarshalling.  [colorList] is the root's [elements]. *)
Definition partitionColors `{KMeansMPI} (colorList : list Element)
    (nColors proccesses rank : nat) (p : Proc) : Proc :=
  let colorsEachProcess := nColors / proccesses in
  let sendbuf := marshalColors colorList nColors in
  let index := length sendbuf in
  let displs := scatterDispls proccesses colorsEachProcess in
  let sendcounts := scatterCounts proccesses colorsEachProcess index in
  let maxNum := shardSize nColors proccesses rank in
  let recvbuf := MPI_Scatterv sendbuf sendcounts displs rank in
  mkProc
    (map (λ i, map (λ j, nth (i * (d + 1) + j) recvbuf 0%Z) (seq 0 d)) (seq 0 maxNum))
    (map (λ i, nth (i * (d + 1) + d) recvbuf 0%Z) (seq 0 maxNum))
    maxNum
    (clusters p)
    (replicate maxNum (replicate k 0%float))
    (prev p).

(** ** Aggregation *)

(** The send buffer of [combineClusters]: for every cluster its centroid,
    then its number of elements converted to one [unsigned char]. *)
Definition serializeClusters `{KMeansMPI} (cl : Clusters) : list Z :=
  flat_map
    (λ i, let c := nth i cl noCluster in
          map (λ j, nth j (centroid c) 0%Z) (seq 0 d)
          ++ [uchar (Z.of_nat (length (elements c)))])
    (seq 0 k).

(** [MPI_Gather]: [sendCount] bytes of every rank, in rank order. *)
Definition MPI_Gather (sendCount : nat) (sendbufs : list (list Z)) : list Z :=
  flat_map (take sendCount) sendbufs.

(** The state of the root's merging loops: the clusters, [clusterSizes] and
    [index]. *)
Record Merge := mkMerge {
  mClusters : Clusters;
  clusterSizes : list Z;
  mIndex : nat
}.

(** The body of the merging loops of [combineClusters] for cluster [i]. *)
Definition mergeReport `{KMeansMPI} (recvbuf : list Z) (m : Merge) (i : nat) : Merge :=
  let centroid' := map (λ j, nth (mIndex m + j) recvbuf 0%Z) (seq 0 d) in
  let size := nth (mIndex m + d) recvbuf 0%Z in
  mkMerge
    (alter (λ c, mkCluster (elements c)
                   (updateCentroid (centroid c) (nth i (clusterSizes m) 0%Z) centroid' size))
           i (mClusters m))
    (alter (λ s, (s + size)%Z) i (clusterSizes m))
    (mIndex m + d + 1).

(** What the root does after the gather: [clusterSizes] starts as the root's
    own sizes, then the reports are merged for [z = 0 .. proccesses - 1] and,
    inside, for [i = 0 .. k - 1]. *)
Definition mergeClusters `{KMeansMPI} (proccesses : nat) (recvbuf : list Z) (cl : Clusters) : Clusters :=
  mClusters
    (fold_left
       (λ m (z : nat), fold_left (mergeReport recvbuf) (seq 0 k) m)
       (seq 0 proccesses)
       (mkMerge cl (map (λ c, Z.of_nat (length (elements c))) cl) 0)).

(** The merge read off the gathered buffer cluster by cluster, to compare
    [mergeClusters] with: the report of rank [z] for cluster [i] lies
    [(z * k + i) * (d + 1)] bytes into the buffer, and cluster [i] folds the
    reports of the ranks [0, 1, ..., proccesses - 1] in this order into its
    centroid and running size. *)
Definition reportCentroid `{KMeansMPI} (recvbuf : list Z) (z i : nat) : Element :=
  map (λ j, nth ((z * k + i) * (d + 1) + j) recvbuf 0%Z) (seq 0 d).

Definition reportSize `{KMeansMPI} (recvbuf : list Z) (z i : nat) : Z :=
  nth ((z * k + i) * (d + 1) + d) recvbuf 0%Z.

Definition mergeRank `{KMeansMPI} (recvbuf : list Z) (i : nat) (acc : list Z * Z) (z : nat)
    : list Z * Z :=
  (updateCentroid acc.1 acc.2 (reportCentroid recvbuf z i) (reportSize recvbuf z i),
   (acc.2 + reportSize recvbuf z i)%Z).

Definition mergedUpTo `{KMeansMPI} (recvbuf : list Z) (ranks i : nat) (c : Cluster)
    : list Z * Z :=
  fold_left (mergeRank recvbuf i) (seq 0 ranks)
            (centroid c, Z.of_nat (length (elements c))).

Definition mergedInRankOrder `{KMeansMPI} (proccesses : nat) (recvbuf : list Z)
    (cl : Clusters) : Clusters :=
  imap (λ i c, mkCluster (elements c) (mergedUpTo recvbuf proccesses i c).1) cl.

(** [combineClusters] on all ranks: only the root's clusters change. *)
Definition combineClusters `{KMeansMPI} (ps : list Proc) : list Proc :=
  let sendCount := k * (d + 1) in
  let recvbuf := MPI_Gather sendCount (map (λ p, serializeClusters (clusters p)) ps) in
  imap (λ rank p,
          if decide (rank = ROOT)
          then withClusters p (mergeClusters (length ps) recvbuf (clusters p))
          else p)
       ps.

(** ** Centroid broadcast *)

(** The buffer of [distributeCentroids] as the root fills it. *)
Definition serializeCentroids `{KMeansMPI} (cl : Clusters) : list Z :=
  flat_map (λ i, map (λ j, nth j (centroid (nth i cl noCluster)) 0%Z) (seq 0 d)) (seq 0 k).

(** What a rank other than the root does with the broadcast buffer. *)
Definition receiveCentroids `{KMeansMPI} (buffer : list Z) (cl : Clusters) : Clusters :=
  imap (λ i c, mkCluster (elements c) (map (λ j, nth (i * d + j) buffer 0%Z) (seq 0 d))) cl.

(** [distributeCentroids] on all ranks. *)
Definition distributeCentroids `{KMeansMPI} (ps : list Proc) : list Proc :=
  let buffer := serializeCentroids (clusters (nth ROOT ps (mkProc [] [] 0 [] [] []))) in
  imap (λ rank p,
          if decide (rank = ROOT) then p
          else withClusters p (receiveCentroids buffer (clusters p)))
       ps.

(** ** Result collection *)

(** [static_cast<unsigned char>(colorIds[index])]. *)
Definition globalId (p : Proc) (index : Z) : Z :=
  uchar (nth (Z.to_nat index) (colorIds p) 0%Z).

(** The send buffer of [collectClusterAssignments]: for every cluster its
    number of elements as one [unsigned char], then the [colorIds] of its
    elements, each converted to [unsigned char]. *)
Definition serializeAssignments `{KMeansMPI} (p : Proc) : list Z :=
  flat_map
    (λ i, let c := nth i (clusters p) noCluster in
          uchar (Z.of_nat (length (elements c))) :: map (globalId p) (elements c))
    (seq 0 k).

(** [recvcounts[z]] and [displs[z]] of [collectClusterAssignments]. *)
Definition gatherCounts `{KMeansMPI} (nColors proccesses : nat) : list nat :=
  let colorsEachProcess := nColors / proccesses in
  map (λ z, if decide (z = proccesses - 1)
            then (nColors - colorsEachProcess * (proccesses - 1)) + k
            else colorsEachProcess + k)
      (seq 0 proccesses).

Definition gatherDispls `{KMeansMPI} (nColors proccesses : nat) : list nat :=
  let colorsEachProcess := nColors / proccesses in
  map (λ z, z * (colorsEachProcess + k)) (seq 0 proccesses).

(** [MPI_Gatherv] into a receive buffer of [size] bytes: the first
    [recvcounts[z]] bytes of rank [z] are stored from [displs[z]] on. *)
Definition MPI_Gatherv (size : nat) (sendbufs : list (list Z))
    (recvcounts displs : list nat) : list Z :=
  fold_left
    (λ recvbuf z,
       list_inserts (nth z displs 0) (take (nth z recvcounts 0) (nth z sendbufs [])) recvbuf)
    (seq 0 (length sendbufs))
    (replicate size 0%Z).

(** The state of the root's deserialising loops. *)
Record Collect := mkCollect {
  cClusters : Clusters;
  bufferIndex : nat
}.

(** The body of the deserialising loops for cluster [i]: read [size], then
    push [size] bytes onto [clusters[i].elements]. *)
Definition collectSegment (recvbuf : list Z) (c : Collect) (i : nat) : Collect :=
  let size := Z.to_nat (nth (bufferIndex c) recvbuf 0%Z) in
  mkCollect
    (alter (λ cl, mkCluster
                    (elements cl
                     ++ map (λ e, nth (bufferIndex c + 1 + e) recvbuf 0%Z) (seq 0 size))
                    (centroid cl))
           i (cClusters c))
    (bufferIndex c + 1 + size).

(** What the root does after the gather: clear every membership list, then
    read the segments for [z = 0 .. proccesses - 1] and [i = 0 .. k - 1]. *)
Definition deserializeAssignments `{KMeansMPI} (proccesses : nat) (recvbuf : list Z)
    (cl : Clusters) : Clusters :=
  cClusters
    (fold_left
       (λ c (z : nat), fold_left (collectSegment recvbuf) (seq 0 k) c)
       (seq 0 proccesses)
       (mkCollect (map (λ c, mkCluster [] (centroid c)) cl) 0)).

(** [collectClusterAssignments] on all ranks: only the root's clusters change. *)
Definition collectClusterAssignments `{KMeansMPI} (nColors : nat) (ps : list Proc) : list Proc :=
  let proccesses := length ps in
  let recvbuf :=
    MPI_Gatherv (nColors + k * proccesses) (map serializeAssignments ps)
                (gatherCounts nColors proccesses) (gatherDispls nColors proccesses) in
  imap (λ rank p,
          if decide (rank = ROOT)
          then withClusters p (deserializeAssignments proccesses recvbuf (clusters p))
          else p)
       ps.

(** ** The driver *)

(** [selectClusters]: [selectedColors] is what [std::sample] returned;
    [clusters[i].centroid = elements[selectedColors[i]]] and
    [clusters[i].elements.clear()] for every [i]. *)
Definition selectedClusters `{KMeansMPI} (colorList : list Element)
    (selectedColors : list nat) : Clusters :=
  map (λ i, mkCluster [] (nth (nth i selectedColors 0) colorList [])) (seq 0 k).

Definition selectClusters `{KMeansMPI} (colorList : list Element) (selectedColors : list nat)
    (p : Proc) : Proc :=
  withClusters p (selectedClusters colorList selectedColors).

(** A freshly constructed object.  (The centroids of [Clusters clusters;] are
    indeterminate; every rank overwrites them before it reads them, the root
    in [selectClusters] and the others in [distributeCentroids].) *)
Definition newProc `{KMeansMPI} : Proc :=
  mkProc [] [] 0 (replicate k (mkCluster [] (replicate d 0%Z))) [] [].

(** [Clusters prev = clusters; ++prev[0].centroid[0];]. *)
Definition startPrev (p : Proc) : Proc :=
  mkProc (partition p) (colorIds p) (maxNum p) (clusters p) (dist p)
    (alter (λ c, mkCluster (elements c) (alter (λ x, uchar (x + 1)) 0 (centroid c)))
           0 (clusters p)).

(** [fitWork] up to the loop, on all ranks. *)
Definition fitStart `{KMeansMPI} (colorList : list Element) (nColors proccesses : nat)
    (selectedColors : list nat) : list Proc :=
  let partitioned :=
    map (λ rank, partitionColors colorList nColors proccesses rank newProc)
        (seq 0 proccesses) in
  let selected :=
    imap (λ rank p, if decide (rank = ROOT)
                    then selectClusters colorList selectedColors p else p)
         partitioned in
  map startPrev (distributeCentroids selected).

(** [prev = clusters;] *)
Definition savePrev (p : Proc) : Proc :=
  mkProc (partition p) (colorIds p) (maxNum p) (clusters p) (dist p) (clusters p).

(** The part of a generation that a process runs on its own. *)
Definition assignment `{KMeansMPI} (p : Proc) : Proc :=
  updateClusters (savePrev (updateDistances p)).

(** The body of the loop of [fitWork], on all ranks. *)
Definition generationBody `{KMeansMPI} (ps : list Proc) : list Proc :=
  distributeCentroids (combineClusters (map assignment ps)).

(** [prev == clusters], the test that leaves the loop. *)
Definition stable (p : Proc) : bool := clusters_eqb (prev p) (clusters p).

(** How the loop of [fitWork] ends on all ranks: after [generation] bodies,
    or not at all when some ranks leave the loop while the others enter
    the next collective. *)
Inductive Run :=
  | Finished (generation : nat) (ps : list Proc)
  | Deadlock.

(** The loop of [fitWork] with [fuel = MAX_NUM_GENERATIONS - generation]. *)
Fixpoint generations `{KMeansMPI} (fuel generation : nat) (ps : list Proc) : Run :=
  match fuel with
  | 0 => Finished generation ps
  | S fuel' =>
      if forallb stable ps then Finished generation ps
      else if existsb stable ps then Deadlock
      else generations fuel' (S generation) (generationBody ps)
  end.

(** [fitWork] on all ranks. *)
Definition fitWork `{KMeansMPI} (colorList : list Element) (nColors proccesses : nat)
    (selectedColors : list nat) : Run :=
  match generations MAX_NUM_GENERATIONS 0
          (fitStart colorList nColors proccesses selectedColors) with
  | Finished generation ps => Finished generation (collectClusterAssignments nColors ps)
  | Deadlock => Deadlock
  end.

(** [fit] followed by [getClusters] on the root. *)
Definition fit `{KMeansMPI} (colorList : list Element) (n proccesses : nat)
    (selectedColors : list nat) : option Clusters :=
  match fitWork colorList n proccesses selectedColors with
  | Finished _ ps => clusters <$> ps !! ROOT
  | Deadlock => None
  end.

(** ** Terminal states *)

(** The source keeps no status; the post-condition of [fitWork] names the two
    ways it ends: "clusters are now stable (or we gave up after
    MAX_NUM_GENERATIONS)".  [CONVERGED] is the first, read off what the loop
    leaves: [prev == clusters] on every rank.  A run whose centroids become
    stable in the very last permitted generation leaves the loop through its
    bound, with stable clusters, and counts as [CONVERGED]. *)
Inductive Terminal := CONVERGED | CAPPED.

Definition terminalState (r : Run) : option Terminal :=
  match r with
  | Finished _ ps => Some (if forallb stable ps then CONVERGED else CAPPED)
  | Deadlock => None
  end.

(** ** The image class [MNISTPixel] *)

Definition ROWS : Z := 28.
Definition COLS : Z := 28.
Definition PIXELS_N : nat := Z.to_nat (COLS * ROWS).

(** One digit of the conversion [%x]. *)
Definition hexDigit (n : Z) : ascii :=
  nth (Z.to_nat n)
      ["0"; "1"; "2"; "3"; "4"; "5"; "6"; "7"; "8"; "9"; "a"; "b"; "c"; "d"; "e"; "f"]%char
      "0"%char.

(** [%02x] of an [unsigned char]. *)
Definition hex02 (pixel : Z) : string :=
  String (hexDigit (pixel / 16)) (String (hexDigit (pixel mod 16)) EmptyString).

(** [MNISTPixel::getPixelHex(row, col)]; the message on [cerr] is left out. *)
Definition getPixelHex (pixels : Element) (row col : Z) : string :=
  if decide (row < 0 ∨ row >= ROWS ∨ col < 0 ∨ col >= COLS)%Z
  then "000000"
  else let pixel := nth (Z.to_nat (ROWS * row + col)) pixels 0%Z in
       hex02 pixel +:+ hex02 pixel +:+ hex02 pixel.

(** [MNISTPixel::getPixelValue(row, col)]. *)
Definition getPixelValue (pixels : Element) (row col : Z) : Z :=
  if decide (row < 0 ∨ row >= ROWS ∨ col < 0 ∨ col >= COLS)%Z
  then 0%Z
  else nth (Z.to_nat (row * COLS + col)) pixels 0%Z.

(** ** The program of [hw5_extra_credit.cpp] *)

Definition IMAGE_MAX : nat := 250.
Definition K : nat := 10.

(** A conversion to [uint32_t]. *)
Definition uint32 (z : Z) : Z := (z mod 2 ^ 32)%Z.

(** [swapEndian(i)]; the left shifts are taken in [uint32_t]. *)
Definition swapEndian (i : Z) : Z :=
  Z.lor
    (Z.lor
       (Z.lor (Z.shiftr i 24) (Z.land (Z.shiftr i 8) 0x0000FF00))
       (Z.land (uint32 (Z.shiftl i 8)) 0x00FF0000))
    (uint32 (Z.shiftl i 24)).

(** [displayClusters]: for every cluster the numbers [labels[j]] written
    after its heading, in the order of its membership list. *)
Definition displayClusters (cl : Clusters) (labels : list Z) : list (list Z) :=
  map (λ c, map (λ j, nth (Z.to_nat j) labels 0%Z) (elements c)) cl.

(** [createHTMLCell]: the background colours of the cells of the table of
    one image, row by row. *)
Definition createHTMLCell (image : Element) : list (list string) :=
  map (λ row, map (λ col, getPixelHex image (Z.of_nat row) (Z.of_nat col))
                  (seq 0 (Z.to_nat COLS)))
      (seq 0 (Z.to_nat ROWS)).

(** [generateHTML]: the images drawn in the column of every cluster, the
    centroid first and then [images[i]] for every member [i]. *)
Definition generateHTML (cl : Clusters) (images : list Element) : list (list Element) :=
  map (λ c, centroid c :: map (λ i, nth (Z.to_nat i) images []) (elements c)) cl.

(** [MNISTKMeansMPI<K, MNISTPixel::getNumPixels()> kMeans;]. *)
Definition kMeans : KMeansMPI := MNISTKMeansMPI K PIXELS_N.

(** [main] on the root, once the loaders have returned [images] and
    [labels]: [kMeans.fit(images, images_n)] with [images_n = IMAGE_MAX],
    then [displayClusters] and [generateHTML] on the clusters of
    [getClusters]. *)
Definition main (images : list Element) (labels : list Z) (proccesses : nat)
    (selectedColors : list nat) : option (list (list Z) * list (list Element)) :=
  (λ cl, (displayClusters cl labels, generateHTML cl images))
    <$> @fit kMeans images IMAGE_MAX proccesses selectedColors.

(** ** Predicates of the statements *)

(** The values of [unsigned char] and of [int]. *)
Definition is_uchar (z : Z) : Prop := (0 ≤ z < 256)%Z.
Definition is_int (z : Z) : Prop := (- 2 ^ 31 ≤ z < 2 ^ 31)%Z.

(** Every rank holds the same [k] centroids of [d] channels, and the same
    previous centroids. *)
Definition agreeing `{KMeansMPI} (ps : list Proc) : Prop :=
  ∃ cs pv : list (list Z),
    length cs = k
    ∧ Forall (λ c, length c = d) cs
    ∧ Forall (λ p, map centroid (clusters p) = cs ∧ map centroid (prev p) = pv) ps.

(** What [partitionColors] gives a rank and nothing changes afterwards. *)
Definition shard (p : Proc) : list (list Z) * list Z * nat :=
  (partition p, colorIds p, maxNum p).

Definition sharded `{KMeansMPI} (colorList : list Element) (n P : nat) (ps : list Proc) : Prop :=
  map shard ps = map (λ rank, shard (partitionColors colorList n P rank newProc)) (seq 0 P).

(** All members of all clusters of a rank. *)
Definition membersOf (p : Proc) : list Z := concat (map elements (clusters p)).

(** No cluster of the rank has more members than one [unsigned char] counts. *)
Definition countsFit `{KMeansMPI} (p : Proc) : Prop :=
  ∀ i, i < k → length (elements (nth i (clusters p) noCluster)) ≤ 255.

(** The segments of [serializeAssignments] before the sizes are narrowed: the
    cluster index with the identities sent for it. *)
Definition segmentsOf `{KMeansMPI} (p : Proc) : list (nat * list Z) :=
  map (λ i, (i, map (globalId p) (elements (nth i (clusters p) noCluster)))) (seq 0 k).

Definition encodeSegment (ids : list Z) : list Z := Z.of_nat (length ids) :: ids.

Definition appendSegment (cl : Clusters) (s : nat * list Z) : Clusters :=
  alter (λ c, mkCluster (elements c ++ s.2) (centroid c)) s.1 cl.

(** The cluster that [updateDistances] and the inner loop of [updateClusters]
    choose for the element [e] when the clusters are [cl]. *)
Definition nearestCluster `{KMeansMPI} (cl : Clusters) (e : Element) : nat :=
  nearest (map (λ j, distance (centroid (nth j cl noCluster)) e) (seq 0 k)).

(** The binary64 value [x] holds the integer [z] exactly: it is [+0] for
    [z = 0], and otherwise positive with a mantissa [m] of 53 bits and an
    exponent [e] between [-52] and [0] such that [m * 2^e = z]. *)
Definition SFinteger (x : spec_float) (z : Z) : Prop :=
  match x with
  | S754_zero s => s = false ∧ z = 0%Z
  | S754_finite s m e =>
      s = false ∧ (2 ^ 52 ≤ Z.pos m < 2 ^ 53)%Z ∧ (- 52 ≤ e ≤ 0)%Z
      ∧ Z.pos m = (z * 2 ^ (- e))%Z
  | S754_infinity _ | S754_nan => False
  end.

(** The binary64 value [x] with the sign bit [s]. *)
Definition SFwith_sign (s : bool) (x : spec_float) : spec_float :=
  match x with
  | S754_zero _ => S754_zero s
  | S754_infinity _ => S754_infinity s
  | S754_nan => S754_nan
  | S754_finite _ m e => S754_finite s m e
  end.

(** The binary64 value [x] holds the integer [z] of either sign exactly: a
    zero of either sign for [z = 0], and otherwise the sign of [z] with the
    magnitude held as in [SFinteger]. *)
Definition SFsigned (x : spec_float) (z : Z) : Prop :=
  match x with
  | S754_zero _ => z = 0%Z
  | S754_finite s m e =>
      s = (z <? 0)%Z ∧ SFinteger (S754_finite false m e) (Z.abs z)
  | S754_infinity _ | S754_nan => False
  end.

(** A binary64 value that is a number and not below zero. *)
Definition SFnonneg (x : spec_float) : bool :=
  match x with
  | S754_zero _ => true
  | S754_infinity s | S754_finite s _ _ => negb s
  | S754_nan => false
  end.

(** ** Fixtures *)

(** The example of the specification: eight elements of one channel. *)
Definition spec_example : list Element :=
  [[0]; [1]; [2]; [3]; [100]; [101]; [102]; [103]]%Z.

(** Two elements of the same colour: both are nearest to cluster 0. *)
Definition twins (colour : Z) : list Element := [[colour]; [colour]].

(** A subclass whose metric prefers the farthest centroid; its centroids
    swap in every generation. *)
Definition farthestFirst : KMeansMPI :=
  {| k := 2; d := 1;
     distance := λ a b, (- calculateEuclideanDistance 1 a b)%float;
     nan_to_int := (- 2 ^ 31)%Z |}.

(** One element at distance 2 from both centroids. *)
Definition equidistant : Proc :=
  mkProc [[5%Z]] [0%Z] 1 [mkCluster [] [3%Z]; mkCluster [] [7%Z]] [] [].

(** A rank whose only cluster has 300 members. *)
Definition crowded : Proc :=
  mkProc [] [] 0 [mkCluster (replicate 300 0%Z) [5%Z]] [] [].

(** A gathered buffer of two ranks, [k = 2], [d = 1]. *)
Definition two_reports : list Z := [10; 2; 20; 0; 30; 1; 40; 3]%Z.

(** * Lemmas *)

(** ** Lists and buffers *)

(** Indexing a list that is made of blocks, written over a range of
    indices, or updated at one index. *)

Lemma nth_alter_eq {A} (f : A → A) (l : list A) (i : nat) (x : A) :
  i < length l → nth i (alter f i l) x = f (nth i l x).
Proof.
  intros Hi. rewrite !nth_lookup, list_lookup_alter, decide_True by done.
  destruct (lookup_lt_is_Some_2 l i Hi) as [y Hy]. by rewrite Hy.
Qed.

Lemma nth_alter_ne {A} (f : A → A) (l : list A) (i j : nat) (x : A) :
  i ≠ j → nth j (alter f i l) x = nth j l x.
Proof. intros Hi. by rewrite !nth_lookup, list_lookup_alter, decide_False. Qed.

Lemma nth_map_seq {A} (f : nat → A) (s n i : nat) (x : A) :
  i < n → nth i (map f (seq s n)) x = f (s + i).
Proof.
  intros Hi. rewrite nth_lookup, list_lookup_fmap, lookup_seq_lt by done. done.
Qed.

Lemma map_nth_seq {A} (l : list A) (x : A) :
  map (λ j, nth j l x) (seq 0 (length l)) = l.
Proof.
  apply list_eq. intros i. rewrite list_lookup_fmap.
  destruct (decide (i < length l)) as [Hi|Hi].
  - rewrite lookup_seq_lt by done. simpl.
    destruct (lookup_lt_is_Some_2 l i Hi) as [y Hy]. by rewrite nth_lookup, Hy.
  - rewrite lookup_seq_ge, lookup_ge_None_2 by lia. done.
Qed.

Lemma map_seq_shift {A} (f : nat → A) (off cnt : nat) :
  map f (seq off cnt) = map (λ i, f (off + i)) (seq 0 cnt).
Proof.
  apply list_eq. intros i. rewrite !list_lookup_fmap.
  destruct (decide (i < cnt)) as [Hi|Hi].
  - by rewrite !lookup_seq_lt by done.
  - by rewrite !lookup_seq_ge by lia.
Qed.

Lemma map_by_index {A B} (f : A → B) (g : nat → B) (l : list A) :
  (∀ z x, l !! z = Some x → f x = g z) → map f l = map g (seq 0 (length l)).
Proof.
  intros Hfg. apply list_eq. intros z. rewrite !list_lookup_fmap.
  destruct (l !! z) as [x|] eqn:Hz.
  - rewrite lookup_seq_lt by (by eapply lookup_lt_Some). simpl. f_equal. by apply Hfg.
  - rewrite lookup_seq_ge by (by apply lookup_ge_None). done.
Qed.

Lemma nth_take_drop {A} (l : list A) (off cnt i : nat) (x : A) :
  i < cnt → nth i (take cnt (drop off l)) x = nth (off + i) l x.
Proof.
  intros Hi. rewrite !nth_lookup, lookup_take_lt, lookup_drop by done. done.
Qed.

Lemma take_drop_nth_seq {A} (l : list A) (off cnt : nat) (x : A) :
  off + cnt ≤ length l →
  take cnt (drop off l) = map (λ i, nth (off + i) l x) (seq 0 cnt).
Proof.
  intros Hl. apply list_eq. intros i. rewrite list_lookup_fmap.
  destruct (decide (i < cnt)) as [Hi|Hi].
  - rewrite lookup_take_lt, lookup_drop, lookup_seq_lt by done. simpl.
    destruct (lookup_lt_is_Some_2 l (off + i)) as [y Hy]; [lia|].
    by rewrite nth_lookup, Hy.
  - rewrite lookup_take_ge, lookup_seq_ge by lia. done.
Qed.

Lemma nth_middle_app {A} (pre l post : list A) (j : nat) (x : A) :
  j < length l → nth (length pre + j) (pre ++ l ++ post) x = nth j l x.
Proof.
  intros Hj. rewrite app_nth2 by lia.
  replace (length pre + j - length pre) with j by lia. by rewrite app_nth1.
Qed.

Lemma nth_flat_map_block {A} (f : nat → list A) (m s n i j : nat) (x : A) :
  (∀ a, a < n → length (f (s + a)) = m) → i < n → j < m →
  nth (i * m + j) (flat_map f (seq s n)) x = nth j (f (s + i)) x.
Proof.
  revert s i. induction n as [|n IH]; intros s i Hlen Hi Hj; [lia|].
  simpl. destruct i as [|i].
  - rewrite app_nth1 by (rewrite <- (Nat.add_0_r s), Hlen; lia).
    by rewrite Nat.add_0_r.
  - rewrite app_nth2; rewrite <- (Nat.add_0_r s) at 1; rewrite Hlen by lia; [|lia].
    replace (S i * m + j - m) with (i * m + j) by lia.
    rewrite IH; [|intros a Ha; replace (S s + a) with (s + S a) by lia; apply Hlen; lia|lia|done].
    f_equal. f_equal. lia.
Qed.

Lemma length_flat_map_block {A} (f : nat → list A) (m s n : nat) :
  (∀ a, a < n → length (f (s + a)) = m) →
  length (flat_map f (seq s n)) = n * m.
Proof.
  revert s. induction n as [|n IH]; intros s Hlen; [done|].
  simpl. rewrite length_app, IH.
  - rewrite <- (Nat.add_0_r s) at 1. rewrite Hlen; lia.
  - intros a Ha. replace (S s + a) with (s + S a) by lia. apply Hlen. lia.
Qed.

Lemma length_flat_map_cons {A B} (h : A → B) (g : A → list B) (l : list A) :
  length (flat_map (λ c, h c :: g c) l) = length l + length (flat_map g l).
Proof.
  induction l as [|c l IH]; [done|]. simpl. rewrite !length_app, IH. lia.
Qed.

Lemma length_flat_map_sum {A B} (f : A → list B) (l : list A) :
  length (flat_map f l) = list_sum (map (λ x, length (f x)) l).
Proof. induction l as [|x l IH]; [done|]. simpl. by rewrite length_app, IH. Qed.

Lemma flat_map_map {A B C} (f : B → list C) (g : A → B) (l : list A) :
  flat_map f (map g l) = flat_map (λ x, f (g x)) l.
Proof. induction l as [|x l IH]; [done|]. simpl. by rewrite IH. Qed.

Lemma flat_map_ext_seq {A} (f g : nat → list A) (s n : nat) :
  (∀ i, s ≤ i < s + n → f i = g i) → flat_map f (seq s n) = flat_map g (seq s n).
Proof.
  revert s. induction n as [|n IH]; intros s Hfg; [done|].
  simpl. rewrite Hfg by lia. f_equal. apply IH. intros i Hi. apply Hfg. lia.
Qed.

Lemma flat_map_permutation {A B} (f g : A → list B) (l : list A) :
  Forall (λ x, f x ≡ₚ g x) l → flat_map f l ≡ₚ flat_map g l.
Proof.
  induction 1 as [|x l Hx _ IH]; [done|]. simpl. by rewrite Hx, IH.
Qed.

Lemma fold_left_flat_map {A B C} (f : A → B → A) (g : C → list B) (l : list C) (a : A) :
  fold_left (λ a c, fold_left f (g c) a) l a = fold_left f (flat_map g l) a.
Proof.
  revert a. induction l as [|c l IH]; intros a; [done|].
  simpl. by rewrite fold_left_app, IH.
Qed.

Lemma length_concat_take_le {A} (l : list (list A)) (m : nat) (b : list A) :
  l !! m = Some b → length (concat (take m l)) + length b ≤ length (concat l).
Proof.
  revert m. induction l as [|a l IH]; intros [|m] Hb; simplify_eq/=;
    rewrite ?length_app; [lia|].
  specialize (IH m Hb). lia.
Qed.

Lemma alter_imap_prefix {A} (g : nat → A → A) (l : list A) (n : nat) :
  alter (g n) n (imap (λ i x, if decide (i < n) then g i x else x) l)
  = imap (λ i x, if decide (i < S n) then g i x else x) l.
Proof.
  apply list_eq. intros i.
  rewrite list_lookup_alter, !list_lookup_imap.
  destruct (decide (n = i)) as [->|Hne].
  - destruct (l !! i); simpl; [|done].
    by rewrite decide_False, decide_True by lia.
  - destruct (l !! i); simpl; [|done].
    repeat case_decide; done || lia.
Qed.

Lemma imap_prefix_0 {A} (g : nat → A → A) (l : list A) :
  imap (λ i x, if decide (i < 0) then g i x else x) l = l.
Proof.
  apply list_eq. intros i. rewrite list_lookup_imap.
  destruct (l !! i); [|done]. cbn [fmap option_fmap option_map].
  case_decide; [lia|done].
Qed.

Lemma imap_prefix_all {A} (g : nat → A → A) (l : list A) (n : nat) :
  length l ≤ n →
  imap (λ i x, if decide (i < n) then g i x else x) l = imap g l.
Proof.
  intros Hn. apply list_eq. intros i. rewrite !list_lookup_imap.
  destruct (l !! i) eqn:Hi; simpl; [|done].
  apply lookup_lt_Some in Hi. by rewrite decide_True by lia.
Qed.

Lemma nth_imap_prefix_ge {A} (g : nat → A → A) (l : list A) (n i : nat) (x : A) :
  n ≤ i → nth i (imap (λ i x, if decide (i < n) then g i x else x) l) x = nth i l x.
Proof.
  intros Hn. rewrite !nth_lookup, list_lookup_imap.
  destruct (l !! i); simpl; [|done]. by rewrite decide_False by lia.
Qed.

Lemma imap_root {A B} (f g : A → B) (l : list A) :
  imap (λ rank p, if decide (rank = ROOT) then f p else g p) l
  = match l with [] => [] | r :: os => f r :: map g os end.
Proof.
  destruct l as [|r os]; [done|]. rewrite imap_cons. f_equal.
  apply list_eq. intros i. rewrite list_lookup_imap, list_lookup_fmap.
  by destruct (os !! i).
Qed.

Lemma forallb_all_true {A} (f : A → bool) (l : list A) :
  Forall (λ x, f x = true) l → forallb f l = true.
Proof. induction 1 as [|x l Hx _ IH]; [done|]. simpl. by rewrite Hx, IH. Qed.

Lemma existsb_all_false {A} (f : A → bool) (l : list A) :
  Forall (λ x, f x = false) l → existsb f l = false.
Proof. induction 1 as [|x l Hx _ IH]; [done|]. simpl. by rewrite Hx, IH. Qed.

Lemma bounded_forallb (f : nat → bool) (n : nat) :
  forallb f (seq 0 (S n)) = true → ∀ j, j ≤ n → f j = true.
Proof.
  intros Hall j Hj. rewrite forallb_forall in Hall. apply Hall, in_seq. lia.
Qed.

(** ** Bytes *)

Lemma uchar_small (z : Z) : (0 ≤ z < 256)%Z → uchar z = z.
Proof. intros Hz. unfold uchar. by apply Z.mod_small. Qed.

Lemma uchar_id (a : nat) : a < 256 → uchar (Z.of_nat a) = Z.of_nat a.
Proof. intros Ha. apply uchar_small. lia. Qed.

Lemma uchar_succ_ne (x : Z) : uchar (x + 1) ≠ x.
Proof.
  unfold uchar. intros Hx.
  pose proof (Z.mod_pos_bound (x + 1) 256 ltac:(lia)).
  pose proof (Z.div_mod (x + 1) 256 ltac:(lia)). lia.
Qed.

Lemma is_uchar_uchar (z : Z) : is_uchar (uchar z).
Proof. unfold is_uchar, uchar. apply Z.mod_pos_bound. lia. Qed.

Lemma is_uchar_nat (z : Z) : is_uchar z → ∃ j, j ≤ 255 ∧ z = Z.of_nat j.
Proof. intros [? ?]. exists (Z.to_nat z). lia. Qed.

Lemma is_uchar_nth (e : list Z) (i : nat) : Forall is_uchar e → is_uchar (nth i e 0%Z).
Proof.
  intros He. destruct (decide (i < length e)) as [Hi|Hi].
  - rewrite Forall_forall in He. apply He, list_elem_of_In, nth_In, Hi.
  - rewrite nth_overflow by lia. unfold is_uchar. lia.
Qed.

Lemma bytes_forallb (f : Z → Z → bool) :
  forallb (λ a, forallb (λ b, f (Z.of_nat a) (Z.of_nat b)) (seq 0 256)) (seq 0 256) = true →
  ∀ a b, is_uchar a → is_uchar b → f a b = true.
Proof.
  intros Hall a b (i & Hi & ->)%is_uchar_nat (j & Hj & ->)%is_uchar_nat.
  pose proof (bounded_forallb _ 255 Hall i Hi) as Hrow. cbv beta in Hrow.
  exact (bounded_forallb (λ b, f (Z.of_nat i) (Z.of_nat b)) 255 Hrow j Hj).
Qed.

Lemma weighted_mean_range (a b m n : Z) :
  (0 ≤ a < 256 → 0 ≤ b < 256 → 0 ≤ m → 0 ≤ n → 0 < m + n →
   0 ≤ (a * m + b * n) / (m + n) < 256)%Z.
Proof.
  intros Ha Hb Hm Hn Hmn. split.
  - apply Z.div_pos; nia.
  - apply Z.div_lt_upper_bound; nia.
Qed.

Lemma weighted_mean_between (x s x' s' lo hi : Z) :
  (0 ≤ lo → 0 ≤ s → 0 ≤ s' → 0 < s + s' →
   (s = 0 ∨ lo ≤ x ≤ hi) → (s' = 0 ∨ lo ≤ x' ≤ hi) →
   lo ≤ (x * s + x' * s') / (s + s') ≤ hi)%Z.
Proof.
  intros Hlo Hs Hs' Hpos [->|Hx] [->|Hx']; try lia.
  - rewrite Z.mul_0_r, Z.add_0_l, Z.add_0_l, Z.div_mul by lia. done.
  - rewrite Z.mul_0_r, !Z.add_0_r, Z.div_mul by lia. done.
  - split.
    + apply Z.div_le_lower_bound; nia.
    + assert ((x * s + x' * s') / (s + s') < hi + 1)%Z; [|lia].
      apply Z.div_lt_upper_bound; nia.
Qed.

Lemma running_mean_first (x xi : Z) : ((x * 0 + xi * 1) / (0 + 1) = xi)%Z.
Proof. rewrite Z.mul_0_r, Z.mul_1_r. simpl. apply Z.div_1_r. Qed.

Lemma running_mean_step (x len xi lo hi sum : Z) :
  (0 < len → 0 ≤ x < 256 → 0 ≤ xi < 256 →
   x * len ≤ sum → lo ≤ x ≤ hi → lo ≤ xi ≤ hi →
   let x' := (x * len + xi * 1) / (len + 1) in
   0 ≤ x' < 256 ∧ x' * (len + 1) ≤ sum + xi ∧ lo ≤ x' ≤ hi)%Z.
Proof.
  intros Hlen Hx Hxi Hsum Hlo Hlo' x'. subst x'.
  pose proof (Z.mul_div_le (x * len + xi * 1) (len + 1) ltac:(lia)) as Hle.
  split; [split|split; [|split]].
  - apply Z.div_pos; nia.
  - apply Z.div_lt_upper_bound; nia.
  - nia.
  - apply Z.div_le_lower_bound; nia.
  - assert ((x * len + xi * 1) / (len + 1) < hi + 1)%Z; [|lia].
    apply Z.div_lt_upper_bound; nia.
Qed.

(** ** Rounding to binary64 *)

(** A mantissa that is a multiple of a power of two is shifted without
    loss, and a rounding that has nothing to drop returns its argument. *)

Lemma digits2_pos_size (p : positive) : digits2_pos p = Pos.size p.
Proof. induction p as [p IH|p IH|]; simpl; by rewrite ?IH. Qed.

Lemma digits2_pos_bounds (p : positive) :
  (2 ^ (Z.pos (digits2_pos p) - 1) ≤ Z.pos p < 2 ^ Z.pos (digits2_pos p))%Z.
Proof.
  induction p as [p IH|p IH|]; [| |simpl; lia].
  - cbn [digits2_pos]. rewrite Pos2Z.inj_succ.
    replace (Z.succ (Z.pos (digits2_pos p)) - 1)%Z with (Z.succ (Z.pos (digits2_pos p) - 1))%Z
      by lia.
    rewrite !Z.pow_succ_r by lia. lia.
  - cbn [digits2_pos]. rewrite Pos2Z.inj_succ.
    replace (Z.succ (Z.pos (digits2_pos p)) - 1)%Z with (Z.succ (Z.pos (digits2_pos p) - 1))%Z
      by lia.
    rewrite !Z.pow_succ_r by lia. lia.
Qed.

Lemma digits2_pos_unique (p : positive) (n : Z) :
  (2 ^ (n - 1) ≤ Z.pos p < 2 ^ n)%Z → Z.pos (digits2_pos p) = n.
Proof.
  intros [Hlo Hhi]. pose proof (digits2_pos_bounds p) as [Hlo' Hhi'].
  assert (0 < n)%Z as Hn.
  { destruct n as [|n|n]; [|lia|].
    - change (2 ^ 0)%Z with 1%Z in Hhi. lia.
    - rewrite Z.pow_neg_r in Hhi by lia. lia. }
  destruct (Z.lt_trichotomy (Z.pos (digits2_pos p)) n) as [Hlt|[Heq|Hgt]]; [|done|].
  - assert (2 ^ Z.pos (digits2_pos p) ≤ 2 ^ (n - 1))%Z by (apply Z.pow_le_mono_r; lia). lia.
  - assert (2 ^ n ≤ 2 ^ (Z.pos (digits2_pos p) - 1))%Z by (apply Z.pow_le_mono_r; lia). lia.
Qed.

Lemma iter_xO_pow2 (m d : positive) : Z.pos (Pos.iter xO m d) = (Z.pos m * 2 ^ Z.pos d)%Z.
Proof.
  revert m. induction d as [|d IH] using Pos.peano_ind; intros m.
  - simpl. lia.
  - rewrite Pos.iter_succ, Pos2Z.inj_xO, IH, Pos2Z.inj_succ, Z.pow_succ_r by lia. lia.
Qed.

Lemma iter_pos_iter {A} (f : A → A) (p : positive) (x : A) :
  SpecFloat.iter_pos f p x = Pos.iter f x p.
Proof.
  revert x. induction p as [p IH|p IH|]; intros x; simpl; [|by rewrite !IH|done].
  by rewrite !IH, !Pos.iter_swap.
Qed.

Lemma shr_1_even (k : Z) :
  (0 ≤ k)%Z →
  shr_1 (Build_shr_record (2 * k) false false) = Build_shr_record k false false.
Proof. intros Hk. by destruct k as [|p|p]. Qed.

Lemma iter_shr_1_exact (p : positive) (k : Z) :
  (0 ≤ k)%Z →
  SpecFloat.iter_pos shr_1 p (Build_shr_record (k * 2 ^ Z.pos p) false false)
  = Build_shr_record k false false.
Proof.
  intros Hk. rewrite iter_pos_iter. revert k Hk.
  induction p as [|p IH] using Pos.peano_ind; intros k Hk.
  - simpl. change (2 ^ 1)%Z with 2%Z. rewrite Z.mul_comm. by apply shr_1_even.
  - rewrite Pos.iter_succ, Pos2Z.inj_succ, Z.pow_succ_r by lia.
    replace (k * (2 * 2 ^ Z.pos p))%Z with (2 * k * 2 ^ Z.pos p)%Z by lia.
    rewrite IH by lia. by apply shr_1_even.
Qed.

Lemma fexp_normal (x : Z) : (- 1021 ≤ x)%Z → fexp prec emax x = (x - 53)%Z.
Proof. intros Hx. unfold fexp, SpecFloat.emin, prec, emax. lia. Qed.

Lemma shr_fexp_exact (m M : positive) (e E : Z) :
  (2 ^ 52 ≤ Z.pos M < 2 ^ 53)%Z → (- 1074 ≤ E)%Z → (e ≤ E)%Z →
  Z.pos m = (Z.pos M * 2 ^ (E - e))%Z →
  shr_fexp prec emax (Z.pos m) e loc_Exact = (Build_shr_record (Z.pos M) false false, E).
Proof.
  intros HM HE He Hm. unfold shr_fexp. cbn [Zdigits2 shr_record_of_loc].
  assert (Z.pos (digits2_pos m) = 53 + (E - e))%Z as ->.
  { apply digits2_pos_unique. rewrite Hm.
    replace (53 + (E - e) - 1)%Z with (52 + (E - e))%Z by lia.
    rewrite !Z.pow_add_r by lia. pose proof (Z.pow_pos_nonneg 2 (E - e)). nia. }
  rewrite fexp_normal by lia.
  replace (53 + (E - e) + e - 53 - e)%Z with (E - e)%Z by lia.
  unfold shr. destruct (E - e)%Z as [|p|p] eqn:Hd; [| |lia].
  - rewrite Hm. change (2 ^ 0)%Z with 1%Z. f_equal; [f_equal|]; lia.
  - rewrite Hm, iter_shr_1_exact by lia. f_equal. lia.
Qed.

Lemma binary_round_aux_exact (m M : positive) (e E : Z) :
  (2 ^ 52 ≤ Z.pos M < 2 ^ 53)%Z → (- 1074 ≤ E ≤ 971)%Z → (e ≤ E)%Z →
  Z.pos m = (Z.pos M * 2 ^ (E - e))%Z →
  binary_round_aux prec emax false (Z.pos m) e loc_Exact = S754_finite false M E.
Proof.
  intros HM HE He Hm. unfold binary_round_aux.
  rewrite (shr_fexp_exact m M e E) by (done || lia).
  cbn [shr_m loc_of_shr_record round_nearest_even].
  rewrite (shr_fexp_exact M M E E); [| done | lia | lia |].
  - cbn [shr_m]. unfold emax, prec. by rewrite (proj2 (Z.leb_le _ _)) by lia.
  - rewrite Z.sub_diag. change (2 ^ 0)%Z with 1%Z. lia.
Qed.

Lemma shl_align_ge (mx : positive) (ex ex' : Z) :
  (ex ≤ ex')%Z → shl_align mx ex ex' = (mx, ex).
Proof. intros H. unfold shl_align. destruct (ex' - ex)%Z eqn:Hd; (done || lia). Qed.

Lemma shl_align_lt (mx : positive) (ex ex' : Z) :
  (ex' < ex)%Z →
  ∃ m', shl_align mx ex ex' = (m', ex') ∧ Z.pos m' = (Z.pos mx * 2 ^ (ex - ex'))%Z.
Proof.
  intros H. unfold shl_align. destruct (ex' - ex)%Z as [|p|p] eqn:Hd; try lia.
  eexists. split; [reflexivity|]. rewrite iter_xO_pow2. f_equal. f_equal. lia.
Qed.

Lemma shl_align_fst (mx : positive) (ex ex' : Z) :
  (ex' ≤ ex)%Z → Z.pos (shl_align mx ex ex').1 = (Z.pos mx * 2 ^ (ex - ex'))%Z.
Proof.
  intros H. destruct (Z.eq_dec ex ex') as [->|Hne].
  - rewrite shl_align_ge by lia. rewrite Z.sub_diag. simpl. lia.
  - destruct (shl_align_lt mx ex ex') as (m' & -> & Hm'); [lia|done].
Qed.

Lemma binary_round_exact (m M : positive) (e E : Z) :
  (2 ^ 52 ≤ Z.pos M < 2 ^ 53)%Z → (- 1021 ≤ E ≤ 971)%Z →
  (e ≤ E ∧ Z.pos m = Z.pos M * 2 ^ (E - e) ∨ E < e ∧ Z.pos M = Z.pos m * 2 ^ (e - E))%Z →
  binary_round prec emax false m e = S754_finite false M E.
Proof.
  intros HM HE Hrep. unfold binary_round.
  assert (Z.pos (digits2_pos m) + e = 53 + E)%Z as Hdig.
  { destruct Hrep as [[He Hm]|[He Hm]].
    - assert (Z.pos (digits2_pos m) = 53 + (E - e))%Z; [|lia].
      apply digits2_pos_unique. rewrite Hm.
      replace (53 + (E - e) - 1)%Z with (52 + (E - e))%Z by lia.
      rewrite !Z.pow_add_r by lia. pose proof (Z.pow_pos_nonneg 2 (E - e)). nia.
    - assert (Z.pos (digits2_pos m) = 53 - (e - E))%Z; [|lia].
      apply digits2_pos_unique.
      assert (0 < 2 ^ (e - E))%Z as Hp by (apply Z.pow_pos_nonneg; lia).
      assert (e - E ≤ 52)%Z as Hsmall.
      { destruct (Z.le_gt_cases (e - E) 52) as [|Hbig]; [done|].
        assert (2 ^ 53 ≤ 2 ^ (e - E))%Z by (apply Z.pow_le_mono_r; lia). nia. }
      assert (2 ^ 52 = 2 ^ (53 - (e - E) - 1) * 2 ^ (e - E))%Z as H52.
      { rewrite <- Z.pow_add_r by lia. f_equal. lia. }
      assert (2 ^ 53 = 2 ^ (53 - (e - E)) * 2 ^ (e - E))%Z as H53.
      { rewrite <- Z.pow_add_r by lia. f_equal. lia. }
      nia. }
  rewrite Hdig, fexp_normal by lia. replace (53 + E - 53)%Z with E by lia.
  destruct Hrep as [[He Hm]|[He Hm]].
  - rewrite shl_align_ge by done. apply (binary_round_aux_exact m M e E); (done || lia).
  - destruct (shl_align_lt m e E He) as (m' & -> & Hm').
    apply (binary_round_aux_exact m' M E E); try (done || lia).
    rewrite Z.sub_diag. change (2 ^ 0)%Z with 1%Z. lia.
Qed.

Lemma normal_form (z : Z) :
  (0 < z < 2 ^ 53)%Z →
  ∃ (M : positive) (E : Z),
    (2 ^ 52 ≤ Z.pos M < 2 ^ 53)%Z ∧ (- 52 ≤ E ≤ 0)%Z ∧ Z.pos M = (z * 2 ^ (- E))%Z.
Proof.
  intros Hz. destruct z as [|p|p]; try lia.
  pose proof (digits2_pos_bounds p) as [Hlo Hhi].
  set (D := Z.pos (digits2_pos p)) in *.
  assert (1 ≤ D ≤ 53)%Z as HD.
  { split; [subst D; lia|].
    destruct (Z.le_gt_cases D 53) as [|Hbig]; [done|].
    assert (2 ^ 53 ≤ 2 ^ (D - 1))%Z by (apply Z.pow_le_mono_r; lia). lia. }
  assert (0 < 2 ^ (53 - D))%Z as Hp by (apply Z.pow_pos_nonneg; lia).
  exists (Z.to_pos (Z.pos p * 2 ^ (53 - D))), (D - 53)%Z.
  rewrite Z2Pos.id by nia. replace (- (D - 53))%Z with (53 - D)%Z by lia.
  assert (2 ^ 52 = 2 ^ (D - 1) * 2 ^ (53 - D))%Z as H52.
  { rewrite <- Z.pow_add_r by lia. f_equal. lia. }
  assert (2 ^ 53 = 2 ^ D * 2 ^ (53 - D))%Z as H53.
  { rewrite <- Z.pow_add_r by lia. f_equal. lia. }
  split; [nia|]. split; [lia|done].
Qed.

(** ** Integers held in binary64 *)

(** Integers below [2^53] are binary64 values, and their products and sums
    are computed without rounding as long as they stay below [2^53]. *)

Lemma SFinteger_finite (M : positive) (E : Z) (z : Z) :
  (2 ^ 52 ≤ Z.pos M < 2 ^ 53)%Z → (- 52 ≤ E ≤ 0)%Z → Z.pos M = (z * 2 ^ (- E))%Z →
  SFinteger (S754_finite false M E) z.
Proof. intros HM HE Hm. cbn [SFinteger]. auto. Qed.

Lemma SFinteger_binary_round (m : positive) (e : Z) (z : Z) :
  (0 < z < 2 ^ 53)%Z → (e ≤ 0)%Z → Z.pos m = (z * 2 ^ (- e))%Z →
  SFinteger (binary_round prec emax false m e) z.
Proof.
  intros Hz He Hm. destruct (normal_form z Hz) as (M & E & HM & HE & HMz).
  rewrite (binary_round_exact m M e E); [by apply SFinteger_finite|done|lia|].
  destruct (Z.le_gt_cases e E) as [Hle|Hgt]; [left|right]; (split; [done|]).
  - rewrite Hm. replace (- e)%Z with (- E + (E - e))%Z by lia.
    rewrite Z.pow_add_r by lia. rewrite HMz. lia.
  - rewrite HMz. replace (- E)%Z with (- e + (e - E))%Z by lia.
    rewrite Z.pow_add_r by lia. rewrite Hm. lia.
Qed.

Lemma SFinteger_of_Z (z : Z) :
  (0 ≤ z < 2 ^ 53)%Z → SFinteger (binary_normalize prec emax z 0 false) z.
Proof.
  intros Hz. destruct z as [|p|p]; [done| |lia].
  unfold binary_normalize. apply SFinteger_binary_round; [lia|lia|].
  change (2 ^ (- 0))%Z with 1%Z. lia.
Qed.

Lemma SFinteger_nonneg (x : spec_float) (z : Z) : SFinteger x z → (0 ≤ z)%Z.
Proof.
  destruct x as [s|s| |s m e]; try done.
  - intros [_ ->]. done.
  - intros (_ & HM & HE & Hm). assert (0 < 2 ^ (- e))%Z by (apply Z.pow_pos_nonneg; lia). nia.
Qed.

Lemma SFinteger_mul (x y : spec_float) (a b : Z) :
  SFinteger x a → SFinteger y b → (a * b < 2 ^ 53)%Z →
  SFinteger (SF64mul x y) (a * b).
Proof.
  intros Hx Hy Hab.
  destruct x as [sx|sx| |sx mx ex], y as [sy|sy| |sy my ey]; try done.
  - destruct Hx as [-> ->], Hy as [-> ->]. done.
  - destruct Hx as [-> ->], Hy as (-> & _). simpl. split; [done|lia].
  - destruct Hx as (-> & _), Hy as [-> ->]. simpl. split; [done|lia].
  - destruct Hx as (-> & Hmx & Hex & Hx), Hy as (-> & Hmy & Hey & Hy).
    unfold SF64mul, SFmul. cbn [xorb].
    assert (0 < 2 ^ (- ex))%Z as Hpx by (apply Z.pow_pos_nonneg; lia).
    assert (0 < 2 ^ (- ey))%Z as Hpy by (apply Z.pow_pos_nonneg; lia).
    assert (0 < a * b)%Z as Hpos by nia.
    destruct (normal_form (a * b)) as (M & E & HM & HE & HMz); [lia|].
    assert (0 < 2 ^ (- E))%Z as HpE by (apply Z.pow_pos_nonneg; lia).
    assert (Z.pos (mx * my) = a * b * 2 ^ (- (ex + ey)))%Z as Hprod.
    { rewrite Pos2Z.inj_mul, Hx, Hy.
      replace (- (ex + ey))%Z with (- ex + - ey)%Z by lia.
      rewrite Z.pow_add_r by lia. lia. }
    assert (ex + ey ≤ E)%Z as Hle.
    { destruct (Z.le_gt_cases (ex + ey) E) as [|Hgt]; [done|].
      assert (2 * 2 ^ (- (ex + ey)) ≤ 2 ^ (- E))%Z.
      { replace (- E)%Z with (Z.succ (- (ex + ey) + (ex + ey - E - 1)))%Z by lia.
        rewrite Z.pow_succ_r, Z.pow_add_r by lia.
        assert (0 < 2 ^ (ex + ey - E - 1))%Z by (apply Z.pow_pos_nonneg; lia).
        assert (0 < 2 ^ (- (ex + ey)))%Z by (apply Z.pow_pos_nonneg; lia). nia. }
      assert (2 ^ 52 * 2 ^ 52 ≤ Z.pos (mx * my))%Z by (rewrite Pos2Z.inj_mul; nia).
      assert (2 * Z.pos (mx * my) ≤ Z.pos M)%Z.
      { rewrite Hprod, HMz. nia. }
      lia. }
    rewrite (binary_round_aux_exact (mx * my) M (ex + ey) E); [by apply SFinteger_finite|done|lia|done|].
    rewrite Hprod, HMz. replace (- (ex + ey))%Z with (- E + (E - (ex + ey)))%Z by lia.
    rewrite Z.pow_add_r by lia. lia.
Qed.

Lemma SFinteger_add (x y : spec_float) (a b : Z) :
  SFinteger x a → SFinteger y b → (a + b < 2 ^ 53)%Z →
  SFinteger (SF64add x y) (a + b).
Proof.
  intros Hx Hy Hab.
  destruct x as [sx|sx| |sx mx ex], y as [sy|sy| |sy my ey]; try done.
  - destruct Hx as [-> ->], Hy as [-> ->]. done.
  - destruct Hx as [-> ->]. by rewrite Z.add_0_l.
  - destruct Hy as [-> ->]. by rewrite Z.add_0_r.
  - destruct Hx as (-> & Hmx & Hex & Hx), Hy as (-> & Hmy & Hey & Hy).
    unfold SF64add, SFadd. cbn [cond_Zopp].
    set (ez := Z.min ex ey).
    pose proof (shl_align_fst mx ex ez ltac:(lia)) as H1.
    pose proof (shl_align_fst my ey ez ltac:(lia)) as H2.
    set (m1 := (shl_align mx ex ez).1) in *. set (m2 := (shl_align my ey ez).1) in *.
    cbn [Z.add binary_normalize].
    assert (0 < 2 ^ (- ex))%Z as Hpx by (apply Z.pow_pos_nonneg; lia).
    assert (0 < 2 ^ (- ey))%Z as Hpy by (apply Z.pow_pos_nonneg; lia).
    assert (0 < a ∧ 0 < b)%Z as [Ha Hb] by nia.
    assert (ez ≤ 0)%Z as Hez by (subst ez; lia).
    apply SFinteger_binary_round; [lia|done|].
    assert (2 ^ (- ez) = 2 ^ (- ex) * 2 ^ (ex - ez))%Z as Hzx.
    { rewrite <- Z.pow_add_r by lia. f_equal. lia. }
    assert (2 ^ (- ez) = 2 ^ (- ey) * 2 ^ (ey - ez))%Z as Hzy.
    { rewrite <- Z.pow_add_r by lia. f_equal. lia. }
    rewrite Pos2Z.inj_add, H1, H2, Hx, Hy, <- !Z.mul_assoc, <- Hzx, <- Hzy. lia.
Qed.

(** ** The quotient of two integers in binary64 *)

(** The quotient is rounded to 53 bits, to the nearest value.  The rounded
    quotient of two integers has the integer part of the exact quotient: the
    rounding moves the mantissa by one unit at most, and a multiple of the
    divisor is never that close above the dividend. *)

Lemma SFdiv_core_normal (M1 M2 : positive) (E1 E2 : Z) :
  (2 ^ 52 ≤ Z.pos M1 < 2 ^ 53)%Z → (2 ^ 52 ≤ Z.pos M2 < 2 ^ 53)%Z →
  (- 52 ≤ E1 ≤ 0)%Z → (- 52 ≤ E2 ≤ 0)%Z →
  SFdiv_core_binary prec emax (Z.pos M1) E1 (Z.pos M2) E2
  = ((Z.pos M1 * 2 ^ 53) / Z.pos M2, E1 - E2 - 53,
     new_location (Z.pos M2) ((Z.pos M1 * 2 ^ 53) mod Z.pos M2))%Z.
Proof.
  intros H1 H2 HE1 HE2. unfold SFdiv_core_binary. cbn [Zdigits2].
  rewrite (digits2_pos_unique M1 53), (digits2_pos_unique M2 53) by done.
  replace (53 + E1 - (53 + E2))%Z with (E1 - E2)%Z by lia.
  rewrite fexp_normal by lia. rewrite Z.min_l by lia.
  replace (E1 - E2 - (E1 - E2 - 53))%Z with 53%Z by lia.
  cbv iota. rewrite Z.shiftl_mul_pow2 by lia.
  unfold Z.div, Z.modulo. by destruct (Z.div_eucl _ _).
Qed.

Lemma loc_of_shr_record_of_loc (m : Z) (l : location) :
  loc_of_shr_record (shr_record_of_loc m l) = l.
Proof. by destruct l as [|[]]. Qed.

Lemma round_nearest_even_cases (m : Z) (l : location) :
  round_nearest_even m l = m ∨ round_nearest_even m l = (m + 1)%Z.
Proof. destruct l as [|[]]; simpl; try destruct (Z.even m); auto. Qed.

Lemma shr_fexp_carry (m : positive) (e : Z) :
  (2 ^ 52 ≤ Z.pos m ≤ 2 ^ 53)%Z → (- 1074 ≤ e)%Z →
  ∃ (M : positive) (E : Z),
    (2 ^ 52 ≤ Z.pos M < 2 ^ 53)%Z ∧ (e ≤ E ≤ e + 1)%Z
    ∧ Z.pos m = (Z.pos M * 2 ^ (E - e))%Z
    ∧ shr_fexp prec emax (Z.pos m) e loc_Exact = (Build_shr_record (Z.pos M) false false, E).
Proof.
  intros Hm He. destruct (Z.eq_dec (Z.pos m) (2 ^ 53)%Z) as [Heq|Hne].
  - exists (Z.to_pos (2 ^ 52)%Z), (e + 1)%Z.
    assert (Z.pos (Z.to_pos (2 ^ 52)%Z) = 2 ^ 52)%Z as HM by done.
    assert (Z.pos m = Z.pos (Z.to_pos (2 ^ 52)) * 2 ^ (e + 1 - e))%Z as Hrep.
    { rewrite HM, Heq. replace (e + 1 - e)%Z with 1%Z by lia. done. }
    split; [rewrite HM; lia|]. split; [lia|]. split; [done|].
    apply shr_fexp_exact; [rewrite HM; lia|lia|lia|done].
  - exists m, e. split; [lia|]. split; [lia|].
    assert (Z.pos m = Z.pos m * 2 ^ (e - e))%Z as Hrep.
    { rewrite Z.sub_diag. change (2 ^ 0)%Z with 1%Z. lia. }
    split; [done|]. apply shr_fexp_exact; [lia|lia|lia|done].
Qed.

Lemma binary_round_aux_finish (m : Z) (e : Z) :
  (2 ^ 52 ≤ m ≤ 2 ^ 53)%Z → (- 1074 ≤ e ≤ 970)%Z →
  ∃ (M : positive) (E : Z),
    (e ≤ E ≤ e + 1)%Z ∧ m = (Z.pos M * 2 ^ (E - e))%Z
    ∧ (let '(mrs, e'') := shr_fexp prec emax m e loc_Exact in
       match shr_m mrs with
       | 0%Z => S754_zero false
       | Z.pos m0 =>
           if (e'' <=? emax - prec)%Z then S754_finite false m0 e'' else S754_infinity false
       | Z.neg _ => S754_nan
       end) = S754_finite false M E.
Proof.
  intros Hm He. destruct m as [|p|p]; try lia.
  destruct (shr_fexp_carry p e Hm ltac:(lia)) as (M & E & HM & HE & Hrep & ->).
  exists M, E. split; [done|]. split; [done|].
  cbn [shr_m]. unfold emax, prec. by rewrite (proj2 (Z.leb_le _ _)) by lia.
Qed.

Lemma shr_m_shr_record_of_loc (m : Z) (l : location) : shr_m (shr_record_of_loc m l) = m.
Proof. by destruct l as [|[]]. Qed.

Lemma shr_1_record_of_loc (p : positive) (l : location) :
  (∃ s, shr_1 (shr_record_of_loc (Z.pos p~0) l) = Build_shr_record (Z.pos p) false s)
  ∧ (∃ s, shr_1 (shr_record_of_loc (Z.pos p~1) l) = Build_shr_record (Z.pos p) true s).
Proof. destruct l as [|[]]; simpl; eauto. Qed.

Lemma binary_round_aux_quotient (q e : Z) (l : location) :
  (2 ^ 52 ≤ q < 2 ^ 54)%Z → (- 1074 ≤ e ≤ 900)%Z →
  ∃ (M : positive) (E : Z),
    binary_round_aux prec emax false q e l = S754_finite false M E
    ∧ (e ≤ E ≤ e + 2)%Z
    ∧ (Z.pos M * 2 ^ (E - e) = q ∨ Z.pos M * 2 ^ (E - e) = q + 1
       ∨ Z.pos M * 2 ^ (E - e) = q - 1 ∧ q mod 2 = 1)%Z.
Proof.
  intros Hq He. destruct q as [|p|p]; try lia.
  unfold binary_round_aux.
  destruct (Z.lt_ge_cases (Z.pos p) (2 ^ 53)) as [Hsmall|Hbig].
  - assert (shr_fexp prec emax (Z.pos p) e l = (shr_record_of_loc (Z.pos p) l, e)) as ->.
    { unfold shr_fexp. cbn [Zdigits2]. rewrite (digits2_pos_unique p 53) by lia.
      rewrite fexp_normal by lia. replace (53 + e - 53 - e)%Z with 0%Z by lia. done. }
    rewrite loc_of_shr_record_of_loc, shr_m_shr_record_of_loc.
    destruct (binary_round_aux_finish (round_nearest_even (Z.pos p) l) e)
      as (M & E & HE & HV & Heq); [|lia|].
    { destruct (round_nearest_even_cases (Z.pos p) l) as [->| ->]; lia. }
    exists M, E. split; [exact Heq|]. split; [lia|]. rewrite <- HV.
    destruct (round_nearest_even_cases (Z.pos p) l) as [->| ->]; auto.
  - assert (shr_fexp prec emax (Z.pos p) e l
            = (shr_1 (shr_record_of_loc (Z.pos p) l), e + 1)%Z) as ->.
    { unfold shr_fexp. cbn [Zdigits2]. rewrite (digits2_pos_unique p 54) by lia.
      rewrite fexp_normal by lia. replace (54 + e - 53 - e)%Z with 1%Z by lia. done. }
    assert (∀ m, (2 ^ 52 ≤ m ≤ 2 ^ 53)%Z →
              ∃ (M : positive) (E : Z),
                (let '(mrs, e'') := shr_fexp prec emax m (e + 1) loc_Exact in
                 match shr_m mrs with
                 | 0%Z => S754_zero false
                 | Z.pos m0 =>
                     if (e'' <=? emax - prec)%Z then S754_finite false m0 e''
                     else S754_infinity false
                 | Z.neg _ => S754_nan
                 end) = S754_finite false M E
                ∧ (e ≤ E ≤ e + 2)%Z ∧ (Z.pos M * 2 ^ (E - e) = 2 * m)%Z) as Hfinish.
    { intros m Hm.
      destruct (binary_round_aux_finish m (e + 1)) as (M & E & HE & HV & Heq); [done|lia|].
      exists M, E. split; [exact Heq|]. split; [lia|].
      replace (E - e)%Z with (Z.succ (E - (e + 1)))%Z by lia.
      rewrite Z.pow_succ_r by lia. lia. }
    destruct p as [p|p|]; [| |lia].
    + destruct (shr_1_record_of_loc p l) as [_ [s ->]].
      cbn [shr_m loc_of_shr_record].
      set (l' := match s with true => loc_Inexact Gt | false => loc_Inexact Eq end).
      assert ((if s then loc_Inexact Gt else loc_Inexact Eq) = l') as Hl by done.
      destruct s; cbn [loc_of_shr_record]; rewrite ?Hl;
        (destruct (Hfinish (round_nearest_even (Z.pos p) l')) as (M & E & Heq & HE & HV);
         [destruct (round_nearest_even_cases (Z.pos p) l') as [->| ->]; lia|];
         exists M, E; split; [exact Heq|]; split; [done|]; rewrite HV;
         destruct (round_nearest_even_cases (Z.pos p) l') as [->| ->];
         [right; right; split; [lia|]; rewrite Pos2Z.inj_xI, Z.add_comm, Z.mul_comm, Z.mod_add by lia; done
         |right; left; lia]).
    + destruct (shr_1_record_of_loc p l) as [[s ->] _].
      cbn [shr_m loc_of_shr_record].
      assert (round_nearest_even (Z.pos p)
                (if s then loc_Inexact Lt else loc_Exact) = Z.pos p) as Hrne by (by destruct s).
      destruct s; cbn [loc_of_shr_record] in *; rewrite Hrne;
        (destruct (Hfinish (Z.pos p)) as (M & E & Heq & HE & HV); [lia|];
         exists M, E; split; [exact Heq|]; split; [done|]; left; lia).
Qed.

Lemma div_succ_same (q T : Z) :
  (0 < T)%Z → ((q + 1) mod T ≠ 0)%Z → ((q + 1) / T = q / T)%Z.
Proof.
  intros HT Hmod.
  pose proof (Z.div_mod q T ltac:(lia)) as Hq.
  pose proof (Z.mod_pos_bound q T HT) as Hr.
  destruct (Z.eq_dec (q mod T + 1)%Z T) as [Heq|Hne].
  - exfalso. apply Hmod.
    replace (q + 1)%Z with (0 + (q / T + 1) * T)%Z by nia.
    by rewrite Z.mod_add by lia.
  - symmetry. apply (Z.div_unique_pos (q + 1) T (q / T) (q mod T + 1)); lia.
Qed.

Lemma odd_not_multiple (q t : Z) :
  (1 ≤ t)%Z → (q mod 2 = 1)%Z → (q mod 2 ^ t ≠ 0)%Z.
Proof.
  intros Ht Hodd Hmod.
  apply Z.mod_divide in Hmod; [|apply Z.pow_nonzero; lia].
  destruct Hmod as [c Hc].
  replace t with (Z.succ (t - 1)) in Hc by lia. rewrite Z.pow_succ_r in Hc by lia.
  rewrite Hc in Hodd. replace (c * (2 * 2 ^ (t - 1)))%Z with (0 + c * 2 ^ (t - 1) * 2)%Z in Hodd by lia.
  rewrite Z.mod_add in Hodd by lia. done.
Qed.

Lemma quotient_not_before_multiple (s n T q : Z) :
  (0 ≤ s)%Z → (0 < n < T)%Z → q = (s * T / n)%Z → ((q + 1) mod T ≠ 0)%Z.
Proof.
  intros Hs Hn -> Hmod.
  apply Z.mod_divide in Hmod; [|lia]. destruct Hmod as [c Hc].
  pose proof (Z.mul_div_le (s * T) n ltac:(lia)) as Hle.
  pose proof (Z.mul_succ_div_gt (s * T) n ltac:(lia)) as Hgt.
  set (q := (s * T / n)%Z) in *.
  assert (s < c * n)%Z as Hlt by nia.
  assert ((s + 1) * T ≤ c * n * T)%Z by nia.
  nia.
Qed.

Lemma SF64div_truncates (x y : spec_float) (s n : Z) :
  SFinteger x s → SFinteger y n → (0 < n)%Z → (s / n < 2 ^ 32)%Z →
  match SF64div x y with
  | S754_zero _ => (s / n = 0)%Z
  | S754_finite sg m e => sg = false ∧ (e < 0)%Z ∧ (Z.pos m / 2 ^ (- e) = s / n)%Z
  | S754_infinity _ | S754_nan => False
  end.
Proof.
  intros Hx Hy Hn Hrange.
  destruct x as [sx|sx| |sx M1 E1], y as [sy|sy| |sy M2 E2]; try done.
  - destruct Hy as [_ ->]. lia.
  - destruct Hx as [-> ->]. simpl. done.
  - destruct Hy as [_ ->]. lia.
  - destruct Hx as (-> & HM1 & HE1 & Hs), Hy as (-> & HM2 & HE2 & Hn').
    unfold SF64div, SFdiv. rewrite SFdiv_core_normal by done. cbn [xorb].
    set (t := (53 + E2 - E1)%Z).
    assert (0 < 2 ^ (- E1))%Z as HA by (apply Z.pow_pos_nonneg; lia).
    assert (0 < 2 ^ (- E2))%Z as HB by (apply Z.pow_pos_nonneg; lia).
    assert (0 < 2 ^ t)%Z as HT by (apply Z.pow_pos_nonneg; lia).
    assert (2 ^ (- E1) * 2 ^ 53 = 2 ^ t * 2 ^ (- E2))%Z as Hscale.
    { rewrite <- !Z.pow_add_r by lia. f_equal. lia. }
    assert (Z.pos M1 * 2 ^ 53 / Z.pos M2 = s * 2 ^ t / n)%Z as Hq.
    { rewrite Hs, Hn'.
      replace (s * 2 ^ (- E1) * 2 ^ 53)%Z with (s * 2 ^ t * 2 ^ (- E2))%Z by nia.
      apply Z.div_mul_cancel_r; lia. }
    set (q := (Z.pos M1 * 2 ^ 53 / Z.pos M2)%Z) in *.
    assert (2 ^ 52 ≤ q < 2 ^ 54)%Z as Hqb.
    { subst q. split.
      - apply Z.div_le_lower_bound; nia.
      - apply Z.div_lt_upper_bound; nia. }
    assert (0 < s)%Z as Hspos by nia.
    assert (q / 2 ^ t = s / n)%Z as Hquot.
    { rewrite Hq, Z.div_div by lia. apply Z.div_mul_cancel_r; lia. }
    assert (n < 2 ^ t)%Z as HnT by nia.
    assert (21 ≤ t)%Z as Ht.
    { destruct (Z.le_gt_cases 21 t) as [|Hsmall]; [done|].
      assert (2 ^ t ≤ 2 ^ 20)%Z by (apply Z.pow_le_mono_r; lia).
      assert (2 ^ 32 ≤ q / 2 ^ t)%Z; [|lia].
      apply Z.div_le_lower_bound; [done|]. nia. }
    destruct (binary_round_aux_quotient q (E1 - E2 - 53)
                (new_location (Z.pos M2) ((Z.pos M1 * 2 ^ 53) mod Z.pos M2)))
      as (M & E & -> & HE & HV); [done|lia|].
    split; [done|]. split; [lia|].
    assert (2 ^ t = 2 ^ (- E) * 2 ^ (E - (E1 - E2 - 53)))%Z as HTE.
    { rewrite <- Z.pow_add_r by lia. f_equal. lia. }
    assert (0 < 2 ^ (E - (E1 - E2 - 53)))%Z as HpE by (apply Z.pow_pos_nonneg; lia).
    assert (0 < 2 ^ (- E))%Z as HpE' by (apply Z.pow_pos_nonneg; lia).
    assert (Z.pos M / 2 ^ (- E)
            = Z.pos M * 2 ^ (E - (E1 - E2 - 53)) / 2 ^ t)%Z as ->.
    { rewrite HTE. symmetry. apply Z.div_mul_cancel_r; lia. }
    rewrite <- Hquot.
    destruct HV as [-> |[-> |[-> Hodd]]]; [done| |].
    + apply div_succ_same; [done|]. apply (quotient_not_before_multiple s n); [lia|lia|exact Hq].
    + symmetry. replace q with (q - 1 + 1)%Z at 1 by lia.
      apply div_succ_same; [done|]. replace (q - 1 + 1)%Z with q by lia.
      apply odd_not_multiple; [lia|done].
Qed.

Lemma double_to_int_div (x y : float) (s n : Z) :
  SFinteger (Prim2SF x) s → SFinteger (Prim2SF y) n → (0 < n)%Z → (s / n < 2 ^ 31)%Z →
  double_to_int (x / y) = Some (s / n)%Z.
Proof.
  intros Hx Hy Hn Hrange. unfold double_to_int. rewrite FloatAxioms.div_spec.
  pose proof (SF64div_truncates _ _ s n Hx Hy Hn ltac:(lia)) as Hdiv.
  pose proof (SFinteger_nonneg _ _ Hx) as Hs.
  pose proof (Z.div_pos s n Hs Hn) as Hpos.
  destruct (SF64div (Prim2SF x) (Prim2SF y)) as [sg|sg| |sg m e]; try done.
  - by rewrite Hdiv.
  - destruct Hdiv as (-> & He & Hm). cbv zeta.
    rewrite (proj2 (Z.leb_gt 0 e)) by lia. rewrite Hm.
    rewrite (proj2 (Z.leb_le (- 2 ^ 31) (s / n))), (proj2 (Z.ltb_lt (s / n) (2 ^ 31))) by lia.
    done.
Qed.

(** ** Integers of either sign in binary64 *)

(** The sign bit is set aside by every operation and put back on the
    rounded magnitude. *)

Lemma binary_round_aux_sign (s : bool) (m e : Z) (l : location) :
  binary_round_aux prec emax s m e l
  = SFwith_sign s (binary_round_aux prec emax false m e l).
Proof.
  unfold binary_round_aux.
  destruct (shr_fexp prec emax m e l) as [mrs' e'].
  destruct (shr_fexp prec emax _ e' loc_Exact) as [mrs'' e''].
  destruct (shr_m mrs''); [done| |done].
  by destruct (e'' <=? emax - prec)%Z.
Qed.

Lemma binary_round_sign (s : bool) (m : positive) (e : Z) :
  binary_round prec emax s m e = SFwith_sign s (binary_round prec emax false m e).
Proof.
  unfold binary_round. destruct (shl_align m e _) as [mz ez].
  apply binary_round_aux_sign.
Qed.

Lemma SFsigned_integer (x : spec_float) (z : Z) : SFinteger x z → SFsigned x z.
Proof.
  intros Hx. pose proof (SFinteger_nonneg _ _ Hx) as Hz.
  destruct x as [s|s| |s m e]; try done.
  - by destruct Hx.
  - destruct Hx as (-> & Hx). split.
    + symmetry. apply Z.ltb_ge. lia.
    + rewrite Z.abs_eq by done. by split.
Qed.

Lemma SFsigned_with_sign (s : bool) (x : spec_float) (a z : Z) :
  SFinteger x a → a = Z.abs z → s = (z <? 0)%Z → SFsigned (SFwith_sign s x) z.
Proof.
  intros Hx -> ->. destruct x as [s'|s'| |s' m e]; try done.
  - destruct Hx as [_ Hz]. cbn. lia.
  - destruct Hx as (-> & Hx). by split.
Qed.

Lemma SFsigned_magnitude (s : bool) (m : positive) (e : Z) (z : Z) :
  SFsigned (S754_finite s m e) z →
  SFinteger (S754_finite false m e) (Z.abs z) ∧ s = (z <? 0)%Z ∧ z ≠ 0%Z.
Proof.
  intros [Hs Hm]. split; [done|]. split; [done|].
  destruct Hm as (_ & HM & HE & Hm). intros ->. cbn in Hm. lia.
Qed.

Lemma xorb_sign_mul (a b : Z) :
  a ≠ 0%Z → b ≠ 0%Z → xorb (a <? 0)%Z (b <? 0)%Z = (a * b <? 0)%Z.
Proof.
  intros Ha Hb.
  destruct (Z.ltb_spec a 0), (Z.ltb_spec b 0), (Z.ltb_spec (a * b) 0); simpl; try done; nia.
Qed.

Lemma SFsigned_mul (x y : spec_float) (a b : Z) :
  SFsigned x a → SFsigned y b → (Z.abs (a * b) < 2 ^ 53)%Z →
  SFsigned (SF64mul x y) (a * b).
Proof.
  intros Hx Hy Hab.
  destruct x as [sx|sx| |sx mx ex], y as [sy|sy| |sy my ey]; try done.
  - cbn in *. lia.
  - cbn in *. lia.
  - cbn -[Z.mul] in *. lia.
  - apply SFsigned_magnitude in Hx as (Hx & -> & Ha), Hy as (Hy & -> & Hb).
    pose proof (SFinteger_mul _ _ _ _ Hx Hy) as Hmul.
    rewrite <- Z.abs_mul in Hmul. specialize (Hmul Hab).
    unfold SF64mul, SFmul in *. cbn [xorb] in Hmul.
    rewrite binary_round_aux_sign.
    apply (SFsigned_with_sign _ _ _ _ Hmul); [done|by apply xorb_sign_mul].
Qed.

Lemma cond_Zopp_aligned (s : bool) (m : positive) (e ez z : Z) :
  (ez ≤ e ≤ 0)%Z → s = (z <? 0)%Z → Z.pos m = (Z.abs z * 2 ^ (- e))%Z →
  cond_Zopp s (Z.pos (shl_align m e ez).1) = (z * 2 ^ (- ez))%Z.
Proof.
  intros He -> Hm. rewrite shl_align_fst by lia. rewrite Hm.
  assert (2 ^ (- ez) = 2 ^ (- e) * 2 ^ (e - ez))%Z as ->.
  { rewrite <- Z.pow_add_r by lia. f_equal. lia. }
  destruct (Z.ltb_spec z 0); cbn [cond_Zopp]; [rewrite Z.abs_neq by lia|rewrite Z.abs_eq by lia];
    lia.
Qed.

Lemma SFsigned_add (x y : spec_float) (a b : Z) :
  SFsigned x a → SFsigned y b → (Z.abs (a + b) < 2 ^ 53)%Z →
  SFsigned (SF64add x y) (a + b).
Proof.
  intros Hx Hy Hab.
  destruct x as [sx|sx| |sx mx ex], y as [sy|sy| |sy my ey]; try done.
  - cbn in Hx, Hy. subst. by destruct sx, sy.
  - cbn in Hx. subst. by rewrite Z.add_0_l.
  - cbn in Hy. subst. by rewrite Z.add_0_r.
  - apply SFsigned_magnitude in Hx as (Hx & Hsx & Ha), Hy as (Hy & Hsy & Hb).
    destruct Hx as (_ & Hmx & Hex & Hx), Hy as (_ & Hmy & Hey & Hy).
    unfold SF64add, SFadd.
    set (ez := Z.min ex ey).
    rewrite (cond_Zopp_aligned sx mx ex ez a), (cond_Zopp_aligned sy my ey ez b)
      by (done || subst ez; lia).
    rewrite <- Z.mul_add_distr_r.
    assert (0 < 2 ^ (- ez))%Z as Hp by (apply Z.pow_pos_nonneg; subst ez; lia).
    assert (ez ≤ 0)%Z as Hez by (subst ez; lia).
    destruct ((a + b) * 2 ^ (- ez))%Z as [|p|p] eqn:Hsum.
    + cbn. nia.
    + cbn [binary_normalize]. apply SFsigned_integer.
      apply SFinteger_binary_round; [|done|done]. nia.
    + cbn [binary_normalize]. rewrite binary_round_sign.
      apply (SFsigned_with_sign _ _ (- (a + b))).
      * apply SFinteger_binary_round; [|done|]; [nia|]. lia.
      * assert (a + b < 0)%Z by nia. lia.
      * symmetry. apply Z.ltb_lt. nia.
Qed.

Lemma SFsigned_div (x y : spec_float) (s n : Z) :
  SFsigned x s → SFinteger y n → (0 < n)%Z → (Z.abs s / n < 2 ^ 32)%Z →
  match SF64div x y with
  | S754_zero _ => (Z.abs s / n = 0)%Z
  | S754_finite sg m e =>
      sg = (s <? 0)%Z ∧ (e < 0)%Z ∧ (Z.pos m / 2 ^ (- e) = Z.abs s / n)%Z
  | S754_infinity _ | S754_nan => False
  end.
Proof.
  intros Hx Hy Hn Hrange.
  destruct x as [sx|sx| |sx mx ex]; try done.
  - cbn in Hx. subst s. destruct y as [sy|sy| |sy my ey]; try done.
    destruct Hy as [_ ->]. lia.
  - apply SFsigned_magnitude in Hx as (Hx & -> & Hs).
    pose proof (SF64div_truncates _ _ _ _ Hx Hy Hn Hrange) as Hdiv.
    destruct y as [sy|sy| |sy my ey]; try done.
    destruct Hy as (-> & _).
    unfold SF64div, SFdiv in *.
    destruct (SFdiv_core_binary prec emax (Z.pos mx) ex (Z.pos my) ey) as [[mz ez] lz].
    rewrite binary_round_aux_sign. cbn [xorb] in Hdiv. rewrite xorb_false_r.
    destruct (binary_round_aux prec emax false mz ez lz) as [sg|sg| |sg m e]; try done.
    destruct Hdiv as (_ & Hdiv). done.
Qed.

Lemma double_to_int_quot (x y : float) (s n : Z) :
  SFsigned (Prim2SF x) s → SFinteger (Prim2SF y) n → (0 < n)%Z → is_int (s ÷ n) →
  double_to_int (x / y) = Some (s ÷ n)%Z.
Proof.
  unfold is_int. intros Hx Hy Hn Hrange. unfold double_to_int. rewrite FloatAxioms.div_spec.
  assert (Z.abs s / n = Z.abs (s ÷ n))%Z as Habs.
  { rewrite <- Z.quot_div_nonneg by lia.
    rewrite <- (Z.abs_eq n) at 1 by lia. apply Z.quot_abs. lia. }
  pose proof (SFsigned_div _ _ s n Hx Hy Hn ltac:(lia)) as Hdiv.
  destruct (SF64div (Prim2SF x) (Prim2SF y)) as [sg|sg| |sg m e]; try done.
  - f_equal. lia.
  - destruct Hdiv as (-> & He & Hm). cbv zeta.
    rewrite (proj2 (Z.leb_gt 0 e)) by lia. rewrite Hm, Habs.
    assert ((if (s <? 0)%Z then (- Z.abs (s ÷ n))%Z else Z.abs (s ÷ n)) = (s ÷ n)%Z) as ->.
    { destruct (Z.ltb_spec s 0) as [Hneg|Hpos].
      - assert (s ÷ n ≤ 0)%Z; [|lia].
        rewrite <- (Z.opp_involutive s), Z.quot_opp_l by lia.
        assert (0 ≤ - s ÷ n)%Z; [apply Z.quot_pos|]; lia.
      - assert (0 ≤ s ÷ n)%Z; [apply Z.quot_pos|]; lia. }
    rewrite (proj2 (Z.leb_le (- 2 ^ 31) (s ÷ n))), (proj2 (Z.ltb_lt (s ÷ n) (2 ^ 31))) by lia.
    done.
Qed.

(** ** The conversions of the centroid update *)

(** [(double) z] for bytes and for [int] counts, the weighted sum, and the
    conversion of the quotient back to [int]. *)

Lemma int32_small (n : Z) : (- 2 ^ 31 ≤ n < 2 ^ 31)%Z → int32 n = n.
Proof. intros Hn. unfold int32. rewrite Z.mod_small; lia. Qed.

Lemma to_double_integer (z : Z) :
  (0 ≤ z < 2 ^ 53)%Z → SFinteger (Prim2SF (to_double z)) z.
Proof.
  intros Hz. unfold to_double. rewrite FloatAxioms.of_uint63_spec, Uint63.of_Z_spec.
  rewrite Z.mod_small; [by apply SFinteger_of_Z|].
  change wB with (2 ^ 63)%Z. lia.
Qed.

Lemma int_to_double_nonneg (z : Z) : (0 ≤ z)%Z → int_to_double z = to_double z.
Proof. intros Hz. unfold int_to_double. by rewrite (proj2 (Z.ltb_ge z 0)) by lia. Qed.

Lemma int_to_double_signed (z : Z) :
  (- 2 ^ 53 < z < 2 ^ 53)%Z → SFsigned (Prim2SF (int_to_double z)) z.
Proof.
  intros Hz. unfold int_to_double. destruct (Z.ltb_spec z 0) as [Hneg|Hpos].
  - rewrite FloatAxioms.opp_spec.
    pose proof (to_double_integer (- z) ltac:(lia)) as Hx. unfold to_double in Hx.
    destruct (Prim2SF _) as [s|s| |s m e]; try done.
    + destruct Hx as [_ Hx]. lia.
    + destruct Hx as (-> & Hx). split.
      * symmetry. apply Z.ltb_lt. lia.
      * rewrite Z.abs_neq by lia. by split.
  - apply SFsigned_integer. apply (to_double_integer z). lia.
Qed.

Lemma weighted_sum_integer (c e a b : Z) :
  is_uchar c → is_uchar e → (0 ≤ a)%Z → (0 ≤ b)%Z → (a + b < 2 ^ 31)%Z →
  SFinteger (Prim2SF (to_double c * int_to_double a + to_double e * int_to_double b))
            (c * a + e * b).
Proof.
  unfold is_uchar. intros Hc He Ha Hb Hab.
  rewrite !int_to_double_nonneg by done.
  rewrite FloatAxioms.add_spec, !FloatAxioms.mul_spec.
  apply SFinteger_add; [apply SFinteger_mul; [apply to_double_integer..|]
                       |apply SFinteger_mul; [apply to_double_integer..|]|]; nia.
Qed.

Lemma weighted_sum_signed (c e a b : Z) :
  is_uchar c → is_uchar e → is_int a → is_int b →
  SFsigned (Prim2SF (to_double c * int_to_double a + to_double e * int_to_double b))
           (c * a + e * b).
Proof.
  unfold is_uchar, is_int. intros Hc He Ha Hb.
  rewrite FloatAxioms.add_spec, !FloatAxioms.mul_spec.
  apply SFsigned_add; [apply SFsigned_mul; [apply SFsigned_integer, to_double_integer
                                           |apply int_to_double_signed|]
                      |apply SFsigned_mul; [apply SFsigned_integer, to_double_integer
                                           |apply int_to_double_signed|]|]; nia.
Qed.

Lemma updateCentroid_quotient (c e a b : Z) :
  is_uchar c → is_uchar e → (0 ≤ a)%Z → (0 ≤ b)%Z → (0 < a + b < 2 ^ 31)%Z →
  double_to_int ((to_double c * int_to_double a + to_double e * int_to_double b)
                 / int_to_double (int32 (a + b)))
  = Some ((c * a + e * b) / (a + b))%Z.
Proof.
  intros Hc He Ha Hb Hab.
  rewrite int32_small, (int_to_double_nonneg (a + b)) by lia.
  apply double_to_int_div; [by apply weighted_sum_integer; [..|lia]
                           |apply to_double_integer; lia|lia|].
  unfold is_uchar in *. apply Z.div_lt_upper_bound; nia.
Qed.

Lemma updateCentroid_quotient_int (c e a b : Z) :
  is_uchar c → is_uchar e → is_int a → is_int b → (0 < a + b < 2 ^ 31)%Z →
  is_int ((c * a + e * b) ÷ (a + b)) →
  double_to_int ((to_double c * int_to_double a + to_double e * int_to_double b)
                 / int_to_double (int32 (a + b)))
  = Some ((c * a + e * b) ÷ (a + b))%Z.
Proof.
  intros Hc He Ha Hb Hab Hq.
  rewrite int32_small, (int_to_double_nonneg (a + b)) by lia.
  apply double_to_int_quot; [by apply weighted_sum_signed|apply to_double_integer; lia|lia|done].
Qed.

(** ** Comparison of binary64 values *)

(** [<] and [<=] on values that are not NaN form a total preorder; the proofs
    go through the specification of the primitive comparison. *)

Ltac cmp_cases :=
  repeat match goal with
  | |- context [(?x ?= ?y)%Z] => destruct (Z.compare_spec x y)
  | H : context [(?x ?= ?y)%Z] |- _ => destruct (Z.compare_spec x y)
  | |- context [Pos.compare_cont Eq ?x ?y] =>
      change (Pos.compare_cont Eq x y) with (Pos.compare x y);
      destruct (Pos.compare_spec x y)
  | H : context [Pos.compare_cont Eq ?x ?y] |- _ =>
      change (Pos.compare_cont Eq x y) with (Pos.compare x y) in H;
      destruct (Pos.compare_spec x y)
  end.

Ltac sf_cases :=
  simpl; try done;
  repeat match goal with s : bool |- _ => destruct s end; simpl; try done;
  cmp_cases; simpl; try done; try lia.

Lemma SFltb_leb_trans a b c :
  SFltb a b = true → SFleb b c = true → SFltb a c = true.
Proof.
  unfold SFltb, SFleb.
  destruct a as [sa|sa| |sa ma ea], b as [sb|sb| |sb mb eb], c as [sc|sc| |sc mc ec];
    sf_cases.
Qed.

Lemma SFltb_leb a b : SFltb a b = true → SFleb a b = true.
Proof. unfold SFltb, SFleb. by destruct (SFcompare a b) as [[]|]. Qed.

Lemma SFleb_total a b :
  a ≠ S754_nan → b ≠ S754_nan → SFltb b a = false → SFleb a b = true.
Proof.
  unfold SFltb, SFleb.
  destruct a as [sa|sa| |sa ma ea], b as [sb|sb| |sb mb eb]; sf_cases.
Qed.

Lemma SFleb_refl a : a ≠ S754_nan → SFleb a a = true.
Proof. unfold SFleb. destruct a as [sa|sa| |sa ma ea]; sf_cases. Qed.

Lemma is_nan_false x : is_nan x = false → Prim2SF x ≠ S754_nan.
Proof.
  unfold is_nan. rewrite FloatAxioms.eqb_spec. intros Hx Hn.
  rewrite Hn in Hx. discriminate.
Qed.

Lemma fltb_leb_trans (x y z : float) :
  (x <? y)%float = true → (y <=? z)%float = true → (x <? z)%float = true.
Proof. rewrite !FloatAxioms.ltb_spec, FloatAxioms.leb_spec. apply SFltb_leb_trans. Qed.

Lemma fltb_leb (x y : float) : (x <? y)%float = true → (x <=? y)%float = true.
Proof. rewrite FloatAxioms.ltb_spec, FloatAxioms.leb_spec. apply SFltb_leb. Qed.

Lemma fleb_total (x y : float) :
  is_nan x = false → is_nan y = false →
  (y <? x)%float = false → (x <=? y)%float = true.
Proof.
  intros Hx Hy. rewrite FloatAxioms.ltb_spec, FloatAxioms.leb_spec.
  apply SFleb_total; by apply is_nan_false.
Qed.

Lemma fleb_refl (x : float) : is_nan x = false → (x <=? x)%float = true.
Proof. intros Hx. rewrite FloatAxioms.leb_spec. by apply SFleb_refl, is_nan_false. Qed.

Lemma nearestUpto_S row n :
  nearestUpto row (S n) = nearestStep row (nearestUpto row n) (S n).
Proof. unfold nearestUpto. by rewrite seq_S, fold_left_app. Qed.

Lemma nearestUpto_spec row n :
  (∀ j, j ≤ n → is_nan (nth j row nan) = false) →
  let m := nearestUpto row n in
  m ≤ n
  ∧ (∀ j, j ≤ n → (nth m row nan <=? nth j row nan)%float = true)
  ∧ (∀ j, j < m → (nth m row nan <? nth j row nan)%float = true).
Proof.
  induction n as [|n IH]; intros Hnan; cbv zeta.
  - change (nearestUpto row 0) with 0. split; [done|]. split.
    + intros j Hj. assert (j = 0) as -> by lia. apply fleb_refl, Hnan. lia.
    + intros j Hj. lia.
  - destruct IH as (Hm & Hle & Hlt); [intros j Hj; apply Hnan; lia|].
    rewrite nearestUpto_S. unfold nearestStep.
    destruct (nth (S n) row nan <? nth (nearestUpto row n) row nan)%float eqn:Hc.
    + split; [done|]. split.
      * intros j Hj. destruct (decide (j = S n)) as [->|].
        -- apply fleb_refl, Hnan. lia.
        -- apply fltb_leb. eapply fltb_leb_trans; [exact Hc|]. apply Hle. lia.
      * intros j Hj. eapply fltb_leb_trans; [exact Hc|]. apply Hle. lia.
    + split; [lia|]. split.
      * intros j Hj. destruct (decide (j = S n)) as [->|].
        -- apply fleb_total; [apply Hnan; lia|apply Hnan; lia|done].
        -- apply Hle. lia.
      * done.
Qed.

(** ** Centroid update *)

Section Centroid.
Context `{KMeansMPI}.

Lemma length_updateCentroid c cnt e ecnt :
  length (updateCentroid c cnt e ecnt) = d.
Proof. unfold updateCentroid. by rewrite length_map, length_seq. Qed.

Lemma nth_updateCentroid c cnt e ecnt i :
  i < d →
  nth i (updateCentroid c cnt e ecnt) 0%Z
  = uchar (default nan_to_int
             (double_to_int
                ((to_double (nth i c 0%Z) * int_to_double cnt
                  + to_double (nth i e 0%Z) * int_to_double ecnt)
                 / int_to_double (int32 (cnt + ecnt))))).
Proof.
  intros Hi. unfold updateCentroid. cbv zeta.
  set (f := λ i : nat, uchar _).
  rewrite (nth_indep _ 0%Z (f 0)) by (by rewrite length_map, length_seq).
  rewrite (map_nth f). by rewrite seq_nth.
Qed.

Lemma nth_updateCentroid_counts c cnt e ecnt i :
  i < d → is_uchar (nth i c 0%Z) → is_uchar (nth i e 0%Z) →
  (0 ≤ cnt)%Z → (0 ≤ ecnt)%Z → (0 < cnt + ecnt < 2 ^ 31)%Z →
  nth i (updateCentroid c cnt e ecnt) 0%Z
  = ((nth i c 0 * cnt + nth i e 0 * ecnt) / (cnt + ecnt))%Z.
Proof.
  intros Hi Hc He Hcnt Hecnt Hn.
  rewrite nth_updateCentroid, updateCentroid_quotient by done.
  apply Z.mod_small, weighted_mean_range; unfold is_uchar in *; lia.
Qed.

Lemma updateCentroid_bytes (c : Element) (n : Z) (e : Element) (m : Z) :
  Forall is_uchar (updateCentroid c n e m).
Proof.
  unfold updateCentroid. cbv zeta. apply Forall_forall.
  intros x (i & <- & _)%list_elem_of_In%in_map_iff. apply is_uchar_uchar.
Qed.

Lemma is_uchar_updateCentroid c n e m i :
  is_uchar (nth i (updateCentroid c n e m) 0%Z).
Proof.
  destruct (decide (i < d)) as [Hi|Hi].
  - rewrite nth_updateCentroid by done. apply is_uchar_uchar.
  - rewrite nth_overflow by (rewrite length_updateCentroid; lia). unfold is_uchar. lia.
Qed.

End Centroid.

(** ** Assignment *)

Section Assignment.
Context `{KMeansMPI}.

Lemma nearest_lt row : 1 ≤ k → nearest row < k.
Proof.
  intros Hk. change (nearest row) with (nearestUpto row (k - 1)).
  assert (∀ n, nearestUpto row n ≤ n) as Hb.
  { induction n as [|n IH]; [done|]. rewrite nearestUpto_S. unfold nearestStep.
    destruct (_ <? _)%float; lia. }
  specialize (Hb (k - 1)). lia.
Qed.

Lemma nearest_spec row :
  1 ≤ k →
  (∀ j, j < k → is_nan (nth j row nan) = false) →
  let m := nearest row in
  m < k
  ∧ (∀ j, j < k → (nth m row nan <=? nth j row nan)%float = true)
  ∧ (∀ j, j < m → (nth m row nan <? nth j row nan)%float = true).
Proof.
  intros Hk Hnan.
  destruct (nearestUpto_spec row (k - 1)) as (Hm & Hle & Hlt).
  { intros j Hj. apply Hnan. lia. }
  cbv zeta. change (nearest row) with (nearestUpto row (k - 1)).
  split; [lia|]. split; [|done].
  intros j Hj. apply Hle. lia.
Qed.

Lemma nth_updateDistances (p : Proc) (i j : nat) :
  i < maxNum p → j < k →
  nth j (nth i (dist (updateDistances p)) []) nan
  = distance (centroid (nth j (clusters p) noCluster)) (nth i (partition p) []).
Proof.
  intros Hi Hj. unfold updateDistances. cbn [dist].
  rewrite (nth_map_seq _ 0 (maxNum p) i) by done.
  by rewrite (nth_map_seq _ 0 k j) by done.
Qed.

Lemma length_resetClusters : length resetClusters = k.
Proof. unfold resetClusters. by rewrite length_replicate. Qed.

Lemma length_assigned p l cl :
  length (fold_left (assignElement p) l cl) = length cl.
Proof.
  revert cl. induction l as [|i l IH]; intros cl; [done|].
  cbn [fold_left]. rewrite IH. unfold assignElement. by rewrite length_alter.
Qed.

Lemma assigned_wf p l cl :
  Forall (λ c, length (centroid c) = d) cl →
  Forall (λ c, length (centroid c) = d) (fold_left (assignElement p) l cl).
Proof.
  revert cl. induction l as [|i l IH]; intros cl Hcl; [done|].
  cbn [fold_left]. apply IH. unfold assignElement.
  apply Forall_alter; [done|]. intros c _ _. simpl. apply length_updateCentroid.
Qed.

Lemma assigned_elements p m c :
  1 ≤ k → c < k →
  elements (nth c (fold_left (assignElement p) (seq 0 m) resetClusters) noCluster)
  = map Z.of_nat (filter (λ i, nearest (nth i (dist p) []) = c) (seq 0 m)).
Proof.
  intros Hk Hc. induction m as [|m IH].
  - simpl. unfold resetClusters. rewrite nth_lookup, lookup_replicate_2 by done. done.
  - rewrite seq_S, fold_left_app, filter_app, map_app. simpl.
    unfold assignElement at 1.
    destruct (decide (nearest (nth m (dist p) []) = c)) as [Heq|Hne].
    + rewrite Heq, nth_alter_eq
        by (rewrite length_assigned; unfold resetClusters; by rewrite length_replicate).
      simpl. rewrite IH. f_equal.
      rewrite filter_cons_True by done. done.
    + rewrite nth_alter_ne by done. rewrite IH.
      rewrite filter_cons_False by done. simpl. by rewrite app_nil_r.
Qed.

Lemma assigned_untouched p m c cl :
  (∀ i, i < m → nearest (nth i (dist p) []) ≠ c) →
  nth c (fold_left (assignElement p) (seq 0 m) cl) noCluster = nth c cl noCluster.
Proof.
  intros Hne. induction m as [|m IH]; [done|].
  rewrite seq_S, fold_left_app. simpl. unfold assignElement at 1.
  rewrite nth_alter_ne by (apply Hne; lia).
  apply IH. intros i Hi. apply Hne. lia.
Qed.

Lemma concat_elements_alter (f : Cluster → Cluster) (x : Z) (cl : Clusters) (c : nat) :
  c < length cl →
  (∀ y, elements (f y) = elements y ++ [x]) →
  concat (map elements (alter f c cl)) ≡ₚ concat (map elements cl) ++ [x].
Proof.
  revert c. induction cl as [|y cl IH]; intros c Hc Hf; simpl in Hc; [lia|].
  destruct c as [|c].
  - change (alter f 0 (y :: cl)) with (f y :: cl). cbn [map concat].
    rewrite Hf. rewrite <- !app_assoc. apply Permutation_app_head, Permutation_app_comm.
  - change (alter f (S c) (y :: cl)) with (y :: alter f c cl). cbn [map concat].
    rewrite IH by (done || lia). by rewrite app_assoc.
Qed.

Lemma assigned_permutation p m :
  1 ≤ k →
  concat (map elements (fold_left (assignElement p) (seq 0 m) resetClusters))
  ≡ₚ map Z.of_nat (seq 0 m).
Proof.
  intros Hk. induction m as [|m IH].
  - simpl. unfold resetClusters. induction k as [|n IHn] in |- *; [done|]. simpl.
    clear. induction n; [done|]. done.
  - rewrite seq_S, fold_left_app, map_app. simpl. unfold assignElement at 1.
    rewrite concat_elements_alter.
    + by rewrite IH.
    + rewrite length_assigned. unfold resetClusters. rewrite length_replicate.
      by apply nearest_lt.
    + done.
Qed.

Lemma length_assignment p : length (clusters (assignment p)) = k.
Proof.
  unfold assignment, updateClusters, withClusters. cbn [clusters].
  rewrite length_assigned. apply length_resetClusters.
Qed.

Lemma assignment_wf p :
  Forall (λ c, length (centroid c) = d) (clusters (assignment p)).
Proof.
  unfold assignment, updateClusters, withClusters. cbn [clusters]. apply assigned_wf.
  unfold resetClusters. apply Forall_replicate. simpl. by rewrite length_replicate.
Qed.

Lemma assignment_members p :
  1 ≤ k → membersOf (assignment p) ≡ₚ map Z.of_nat (seq 0 (maxNum p)).
Proof.
  intros Hk. unfold membersOf, assignment, updateClusters, withClusters. cbn [clusters].
  by apply (assigned_permutation (savePrev (updateDistances p)) (maxNum p)).
Qed.

Lemma assignment_cluster_of (p : Proc) (i c : nat) :
  1 ≤ k → i < maxNum p → c < k →
  Z.of_nat i ∈ elements (nth c (clusters (assignment p)) noCluster)
  ↔ nearest (nth i (dist (updateDistances p)) []) = c.
Proof.
  intros Hk Hi Hc. unfold assignment, updateClusters, withClusters. cbn [clusters].
  rewrite (assigned_elements (savePrev (updateDistances p)) (maxNum p) c) by done.
  cbn [dist savePrev]. rewrite list_elem_of_fmap. split.
  - intros (i' & Heq & Hin). apply Nat2Z.inj in Heq as <-.
    by apply list_elem_of_filter in Hin as [? _].
  - intros Hn. exists i. split; [done|]. apply list_elem_of_filter. split; [done|].
    apply list_elem_of_In, in_seq. lia.
Qed.

Lemma empty_cluster_reset (p : Proc) (i : nat) :
  i < k →
  elements (nth i (clusters (assignment p)) noCluster) = [] →
  nth i (clusters (assignment p)) noCluster = mkCluster [] (replicate d 0%Z).
Proof.
  intros Hi Hempty.
  assert (∀ i', i' < maxNum p → nearest (nth i' (dist (updateDistances p)) []) ≠ i) as Hne.
  { intros i' Hi' Hn. apply (assignment_cluster_of p i' i) in Hn; [|lia|done|done].
    rewrite Hempty in Hn. by apply elem_of_nil in Hn. }
  unfold assignment, updateClusters, withClusters. cbn [clusters].
  rewrite (assigned_untouched (savePrev (updateDistances p)) (maxNum p) i) by done.
  unfold resetClusters. by rewrite nth_lookup, lookup_replicate_2.
Qed.

End Assignment.

(** ** Partitioning *)

Section Partitioning.
Context `{KMeansMPI}.

Lemma shard_bound (n P : nat) : n / P * (P - 1) ≤ n.
Proof.
  destruct P as [|P]; [simpl; lia|].
  pose proof (Nat.Div0.mul_div_le n (S P)). nia.
Qed.

Lemma shard_end (n P rank : nat) :
  rank < P → rank * (n / P) + shardSize n P rank ≤ n.
Proof.
  intros Hr. unfold shardSize. pose proof (shard_bound n P).
  pose proof (Nat.Div0.mul_div_le n P).
  destruct (decide (rank = P - 1)) as [->|]; [nia|]. nia.
Qed.

Lemma shards_cover (n P : nat) :
  1 ≤ P →
  flat_map (λ z, seq (z * (n / P)) (shardSize n P z)) (seq 0 P) = seq 0 n.
Proof.
  intros HP. destruct P as [|Q]; [lia|].
  assert (∀ m, m ≤ Q →
            flat_map (λ z, seq (z * (n / S Q)) (shardSize n (S Q) z)) (seq 0 m)
            = seq 0 (m * (n / S Q))) as Hpre.
  { induction m as [|m IH]; intros Hm; [done|].
    rewrite seq_S, flat_map_app, IH by lia. simpl flat_map. rewrite app_nil_r.
    unfold shardSize. rewrite decide_False by lia.
    rewrite <- seq_app. f_equal. lia. }
  rewrite seq_S, flat_map_app, Hpre by lia. simpl flat_map. rewrite app_nil_r.
  unfold shardSize. rewrite decide_True by lia.
  rewrite <- seq_app. f_equal. pose proof (shard_bound n (S Q)).
  replace (S Q - 1) with Q in * by lia. lia.
Qed.

Lemma sum_shards_prefix n P z :
  z ≤ P - 1 →
  list_sum (map (λ z', k + shardSize n P z') (seq 0 z)) = z * (n / P + k).
Proof.
  induction z as [|z IH]; intros Hz; [done|].
  rewrite seq_S, map_app, list_sum_app, IH by lia. simpl.
  unfold shardSize. rewrite decide_False by lia. lia.
Qed.

Lemma sum_shards_total n P :
  1 ≤ P → list_sum (map (λ z', k + shardSize n P z') (seq 0 P)) = n + k * P.
Proof.
  intros HP. destruct P as [|Q]; [lia|].
  rewrite seq_S, map_app, list_sum_app, sum_shards_prefix by lia.
  cbn [map list_sum fold_right Nat.add]. unfold shardSize. rewrite decide_True by lia.
  pose proof (shard_bound n (S Q)) as Hb. replace (S Q - 1) with Q in * by lia.
  set (c := n / S Q) in *. nia.
Qed.

Lemma length_colorBlock (colorList : list Element) (i : nat) :
  length (map (λ j, nth j (nth i colorList []) 0%Z) (seq 0 d) ++ [uchar (Z.of_nat i)])
  = d + 1.
Proof. by rewrite length_app, length_map, length_seq. Qed.

Lemma length_marshalColors (colorList : list Element) (n : nat) :
  length (marshalColors colorList n) = n * (d + 1).
Proof.
  unfold marshalColors. apply length_flat_map_block.
  intros a _. apply length_colorBlock.
Qed.

Lemma nth_marshalColors (colorList : list Element) (n a j : nat) :
  a < n → j ≤ d →
  nth (a * (d + 1) + j) (marshalColors colorList n) 0%Z
  = if decide (j < d) then nth j (nth a colorList []) 0%Z else uchar (Z.of_nat a).
Proof.
  intros Ha Hj. unfold marshalColors.
  rewrite (nth_flat_map_block _ (d + 1)); [|intros; apply length_colorBlock|done|lia].
  simpl. destruct (decide (j < d)) as [Hlt|Hge].
  - rewrite app_nth1 by (by rewrite length_map, length_seq).
    by rewrite (nth_map_seq (λ j, nth j (nth a colorList []) 0%Z)).
  - rewrite app_nth2; rewrite length_map, length_seq; [|lia].
    by replace (j - d) with 0 by lia.
Qed.

Lemma nth_scattered (colorList : list Element) (n P rank i j : nat) :
  rank < P → i < shardSize n P rank → j ≤ d →
  nth (i * (d + 1) + j)
      (MPI_Scatterv (marshalColors colorList n)
         (scatterCounts P (n / P) (length (marshalColors colorList n)))
         (scatterDispls P (n / P)) rank) 0%Z
  = nth ((rank * (n / P) + i) * (d + 1) + j) (marshalColors colorList n) 0%Z.
Proof.
  intros Hr Hi Hj. unfold MPI_Scatterv, scatterCounts, scatterDispls.
  rewrite (nth_map_seq _ 0 P rank) by done.
  rewrite (nth_map_seq _ 0 P rank) by done. simpl.
  rewrite length_marshalColors.
  pose proof (shard_bound n P) as Hb.
  rewrite nth_take_drop.
  - f_equal. lia.
  - unfold shardSize in Hi.
    destruct (decide (rank = P - 1)) as [->|].
    + replace (n * (d + 1) - (P - 1) * (n / P) * (d + 1))
        with ((n - n / P * (P - 1)) * (d + 1)) by nia.
      nia.
    + nia.
Qed.

Lemma partitionColors_partition (colorList : list Element)
    (n P rank : nat) (p : Proc) :
  rank < P → length colorList = n →
  Forall (λ e, length e = d) colorList →
  partition (partitionColors colorList n P rank p)
  = take (shardSize n P rank) (drop (rank * (n / P)) colorList).
Proof.
  intros Hr Hn Hd. pose proof (shard_end n P rank Hr) as He.
  rewrite (take_drop_nth_seq _ _ _ []) by lia.
  unfold partitionColors. cbn [partition].
  apply map_ext_in. intros i Hi. apply in_seq in Hi.
  assert (rank * (n / P) + i < n) as Hlt by lia.
  assert (length (nth (rank * (n / P) + i) colorList []) = d) as Hlen.
  { rewrite Forall_forall in Hd. apply Hd. apply list_elem_of_In, nth_In. lia. }
  trans (map (λ j, nth j (nth (rank * (n / P) + i) colorList []) 0%Z) (seq 0 d)).
  - apply map_ext_in. intros j Hj. apply in_seq in Hj.
    rewrite nth_scattered by lia.
    rewrite nth_marshalColors by lia. by rewrite decide_True by lia.
  - rewrite <- Hlen at 1. apply map_nth_seq.
Qed.

Lemma partitionColors_colorIds (colorList : list Element)
    (n P rank : nat) (p : Proc) :
  rank < P →
  colorIds (partitionColors colorList n P rank p)
  = map (λ i, uchar (Z.of_nat (rank * (n / P) + i))) (seq 0 (shardSize n P rank)).
Proof.
  intros Hr. pose proof (shard_end n P rank Hr) as He.
  unfold partitionColors. cbn [colorIds].
  apply map_ext_in. intros i Hi. apply in_seq in Hi.
  rewrite nth_scattered by lia.
  rewrite nth_marshalColors by lia. by rewrite decide_False by lia.
Qed.

End Partitioning.

(** ** Aggregation *)

Section Aggregation.
Context `{KMeansMPI}.

Lemma mergeReport_rank_prefix recvbuf z cl sizes n :
  fold_left (mergeReport recvbuf) (seq 0 n) (mkMerge cl sizes (z * k * (d + 1)))
  = mkMerge
      (imap (λ i c, if decide (i < n)
                    then mkCluster (elements c)
                           (updateCentroid (centroid c) (nth i sizes 0%Z)
                              (reportCentroid recvbuf z i) (reportSize recvbuf z i))
                    else c) cl)
      (imap (λ i s, if decide (i < n) then (s + reportSize recvbuf z i)%Z else s) sizes)
      (z * k * (d + 1) + n * (d + 1)).
Proof.
  set (gC := λ i c, mkCluster (elements c)
                      (updateCentroid (centroid c) (nth i sizes 0%Z)
                         (reportCentroid recvbuf z i) (reportSize recvbuf z i))).
  set (gS := λ i s, (s + reportSize recvbuf z i)%Z).
  induction n as [|n IH].
  - simpl. rewrite (imap_prefix_0 gC), (imap_prefix_0 gS). by rewrite Nat.add_0_r.
  - rewrite seq_S, fold_left_app, IH. cbn [fold_left Nat.add].
    unfold mergeReport. cbn [mClusters clusterSizes mIndex].
    rewrite (nth_imap_prefix_ge gS) by done.
    replace (z * k * (d + 1) + n * (d + 1) + d) with ((z * k + n) * (d + 1) + d) by lia.
    fold (reportSize recvbuf z n).
    replace (map (λ j, nth (z * k * (d + 1) + n * (d + 1) + j) recvbuf 0%Z) (seq 0 d))
      with (reportCentroid recvbuf z n)
      by (unfold reportCentroid; apply map_ext; intros j; f_equal; lia).
    f_equal.
    + apply (alter_imap_prefix gC).
    + apply (alter_imap_prefix gS).
    + lia.
Qed.

Lemma mergeReport_rank recvbuf z cl sizes :
  length cl = k → length sizes = k →
  fold_left (mergeReport recvbuf) (seq 0 k) (mkMerge cl sizes (z * k * (d + 1)))
  = mkMerge
      (imap (λ i c, mkCluster (elements c)
                      (updateCentroid (centroid c) (nth i sizes 0%Z)
                         (reportCentroid recvbuf z i) (reportSize recvbuf z i))) cl)
      (imap (λ i s, (s + reportSize recvbuf z i)%Z) sizes)
      (S z * k * (d + 1)).
Proof.
  intros Hcl Hsz. rewrite mergeReport_rank_prefix.
  rewrite (imap_prefix_all (λ i c, mkCluster (elements c)
                      (updateCentroid (centroid c) (nth i sizes 0%Z)
                         (reportCentroid recvbuf z i) (reportSize recvbuf z i)))) by lia.
  rewrite (imap_prefix_all (λ i s, (s + reportSize recvbuf z i)%Z)) by lia.
  f_equal. lia.
Qed.

Lemma mergedUpTo_S recvbuf z i c :
  mergedUpTo recvbuf (S z) i c = mergeRank recvbuf i (mergedUpTo recvbuf z i c) z.
Proof. unfold mergedUpTo. by rewrite seq_S, fold_left_app. Qed.

Lemma mergeClusters_fold recvbuf cl P :
  length cl = k →
  fold_left (λ m (z : nat), fold_left (mergeReport recvbuf) (seq 0 k) m) (seq 0 P)
            (mkMerge cl (map (λ c, Z.of_nat (length (elements c))) cl) 0)
  = mkMerge (imap (λ i c, mkCluster (elements c) (mergedUpTo recvbuf P i c).1) cl)
            (imap (λ i c, (mergedUpTo recvbuf P i c).2) cl)
            (P * k * (d + 1)).
Proof.
  intros Hcl. induction P as [|P IH].
  - simpl. f_equal.
    + apply list_eq. intros i. rewrite list_lookup_imap.
      destruct (cl !! i) as [[]|]; done.
    + apply list_eq. intros i. rewrite list_lookup_imap, list_lookup_fmap.
      destruct (cl !! i) as [[]|]; done.
  - rewrite seq_S, fold_left_app, IH. cbn [fold_left Nat.add].
    rewrite mergeReport_rank by (by rewrite length_imap).
    f_equal.
    + apply list_eq. intros i. rewrite !list_lookup_imap.
      destruct (cl !! i) as [c|] eqn:Hi; [|done]. cbn [fmap option_fmap option_map].
      f_equal. cbn [elements centroid]. f_equal.
      rewrite mergedUpTo_S. unfold mergeRank at 1. cbn [fst].
      f_equal. rewrite nth_lookup, list_lookup_imap, Hi. done.
    + apply list_eq. intros i. rewrite !list_lookup_imap.
      destruct (cl !! i) as [c|] eqn:Hi; [|done]. cbn [fmap option_fmap option_map].
      f_equal. rewrite mergedUpTo_S. done.
Qed.

Lemma mergeClusters_rank_order P recvbuf cl :
  length cl = k → mergeClusters P recvbuf cl = mergedInRankOrder P recvbuf cl.
Proof. intros Hcl. unfold mergeClusters. by rewrite mergeClusters_fold. Qed.

Lemma mergedUpTo_ext recvbuf P i (c c' : Cluster) :
  centroid c' = centroid c → length (elements c') = length (elements c) →
  mergedUpTo recvbuf P i c' = mergedUpTo recvbuf P i c.
Proof. intros Hc Hl. unfold mergedUpTo. by rewrite Hc, Hl. Qed.

Lemma mergedInRankOrder_elements P recvbuf cl :
  map elements (mergedInRankOrder P recvbuf cl) = map elements cl.
Proof.
  apply list_eq. intros i. unfold mergedInRankOrder.
  rewrite !list_lookup_fmap, list_lookup_imap. by destruct (cl !! i).
Qed.

Lemma length_mergedUpTo recvbuf P i c :
  length (centroid c) = d → length (mergedUpTo recvbuf P i c).1 = d.
Proof.
  intros Hc. destruct P as [|P]; [done|].
  rewrite mergedUpTo_S. apply length_updateCentroid.
Qed.

Lemma mergedInRankOrder_wf P recvbuf cl :
  Forall (λ c, length (centroid c) = d) cl →
  Forall (λ c, length (centroid c) = d) (mergedInRankOrder P recvbuf cl).
Proof.
  intros Hd. apply Forall_forall. intros c Hc.
  apply list_elem_of_lookup in Hc as [i Hi].
  unfold mergedInRankOrder in Hi. rewrite list_lookup_imap in Hi.
  destruct (cl !! i) as [c0|] eqn:Hc0; [|done]. simpl in Hi.
  injection Hi as <-. simpl. apply length_mergedUpTo.
  rewrite Forall_forall in Hd. apply Hd. by eapply list_elem_of_lookup_2.
Qed.

Lemma length_clusterBlock (cl : Clusters) (i : nat) :
  length (map (λ j, nth j (centroid (nth i cl noCluster)) 0%Z) (seq 0 d)
          ++ [uchar (Z.of_nat (length (elements (nth i cl noCluster))))])
  = d + 1.
Proof. by rewrite length_app, length_map, length_seq. Qed.

Lemma length_serializeClusters (cl : Clusters) :
  length (serializeClusters cl) = k * (d + 1).
Proof.
  unfold serializeClusters. apply length_flat_map_block.
  intros a _. apply length_clusterBlock.
Qed.

Lemma nth_serializeClusters_size (cl : Clusters) (i : nat) :
  i < k →
  nth (i * (d + 1) + d) (serializeClusters cl) 0%Z
  = uchar (Z.of_nat (length (elements (nth i cl noCluster)))).
Proof.
  intros Hi. unfold serializeClusters.
  rewrite (nth_flat_map_block _ (d + 1)); [|intros; apply length_clusterBlock|done|lia].
  simpl. rewrite app_nth2; rewrite length_map, length_seq; [|lia].
  by rewrite Nat.sub_diag.
Qed.

Lemma nth_serializeClusters_channel (cl : Clusters) (i j : nat) :
  i < k → j < d →
  nth (i * (d + 1) + j) (serializeClusters cl) 0%Z = nth j (centroid (nth i cl noCluster)) 0%Z.
Proof.
  intros Hi Hj. unfold serializeClusters.
  rewrite (nth_flat_map_block _ (d + 1)); [|intros; apply length_clusterBlock|done|lia].
  simpl. rewrite app_nth1 by (by rewrite length_map, length_seq).
  by rewrite (nth_map_seq (λ j, nth j (centroid (nth i cl noCluster)) 0%Z)).
Qed.

Lemma nth_gathered (ps : list Proc) (z r : nat) (p : Proc) :
  ps !! z = Some p → r < k * (d + 1) →
  nth (z * (k * (d + 1)) + r)
      (MPI_Gather (k * (d + 1)) (map (λ p, serializeClusters (clusters p)) ps)) 0%Z
  = nth r (serializeClusters (clusters p)) 0%Z.
Proof.
  intros Hz Hr. unfold MPI_Gather. rewrite flat_map_map.
  rewrite (flat_map_ext _ (λ p, serializeClusters (clusters p)))
    by (intros q; apply take_ge; by rewrite length_serializeClusters).
  set (dflt := mkProc [] [] 0 [] [] []).
  rewrite <- (map_nth_seq ps dflt), flat_map_map.
  rewrite (nth_flat_map_block _ (k * (d + 1)));
    [|intros; apply length_serializeClusters|by eapply lookup_lt_Some|done].
  simpl. by rewrite (nth_lookup ps), Hz.
Qed.

Lemma reportSize_gathered (ps : list Proc) (z i : nat) (p : Proc) :
  ps !! z = Some p → i < k →
  reportSize (MPI_Gather (k * (d + 1)) (map (λ p, serializeClusters (clusters p)) ps)) z i
  = uchar (Z.of_nat (length (elements (nth i (clusters p) noCluster)))).
Proof.
  intros Hz Hi. unfold reportSize.
  replace ((z * k + i) * (d + 1) + d) with (z * (k * (d + 1)) + (i * (d + 1) + d)) by lia.
  rewrite (nth_gathered ps z _ p) by (done || nia).
  by apply nth_serializeClusters_size.
Qed.

Lemma reportCentroid_gathered (ps : list Proc) (z i : nat) (p : Proc) :
  ps !! z = Some p → i < k →
  length (centroid (nth i (clusters p) noCluster)) = d →
  reportCentroid (MPI_Gather (k * (d + 1)) (map (λ p, serializeClusters (clusters p)) ps)) z i
  = centroid (nth i (clusters p) noCluster).
Proof.
  intros Hz Hi Hlen. unfold reportCentroid.
  trans (map (λ j, nth j (centroid (nth i (clusters p) noCluster)) 0%Z) (seq 0 d));
    [|rewrite <- Hlen at 1; apply map_nth_seq].
  apply map_ext_in. intros j Hj%in_seq.
  replace ((z * k + i) * (d + 1) + j) with (z * (k * (d + 1)) + (i * (d + 1) + j)) by lia.
  rewrite (nth_gathered ps z _ p) by (done || nia).
  apply nth_serializeClusters_channel; lia.
Qed.

Lemma combineClusters_cons r os :
  combineClusters (r :: os)
  = withClusters r
      (mergeClusters (S (length os))
         (MPI_Gather (k * (d + 1)) (map (λ p, serializeClusters (clusters p)) (r :: os)))
         (clusters r))
    :: os.
Proof.
  unfold combineClusters.
  rewrite (imap_root (λ p, withClusters p _) id).
  by rewrite map_id.
Qed.

End Aggregation.

(** ** Centroid broadcast *)

Section Broadcast.
Context `{KMeansMPI}.

Lemma nth_serializeCentroids cl i j :
  i < k → j < d →
  nth (i * d + j) (serializeCentroids cl) 0%Z = nth j (centroid (nth i cl noCluster)) 0%Z.
Proof.
  intros Hi Hj. unfold serializeCentroids.
  rewrite (nth_flat_map_block _ d); [|intros; by rewrite length_map, length_seq|done|done].
  simpl. by rewrite (nth_map_seq (λ j, nth j (centroid (nth i cl noCluster)) 0%Z)).
Qed.

Lemma receiveCentroids_centroids root cl :
  length root = k → length cl = k →
  Forall (λ c, length (centroid c) = d) root →
  map centroid (receiveCentroids (serializeCentroids root) cl) = map centroid root.
Proof.
  intros Hr Hc Hd. apply list_eq. intros i.
  unfold receiveCentroids. rewrite !list_lookup_fmap, list_lookup_imap.
  destruct (decide (i < k)) as [Hi|Hi].
  - destruct (lookup_lt_is_Some_2 cl i) as [c Hci]; [lia|].
    destruct (lookup_lt_is_Some_2 root i) as [r Hri]; [lia|].
    rewrite Hci, Hri. simpl. f_equal.
    assert (length (centroid r) = d) as Hlen.
    { rewrite Forall_forall in Hd. apply Hd. by eapply list_elem_of_lookup_2. }
    trans (map (λ j, nth j (centroid r) 0%Z) (seq 0 d));
      [|rewrite <- Hlen at 1; apply map_nth_seq].
    apply map_ext_in. intros j Hj. apply in_seq in Hj.
    rewrite nth_serializeCentroids by lia.
    by rewrite (nth_lookup root), Hri.
  - rewrite !lookup_ge_None_2 by lia. done.
Qed.

Lemma receiveCentroids_elements buffer cl :
  map elements (receiveCentroids buffer cl) = map elements cl.
Proof.
  apply list_eq. intros i. unfold receiveCentroids.
  rewrite !list_lookup_fmap, list_lookup_imap. by destruct (cl !! i).
Qed.

Lemma distributeCentroids_cons r os :
  distributeCentroids (r :: os)
  = r :: map (λ p, withClusters p
                     (receiveCentroids (serializeCentroids (clusters r)) (clusters p))) os.
Proof.
  unfold distributeCentroids.
  by rewrite (imap_root id (λ p, withClusters p _)).
Qed.

End Broadcast.

(** ** Generations *)

(** The ranks stay in lock-step: they hold the same centroids after every
    broadcast, so they leave the loop together. *)

Section Generations.
Context `{KMeansMPI}.

Lemma clusters_eqb_centroids (a b : Clusters) :
  clusters_eqb a b = bool_decide (map centroid a = map centroid b).
Proof.
  revert b. induction a as [|x a IH]; intros [|y b]; simpl; try done.
  rewrite IH. unfold cluster_eqb.
  destruct (decide (centroid x = centroid y)) as [Hxy|Hxy].
  - rewrite (bool_decide_eq_true_2 _ Hxy). simpl.
    apply bool_decide_ext. split; [by intros ->; rewrite Hxy|by intros [= _ ->]].
  - rewrite (bool_decide_eq_false_2 _ Hxy). simpl. symmetry.
    apply bool_decide_eq_false_2. by intros [= ? _].
Qed.

Lemma agreeing_stable r os :
  agreeing (r :: os) →
  forallb stable (r :: os) = stable r ∧ existsb stable (r :: os) = stable r.
Proof.
  intros (cs & pv & _ & _ & Hall).
  assert (Forall (λ p, stable p = bool_decide (pv = cs)) (r :: os)) as Hst.
  { eapply Forall_impl; [exact Hall|]. intros p [Hc Hp].
    unfold stable. by rewrite clusters_eqb_centroids, Hc, Hp. }
  apply Forall_cons in Hst as [Hr Hos]. cbn [forallb existsb]. rewrite Hr.
  destruct (bool_decide (pv = cs)).
  - by rewrite forallb_all_true.
  - by rewrite existsb_all_false.
Qed.

Lemma generationBody_cons r os :
  ∃ cl,
    length cl = k ∧ Forall (λ c, length (centroid c) = d) cl
    ∧ map elements cl = map elements (clusters (assignment r))
    ∧ generationBody (r :: os)
      = withClusters (assignment r) cl
        :: map (λ p, withClusters (assignment p)
                       (receiveCentroids (serializeCentroids cl) (clusters (assignment p))))
               os.
Proof.
  unfold generationBody. cbn [map]. rewrite combineClusters_cons.
  rewrite distributeCentroids_cons.
  rewrite mergeClusters_rank_order by apply length_assignment.
  rewrite map_map. cbn [clusters withClusters].
  eexists. split; [|split; [|split; [|reflexivity]]].
  - unfold mergedInRankOrder. rewrite length_imap. apply length_assignment.
  - apply mergedInRankOrder_wf, assignment_wf.
  - apply mergedInRankOrder_elements.
Qed.

Lemma prev_generationBody ps :
  map prev (generationBody ps) = map clusters ps.
Proof.
  destruct ps as [|r os]; [done|].
  destruct (generationBody_cons r os) as (cl & _ & _ & _ & ->).
  cbn [map]. f_equal. rewrite map_map. by apply map_ext.
Qed.

Lemma generationBody_agreeing ps :
  agreeing ps → agreeing (generationBody ps).
Proof.
  intros (cs & pv & Hk & Hd & Hall).
  destruct ps as [|r os].
  { exists cs, pv. by repeat split. }
  destruct (generationBody_cons r os) as (cl & Hlen & Hwf & _ & ->).
  exists (map centroid cl), cs. split; [by rewrite length_map|]. split.
  { by apply Forall_fmap. }
  apply Forall_cons in Hall as [[Hr _] Hos].
  constructor.
  - by split.
  - apply Forall_fmap. eapply Forall_impl; [exact Hos|]. intros p [Hp _]. simpl. split.
    + apply receiveCentroids_centroids; [done|apply length_assignment|done].
    + done.
Qed.

Lemma generationBody_nonempty ps : ps ≠ [] → generationBody ps ≠ [].
Proof.
  destruct ps as [|r os]; [done|]. intros _.
  by destruct (generationBody_cons r os) as (cl & _ & _ & _ & ->).
Qed.

Lemma iter_agreeing ps j :
  agreeing ps → ps ≠ [] →
  agreeing (Nat.iter j generationBody ps) ∧ Nat.iter j generationBody ps ≠ [].
Proof.
  intros Ha Hn. induction j as [|j [IH1 IH2]]; [done|]. simpl. split.
  - by apply generationBody_agreeing.
  - by apply generationBody_nonempty.
Qed.

Lemma iter_generationBody_S (j : nat) (ps : list Proc) :
  Nat.iter (S j) generationBody ps = generationBody (Nat.iter j generationBody ps).
Proof. reflexivity. Qed.

Lemma generations_run fuel generation ps :
  agreeing ps → ps ≠ [] →
  ∃ j, j ≤ fuel
    ∧ generations fuel generation ps
      = Finished (generation + j) (Nat.iter j generationBody ps)
    ∧ (∀ j', j' < j → forallb stable (Nat.iter j' generationBody ps) = false)
    ∧ (j < fuel → forallb stable (Nat.iter j generationBody ps) = true).
Proof.
  revert generation ps. induction fuel as [|fuel IH]; intros generation ps Ha Hn.
  - exists 0. simpl. rewrite Nat.add_0_r. repeat split; [done|lia|lia].
  - simpl. destruct (forallb stable ps) eqn:Hst.
    + exists 0. simpl. rewrite Nat.add_0_r. repeat split; [lia|lia|done].
    + destruct ps as [|r os]; [done|].
      destruct (agreeing_stable r os Ha) as [Hf He].
      rewrite He, <- Hf, Hst.
      destruct (IH (S generation) (generationBody (r :: os))) as (j & Hj & Hrun & Hbefore & Hat).
      { by apply generationBody_agreeing. }
      { by apply generationBody_nonempty. }
      exists (S j). rewrite Nat.iter_succ_r. split; [lia|]. split.
      { rewrite Hrun. f_equal. lia. }
      split.
      * intros [|j'] Hj'; [done|]. rewrite Nat.iter_succ_r. apply Hbefore. lia.
      * intros Hlt. apply Hat. lia.
Qed.

Lemma fitStart_cons colorList n Q sel :
  fitStart colorList n (S Q) sel
  = startPrev (withClusters (partitionColors colorList n (S Q) 0 newProc)
                            (selectedClusters colorList sel))
    :: map (λ rank,
              startPrev
                (withClusters (partitionColors colorList n (S Q) rank newProc)
                   (receiveCentroids
                      (serializeCentroids (selectedClusters colorList sel))
                      resetClusters)))
           (seq 1 Q).
Proof.
  unfold fitStart. cbn [seq map].
  rewrite (imap_root (selectClusters colorList sel) (λ p, p)), map_id.
  rewrite distributeCentroids_cons. cbn [map]. f_equal.
  rewrite !map_map. apply map_ext. intros rank. done.
Qed.

Lemma selectedClusters_wf (colorList : list Element) n sel :
  length colorList = n → Forall (λ e, length e = d) colorList →
  length sel = k → Forall (λ s, s < n) sel →
  length (selectedClusters colorList sel) = k
  ∧ Forall (λ c, length (centroid c) = d) (selectedClusters colorList sel).
Proof.
  intros Hn Hd Hs Hlt. unfold selectedClusters. split.
  - by rewrite length_map, length_seq.
  - apply Forall_forall. intros c Hc. apply list_elem_of_In, in_map_iff in Hc as (i & <- & Hi).
    apply in_seq in Hi. simpl.
    rewrite Forall_forall in Hd. apply Hd. apply list_elem_of_In, nth_In.
    rewrite Forall_forall in Hlt. rewrite Hn. apply Hlt. apply list_elem_of_In, nth_In. lia.
Qed.

Lemma startPrev_prev (p : Proc) :
  map centroid (prev (startPrev p))
  = alter (alter (λ x, uchar (x + 1)) 0) 0 (map centroid (clusters p)).
Proof.
  unfold startPrev. cbn [prev]. apply (list_fmap_alter centroid).
  apply Forall_forall. by intros c _.
Qed.

Lemma fitStart_agreeing colorList n P sel :
  1 ≤ P → length colorList = n → Forall (λ e, length e = d) colorList →
  length sel = k → Forall (λ s, s < n) sel →
  agreeing (fitStart colorList n P sel) ∧ fitStart colorList n P sel ≠ [].
Proof.
  intros HP Hn Hd Hs Hlt.
  destruct (selectedClusters_wf colorList n sel Hn Hd Hs Hlt) as [Hlen Hwf].
  destruct P as [|Q]; [lia|].
  rewrite fitStart_cons. split; [|done].
  exists (map centroid (selectedClusters colorList sel)),
    (alter (alter (λ x, uchar (x + 1)) 0) 0 (map centroid (selectedClusters colorList sel))).
  split; [by rewrite length_map|]. split; [by apply Forall_fmap|].
  constructor.
  - cbv beta. split; [done|]. rewrite startPrev_prev. reflexivity.
  - apply Forall_fmap, Forall_forall. intros rank _. cbv beta. unfold compose.
    assert (map centroid (receiveCentroids (serializeCentroids (selectedClusters colorList sel))
                            resetClusters)
            = map centroid (selectedClusters colorList sel)) as Heq.
    { apply receiveCentroids_centroids; [done|apply length_resetClusters|done]. }
    split; [done|]. rewrite startPrev_prev. cbn [clusters withClusters]. by rewrite Heq.
Qed.

Lemma fitStart_unstable colorList n P sel :
  1 ≤ P → 1 ≤ k → 1 ≤ d →
  length colorList = n → Forall (λ e, length e = d) colorList →
  length sel = k → Forall (λ s, s < n) sel →
  forallb stable (fitStart colorList n P sel) = false.
Proof.
  intros HP Hk Hd1 Hn Hd Hs Hlt.
  destruct (selectedClusters_wf colorList n sel Hn Hd Hs Hlt) as [Hlen Hwf].
  destruct P as [|Q]; [lia|].
  rewrite fitStart_cons. cbn [forallb].
  apply andb_false_intro1. unfold stable.
  rewrite clusters_eqb_centroids, startPrev_prev. apply bool_decide_eq_false_2.
  cbn [clusters startPrev withClusters].
  destruct (selectedClusters colorList sel) as [|c cl]; [simpl in Hlen; lia|].
  apply Forall_cons in Hwf as [Hc _].
  destruct (centroid c) as [|x e] eqn:Hce; [simpl in Hc; lia|].
  cbn. rewrite Hce. cbn. intros [= Hx]. by apply uchar_succ_ne in Hx.
Qed.

Lemma shard_generationBody ps : map shard (generationBody ps) = map shard ps.
Proof.
  destruct ps as [|r os]; [done|].
  destruct (generationBody_cons r os) as (cl & _ & _ & _ & ->).
  cbn [map]. f_equal. rewrite map_map. by apply map_ext.
Qed.

Lemma shard_iter ps j :
  map shard (Nat.iter j generationBody ps) = map shard ps.
Proof. induction j as [|j IH]; [done|]. simpl. by rewrite shard_generationBody. Qed.

Lemma shard_fitStart colorList n P sel :
  map shard (fitStart colorList n P sel)
  = map (λ rank, shard (partitionColors colorList n P rank newProc)) (seq 0 P).
Proof.
  destruct P as [|Q]; [done|]. rewrite fitStart_cons. cbn [seq map]. f_equal.
  by rewrite map_map.
Qed.

Lemma fitStart_sharded colorList n P sel j :
  sharded colorList n P (Nat.iter j generationBody (fitStart colorList n P sel)).
Proof. unfold sharded. by rewrite shard_iter, shard_fitStart. Qed.

Lemma sharded_length colorList n P ps : sharded colorList n P ps → length ps = P.
Proof.
  intros Hs. apply (f_equal length) in Hs. by rewrite !length_map, length_seq in Hs.
Qed.

Lemma sharded_lookup colorList n P ps z p :
  sharded colorList n P ps → ps !! z = Some p →
  z < P
  ∧ maxNum p = shardSize n P z
  ∧ colorIds p = map (λ i, uchar (Z.of_nat (z * (n / P) + i))) (seq 0 (shardSize n P z)).
Proof.
  intros Hs Hz. pose proof (sharded_length _ _ _ _ Hs) as Hlen.
  assert (z < P) as HzP by (rewrite <- Hlen; by eapply lookup_lt_Some).
  apply (f_equal (λ l, l !! z)) in Hs.
  rewrite !list_lookup_fmap, Hz, lookup_seq_lt in Hs by done. simpl in Hs.
  injection Hs as Hpart Hids Hmax.
  split; [done|]. split; [done|]. rewrite Hids.
  by apply (partitionColors_colorIds colorList n P z newProc).
Qed.

Lemma sharded_members_length colorList n P ps z p :
  sharded colorList n P ps → ps !! z = Some p →
  membersOf p ≡ₚ map Z.of_nat (seq 0 (maxNum p)) →
  length (membersOf p) = shardSize n P z.
Proof.
  intros Hs Hz Hp. destruct (sharded_lookup _ _ _ _ _ _ Hs Hz) as (_ & Hmax & _).
  apply Permutation_length in Hp. by rewrite Hp, length_map, length_seq.
Qed.

Lemma generationBody_members ps :
  1 ≤ k →
  Forall (λ q, length (clusters q) = k
               ∧ membersOf q ≡ₚ map Z.of_nat (seq 0 (maxNum q)))
         (generationBody ps).
Proof.
  intros Hk. destruct ps as [|r os]; [by constructor|].
  destruct (generationBody_cons r os) as (cl & Hlen & _ & Hel & ->).
  constructor.
  - split; [done|]. unfold membersOf. cbn [clusters withClusters maxNum].
    rewrite Hel. change (maxNum (assignment r)) with (maxNum r).
    by apply assignment_members.
  - apply Forall_fmap, Forall_forall. intros p _. simpl. split.
    + unfold receiveCentroids. rewrite length_imap. apply length_assignment.
    + unfold membersOf. cbn [clusters withClusters maxNum].
      rewrite receiveCentroids_elements. change (maxNum (assignment p)) with (maxNum p).
      by apply assignment_members.
Qed.

End Generations.

(** ** Result collection *)

Section Collection.
Context `{KMeansMPI}.

Lemma collectSegment_centroids recvbuf l c :
  map centroid (cClusters (fold_left (collectSegment recvbuf) l c))
  = map centroid (cClusters c).
Proof.
  revert c. induction l as [|i l IH]; intros c; [done|].
  cbn [fold_left]. rewrite IH. unfold collectSegment. cbn [cClusters].
  rewrite (list_fmap_alter centroid _ id).
  - apply list_alter_id. done.
  - apply Forall_forall. by intros x _.
Qed.

Lemma deserializeAssignments_centroids P recvbuf cl :
  map centroid (deserializeAssignments P recvbuf cl) = map centroid cl.
Proof.
  unfold deserializeAssignments.
  assert (∀ l c, map centroid (cClusters
            (fold_left (λ c (z : nat), fold_left (collectSegment recvbuf) (seq 0 k) c) l c))
          = map centroid (cClusters c)) as Hfold.
  { induction l as [|z l IH]; intros c; [done|].
    cbn [fold_left]. by rewrite IH, collectSegment_centroids. }
  rewrite Hfold. cbn [cClusters]. rewrite map_map. done.
Qed.

Lemma collectClusterAssignments_cons n r os :
  collectClusterAssignments n (r :: os)
  = withClusters r
      (deserializeAssignments (S (length os))
         (MPI_Gatherv (n + k * S (length os)) (map serializeAssignments (r :: os))
            (gatherCounts n (S (length os))) (gatherDispls n (S (length os))))
         (clusters r))
    :: os.
Proof.
  unfold collectClusterAssignments.
  rewrite (imap_root (λ p, withClusters p _) (λ p, p)). by rewrite map_id.
Qed.

Lemma collectClusterAssignments_stable n ps :
  forallb stable (collectClusterAssignments n ps) = forallb stable ps.
Proof.
  destruct ps as [|r os]; [done|].
  rewrite collectClusterAssignments_cons. cbn [forallb]. f_equal.
  unfold stable. rewrite !clusters_eqb_centroids. cbn [prev clusters withClusters].
  by rewrite deserializeAssignments_centroids.
Qed.

Lemma MPI_Gatherv_concat (size : nat) (sendbufs : list (list Z)) (recvcounts displs : list nat) :
  (∀ z, z < length sendbufs →
        nth z recvcounts 0 = length (nth z sendbufs [])
        ∧ nth z displs 0 = length (concat (take z sendbufs))) →
  size = length (concat sendbufs) →
  MPI_Gatherv size sendbufs recvcounts displs = concat sendbufs.
Proof.
  intros Hz Hsize. unfold MPI_Gatherv.
  assert (∀ m, m ≤ length sendbufs →
            fold_left
              (λ recvbuf z,
                 list_inserts (nth z displs 0)
                   (take (nth z recvcounts 0) (nth z sendbufs [])) recvbuf)
              (seq 0 m) (replicate size 0%Z)
            = concat (take m sendbufs)
              ++ replicate (size - length (concat (take m sendbufs))) 0%Z) as Hpre.
  { induction m as [|m IH]; intros Hm.
    - simpl. by rewrite Nat.sub_0_r.
    - rewrite seq_S, fold_left_app, IH by lia. cbn [fold_left Nat.add].
      destruct (Hz m) as [Hc Hd]; [lia|].
      rewrite Hc, Hd, (take_ge (nth m sendbufs [])) by lia.
      destruct (lookup_lt_is_Some_2 sendbufs m) as [b Hb]; [lia|].
      rewrite (take_S_r _ _ _ Hb), concat_app. simpl. rewrite app_nil_r.
      rewrite (nth_lookup sendbufs), Hb. simpl.
      rewrite <- (Nat.add_0_r (length (concat (take m sendbufs)))) at 1.
      rewrite list_inserts_app_r, <- app_assoc. f_equal.
      assert (length (concat (take m sendbufs)) + length b ≤ size) as Hle.
      { rewrite Hsize. by apply length_concat_take_le. }
      replace (size - length (concat (take m sendbufs)))
        with (length b + (size - length (concat (take m sendbufs) ++ b)))
        by (rewrite length_app; lia).
      rewrite replicate_add, list_inserts_0_r by (by rewrite length_replicate). done. }
  rewrite Hpre by done. rewrite take_ge by done.
  rewrite Hsize, Nat.sub_diag. simpl. by rewrite app_nil_r.
Qed.

Lemma collectSegment_segments (segs : list (nat * list Z)) (pre post : list Z) (cl : Clusters) :
  fold_left (collectSegment (pre ++ flat_map (λ s, encodeSegment s.2) segs ++ post))
            (map fst segs) (mkCollect cl (length pre))
  = mkCollect (fold_left appendSegment segs cl)
              (length pre + length (flat_map (λ s, encodeSegment s.2) segs)).
Proof.
  revert pre cl. induction segs as [|[i ids] segs IH]; intros pre cl.
  - simpl. by rewrite Nat.add_0_r.
  - cbn [map fst fold_left flat_map snd].
    set (recvbuf := pre ++ (encodeSegment ids ++ _) ++ post).
    assert (recvbuf = (pre ++ encodeSegment ids)
                      ++ flat_map (λ s, encodeSegment s.2) segs ++ post) as Hbuf.
    { unfold recvbuf. by rewrite <- !app_assoc. }
    assert (collectSegment recvbuf (mkCollect cl (length pre)) i
            = mkCollect (appendSegment cl (i, ids)) (length (pre ++ encodeSegment ids)))
      as Hstep.
    { unfold collectSegment. cbn [bufferIndex cClusters].
      assert (∀ j, j < length (encodeSegment ids) →
                nth (length pre + j) recvbuf 0%Z = nth j (encodeSegment ids) 0%Z) as Hnth.
      { intros j Hj. unfold recvbuf. rewrite <- app_assoc. by apply nth_middle_app. }
      assert (nth (length pre) recvbuf 0%Z = Z.of_nat (length ids)) as Hsz.
      { rewrite <- (Nat.add_0_r (length pre)). by rewrite Hnth by (simpl; lia). }
      rewrite Hsz, Nat2Z.id. f_equal.
      - unfold appendSegment. cbn [fst snd].
        replace (map (λ e, nth (length pre + 1 + e) recvbuf 0%Z) (seq 0 (length ids)))
          with ids; [done|].
        rewrite <- (map_nth_seq ids 0%Z) at 1.
        apply map_ext_in. intros e He. apply in_seq in He.
        replace (length pre + 1 + e) with (length pre + S e) by lia.
        rewrite Hnth by (simpl; lia). done.
      - rewrite length_app. simpl. lia. }
    rewrite Hstep, Hbuf, IH. f_equal. rewrite !length_app. lia.
Qed.

Lemma serializeAssignments_segments (p : Proc) :
  countsFit p →
  serializeAssignments p = flat_map (λ s, encodeSegment s.2) (segmentsOf p).
Proof.
  intros Hfit. unfold serializeAssignments, segmentsOf.
  rewrite flat_map_map.
  apply flat_map_ext_seq. intros i Hi. cbn [snd]. unfold encodeSegment.
  rewrite length_map, uchar_small; [done|].
  specialize (Hfit i ltac:(lia)). lia.
Qed.

Lemma segment_indices (ps : list Proc) :
  map fst (flat_map segmentsOf ps) = flat_map (λ _ : nat, seq 0 k) (seq 0 (length ps)).
Proof.
  assert (∀ s, flat_map (λ _ : nat, seq 0 k) (seq s (length ps))
               = map fst (flat_map segmentsOf ps)) as Hs.
  { induction ps as [|p ps IH]; intros s; [done|].
    simpl. rewrite map_app, IH. f_equal.
    unfold segmentsOf. rewrite map_map. simpl. by rewrite map_id. }
  by rewrite Hs.
Qed.

Lemma deserializeAssignments_segments (ps : list Proc) (cl : Clusters) :
  Forall countsFit ps →
  deserializeAssignments (length ps) (concat (map serializeAssignments ps)) cl
  = fold_left appendSegment (flat_map segmentsOf ps)
              (map (λ c, mkCluster [] (centroid c)) cl).
Proof.
  intros Hfit. unfold deserializeAssignments.
  rewrite (fold_left_flat_map (collectSegment _) (λ _ : nat, seq 0 k)).
  rewrite <- segment_indices.
  assert (concat (map serializeAssignments ps)
          = [] ++ flat_map (λ s, encodeSegment s.2) (flat_map segmentsOf ps) ++ []) as ->.
  { rewrite app_nil_r. simpl.
    induction Hfit as [|p ps' Hp _ IH]; [done|].
    simpl. rewrite flat_map_app, IH. f_equal. by apply serializeAssignments_segments. }
  change 0 with (length (@nil Z)) at 1.
  by rewrite collectSegment_segments.
Qed.

Lemma appendSegment_permutation (segs : list (nat * list Z)) (cl : Clusters) :
  Forall (λ s, s.1 < length cl) segs →
  concat (map elements (fold_left appendSegment segs cl))
  ≡ₚ concat (map elements cl) ++ concat (map snd segs).
Proof.
  revert cl. induction segs as [|[i ids] segs IH]; intros cl Hs.
  - simpl. by rewrite app_nil_r.
  - apply Forall_cons in Hs as [Hi Hs]. cbn [fold_left map concat snd].
    rewrite IH by (unfold appendSegment; by rewrite length_alter).
    rewrite app_assoc. apply Permutation_app_tail.
    clear IH Hs. unfold appendSegment. cbn [fst snd] in *.
    revert i Hi. induction cl as [|c cl IHc]; intros i Hi; simpl in Hi; [lia|].
    destruct i as [|i].
    + change (alter ?f 0 (c :: cl)) with (f c :: cl). cbn [map concat elements].
      rewrite <- !app_assoc. apply Permutation_app_head, Permutation_app_comm.
    + change (alter ?f (S i) (c :: cl)) with (c :: alter f i cl). cbn [map concat].
      rewrite IHc by lia. by rewrite app_assoc.
Qed.

Lemma clusters_by_index {A} (f : Cluster → list A) (cl : Clusters) :
  length cl = k →
  flat_map (λ i, f (nth i cl noCluster)) (seq 0 k) = flat_map f cl.
Proof.
  intros Hcl. rewrite <- (flat_map_map f (λ i, nth i cl noCluster)).
  by rewrite <- Hcl, map_nth_seq.
Qed.

Lemma length_serializeAssignments p :
  length (clusters p) = k →
  length (serializeAssignments p) = k + length (membersOf p).
Proof.
  intros Hcl. unfold serializeAssignments.
  rewrite (clusters_by_index
             (λ c, uchar (Z.of_nat (length (elements c))) :: map (globalId p) (elements c)))
    by done.
  rewrite length_flat_map_cons, Hcl. f_equal.
  unfold membersOf. rewrite flat_map_concat_map, !length_concat, !map_map.
  f_equal. apply map_ext. intros c. by rewrite length_map.
Qed.

Lemma gathered_assignments colorList n P ps :
  1 ≤ P → sharded colorList n P ps →
  Forall (λ q, length (clusters q) = k
               ∧ membersOf q ≡ₚ map Z.of_nat (seq 0 (maxNum q))) ps →
  MPI_Gatherv (n + k * P) (map serializeAssignments ps) (gatherCounts n P) (gatherDispls n P)
  = concat (map serializeAssignments ps).
Proof.
  intros HP Hs Hall. pose proof (sharded_length _ _ _ _ Hs) as Hlen.
  assert (map length (map serializeAssignments ps)
          = map (λ z, k + shardSize n P z) (seq 0 P)) as Hlens.
  { rewrite map_map, <- Hlen. apply map_by_index. intros z p Hz.
    rewrite Forall_forall in Hall. destruct (Hall p) as [Hcl Hm].
    { by eapply list_elem_of_lookup_2. }
    rewrite length_serializeAssignments by done. f_equal.
    rewrite Hlen. by eapply sharded_members_length. }
  apply MPI_Gatherv_concat.
  - intros z Hz. rewrite length_map, Hlen in Hz. split.
    + unfold gatherCounts. rewrite (nth_map_seq _ 0 P z) by done. simpl.
      rewrite <- (map_nth length), Hlens.
      rewrite (nth_map_seq (λ z, k + shardSize n P z) 0 P z) by done. simpl.
      unfold shardSize. destruct (decide (z = P - 1)); lia.
    + unfold gatherDispls. rewrite (nth_map_seq _ 0 P z) by done. simpl.
      rewrite length_concat, <- firstn_map, Hlens, firstn_map, take_seq.
      rewrite Nat.min_l by lia. rewrite sum_shards_prefix by lia. done.
  - rewrite length_concat, Hlens. by rewrite sum_shards_total.
Qed.

Lemma segments_ids (p : Proc) :
  length (clusters p) = k →
  concat (map snd (segmentsOf p)) = map (globalId p) (membersOf p).
Proof.
  intros Hcl. unfold segmentsOf, membersOf. rewrite map_map. cbn [snd].
  rewrite <- flat_map_concat_map.
  rewrite (clusters_by_index (λ c, map (globalId p) (elements c))) by done.
  rewrite flat_map_concat_map, concat_map, map_map. done.
Qed.

Lemma all_segments_ids (ps : list Proc) :
  Forall (λ q, length (clusters q) = k) ps →
  concat (map snd (flat_map segmentsOf ps))
  = flat_map (λ p, map (globalId p) (membersOf p)) ps.
Proof.
  induction 1 as [|p ps Hp _ IH]; [done|].
  simpl. by rewrite map_app, concat_app, IH, segments_ids.
Qed.

Lemma segments_in_range (ps : list Proc) :
  Forall (λ s : nat * list Z, s.1 < k) (flat_map segmentsOf ps).
Proof.
  induction ps as [|p ps IH]; [by constructor|].
  simpl. apply Forall_app. split; [|done].
  unfold segmentsOf. apply Forall_fmap, Forall_forall.
  intros i Hi%list_elem_of_In%in_seq. simpl. lia.
Qed.

Lemma shard_ids colorList n P ps z p :
  n ≤ 256 → sharded colorList n P ps → ps !! z = Some p →
  map (globalId p) (map Z.of_nat (seq 0 (maxNum p)))
  = map Z.of_nat (seq (z * (n / P)) (shardSize n P z)).
Proof.
  intros Hn Hs Hz. destruct (sharded_lookup _ _ _ _ _ _ Hs Hz) as (HzP & Hmax & Hids).
  pose proof (shard_end n P z HzP) as Hend.
  rewrite Hmax, map_map, (map_seq_shift Z.of_nat).
  apply map_ext_in. intros i Hi%in_seq. unfold globalId.
  rewrite Nat2Z.id, Hids.
  rewrite (nth_map_seq (λ i, uchar (Z.of_nat (z * (n / P) + i))) 0) by lia.
  simpl. rewrite !uchar_id by lia. done.
Qed.

Lemma collected_members colorList n P ps :
  1 ≤ P → n ≤ 256 → sharded colorList n P ps →
  Forall (λ q, length (clusters q) = k
               ∧ membersOf q ≡ₚ map Z.of_nat (seq 0 (maxNum q))) ps →
  flat_map (λ p, map (globalId p) (membersOf p)) ps ≡ₚ map Z.of_nat (seq 0 n).
Proof.
  intros HP Hn Hs Hall.
  rewrite (flat_map_permutation _ (λ p, map (globalId p) (map Z.of_nat (seq 0 (maxNum p))))).
  2:{ eapply Forall_impl; [exact Hall|]. intros p [_ Hp]. simpl. by rewrite Hp. }
  rewrite flat_map_concat_map.
  rewrite (map_by_index _ (λ z, map Z.of_nat (seq (z * (n / P)) (shardSize n P z)))).
  2:{ intros z p Hz. by eapply shard_ids. }
  rewrite (sharded_length _ _ _ _ Hs).
  rewrite <- (map_map (λ z, seq (z * (n / P)) (shardSize n P z)) (map Z.of_nat)).
  rewrite <- concat_map, <- flat_map_concat_map, shards_cover by done. done.
Qed.

Lemma collectClusterAssignments_members colorList n P r os :
  1 ≤ P → n ≤ 256 → sharded colorList n P (r :: os) →
  Forall (λ q, length (clusters q) = k
               ∧ membersOf q ≡ₚ map Z.of_nat (seq 0 (maxNum q))) (r :: os) →
  Forall countsFit (r :: os) →
  ∃ final,
    collectClusterAssignments n (r :: os) = withClusters r final :: os
    ∧ length final = k
    ∧ concat (map elements final) ≡ₚ map Z.of_nat (seq 0 n).
Proof.
  intros HP Hn Hs Hall Hfit.
  pose proof (sharded_length _ _ _ _ Hs) as Hlen.
  assert (length (clusters r) = k) as Hr by (by apply Forall_cons in Hall as [[? _] _]).
  pose proof (gathered_assignments colorList n P (r :: os) HP Hs Hall) as Hg.
  rewrite <- Hlen in Hg.
  rewrite collectClusterAssignments_cons.
  change (S (length os)) with (length (r :: os)).
  rewrite Hg, deserializeAssignments_segments by done.
  eexists. split; [reflexivity|]. split.
  - assert (∀ segs cl, length (fold_left appendSegment segs cl) = length cl) as Hfold.
    { induction segs as [|s segs IH]; intros cl; [done|].
      cbn [fold_left]. rewrite IH. unfold appendSegment. by rewrite length_alter. }
    by rewrite Hfold, length_map.
  - rewrite appendSegment_permutation.
    2:{ rewrite length_map, Hr. apply segments_in_range. }
    rewrite map_map. cbn [elements].
    assert (concat (map (λ _ : Cluster, @nil Z) (clusters r)) = []) as ->.
    { clear. induction (clusters r) as [|c cl IH]; [done|]. simpl. exact IH. }
    rewrite app_nil_l, all_segments_ids.
    + by eapply collected_members.
    + eapply Forall_impl; [exact Hall|]. by intros q [? _].
Qed.

Lemma length_elements_le (cl : Clusters) (i : nat) :
  length (elements (nth i cl noCluster)) ≤ length (concat (map elements cl)).
Proof.
  revert i. induction cl as [|c cl IH]; intros [|i]; simpl; rewrite ?length_app; try lia.
  specialize (IH i). lia.
Qed.

Lemma members_countsFit colorList n P ps :
  n ≤ 255 → sharded colorList n P ps →
  Forall (λ q, length (clusters q) = k
               ∧ membersOf q ≡ₚ map Z.of_nat (seq 0 (maxNum q))) ps →
  Forall countsFit ps.
Proof.
  intros Hn Hs Hall. apply Forall_forall. intros p Hp i Hi.
  apply list_elem_of_lookup in Hp as [z Hz].
  rewrite Forall_forall in Hall. destruct (Hall p) as [_ Hm].
  { by eapply list_elem_of_lookup_2. }
  destruct (sharded_lookup _ _ _ _ _ _ Hs Hz) as (HzP & _ & _).
  pose proof (sharded_members_length _ _ _ _ _ _ Hs Hz Hm) as Hlen.
  pose proof (shard_end n P z HzP).
  pose proof (length_elements_le (clusters p) i). unfold membersOf in Hlen. lia.
Qed.

End Collection.

(** ** Binary64 values that are not negative *)

(** Sums and square roots of values that are numbers and not negative are
    numbers and not negative: no rounding changes a sign. *)

Lemma iter_pos_invariant {A} (P : A → Prop) (f : A → A) (p : positive) (x : A) :
  (∀ y, P y → P (f y)) → P x → P (SpecFloat.iter_pos f p x).
Proof.
  intros Hf. revert x. induction p as [p IH|p IH|]; intros x Hx; simpl; auto.
Qed.

Lemma shr_1_nonneg (mrs : shr_record) : (0 ≤ shr_m mrs → 0 ≤ shr_m (shr_1 mrs))%Z.
Proof. destruct mrs as [[|[p|p|]|[p|p|]] r s]; simpl; lia. Qed.

Lemma shr_fexp_nonneg (m e : Z) (l : location) :
  (0 ≤ m → 0 ≤ shr_m (shr_fexp prec emax m e l).1)%Z.
Proof.
  intros Hm. unfold shr_fexp, shr.
  assert (0 ≤ shr_m (shr_record_of_loc m l))%Z as H0 by (by destruct l as [|[]]).
  destruct (fexp prec emax (Zdigits2 m + e) - e)%Z as [|p|p]; simpl; try done.
  by apply (iter_pos_invariant (λ mrs, 0 ≤ shr_m mrs)%Z); [apply shr_1_nonneg|].
Qed.

Lemma round_nearest_even_nonneg (m : Z) (l : location) :
  (0 ≤ m → 0 ≤ round_nearest_even m l)%Z.
Proof. intros Hm. destruct l as [|[]]; simpl; try destruct (Z.even m); lia. Qed.

Lemma binary_round_aux_nonneg (m e : Z) (l : location) :
  (0 ≤ m)%Z → SFnonneg (binary_round_aux prec emax false m e l) = true.
Proof.
  intros Hm. unfold binary_round_aux.
  pose proof (shr_fexp_nonneg m e l Hm) as H1.
  destruct (shr_fexp prec emax m e l) as [mrs' e'].
  pose proof (shr_fexp_nonneg _ e' loc_Exact
                (round_nearest_even_nonneg _ (loc_of_shr_record mrs') H1)) as H2.
  destruct (shr_fexp prec emax _ e' loc_Exact) as [mrs'' e''].
  simpl in H2. destruct (shr_m mrs'') as [|p|p]; [done| |lia].
  by destruct (e'' <=? emax - prec)%Z.
Qed.

Lemma binary_round_nonneg (m : positive) (e : Z) :
  SFnonneg (binary_round prec emax false m e) = true.
Proof.
  unfold binary_round. destruct (shl_align m e _) as [mz ez].
  by apply binary_round_aux_nonneg.
Qed.

Lemma SF64add_nonneg (x y : spec_float) :
  SFnonneg x = true → SFnonneg y = true → SFnonneg (SF64add x y) = true.
Proof.
  destruct x as [sx|[]| |[] mx ex], y as [sy|[]| |[] my ey]; simpl; try done.
  - by destruct sx, sy.
  - intros _ _. unfold SF64add, SFadd, binary_normalize. simpl cond_Zopp.
    cbn [Z.add]. apply binary_round_nonneg.
Qed.

Lemma SF64sqrt_nonneg (x : spec_float) : SFnonneg x = true → SFnonneg (SF64sqrt x) = true.
Proof.
  destruct x as [sx|[]| |[] mx ex]; simpl; try done.
  intros _. unfold SFsqrt_core_binary.
  match goal with |- context [Z.sqrtrem ?a] =>
    pose proof (Z.sqrtrem_sqrt a) as Hq; pose proof (Z.sqrt_nonneg a) as Hs;
    destruct (Z.sqrtrem a) as [q r] end.
  simpl in Hq. subst q. by apply binary_round_aux_nonneg.
Qed.

Lemma SFnonneg_number (x : float) :
  SFnonneg (Prim2SF x) = true → is_nan x = false ∧ (0 <=? x)%float = true.
Proof.
  intros Hx. unfold is_nan. rewrite FloatAxioms.eqb_spec, FloatAxioms.leb_spec.
  change (Prim2SF 0) with (S754_zero false).
  destruct (Prim2SF x) as [s|[]| |[] m e]; simpl in Hx; try done.
  unfold SFeqb, SFleb. simpl. by rewrite Z.compare_refl, Pos.compare_cont_refl.
Qed.

(** ** The Euclidean distance *)

Lemma squared_difference_nonneg (a b : Z) :
  is_uchar a → is_uchar b →
  let value := (to_double a - to_double b)%float in
  SFnonneg (Prim2SF (value * value)) = true.
Proof.
  revert a b.
  apply (bytes_forallb
           (λ a b, SFnonneg (Prim2SF ((to_double a - to_double b)
                                      * (to_double a - to_double b))%float))).
  vm_compute. reflexivity.
Qed.

Lemma squared_difference_symmetric (a b : Z) :
  is_uchar a → is_uchar b →
  let value := (to_double a - to_double b)%float in
  let value' := (to_double b - to_double a)%float in
  (value * value)%float = (value' * value')%float.
Proof.
  intros Ha Hb. apply FloatAxioms.Leibniz.eqb_spec. revert a b Ha Hb.
  apply (bytes_forallb
           (λ a b, PrimFloat.Leibniz.eqb
                     ((to_double a - to_double b) * (to_double a - to_double b))%float
                     ((to_double b - to_double a) * (to_double b - to_double a))%float)).
  vm_compute. reflexivity.
Qed.

Lemma squared_difference_same (a : Z) :
  is_uchar a →
  let value := (to_double a - to_double a)%float in
  (0 + value * value)%float = 0%float.
Proof.
  intros Ha. apply FloatAxioms.Leibniz.eqb_spec. revert a Ha.
  assert (∀ a b, is_uchar a → is_uchar b →
            PrimFloat.Leibniz.eqb
              (0 + (to_double a - to_double a) * (to_double a - to_double a))%float 0%float
            = true) as Hall.
  { apply (bytes_forallb
             (λ a _, PrimFloat.Leibniz.eqb
                       (0 + (to_double a - to_double a) * (to_double a - to_double a))%float
                       0%float)).
    vm_compute. reflexivity. }
  intros a Ha. by apply (Hall a a).
Qed.

Lemma calculateEuclideanDistance_nonneg (n : nat) (pixels other : Element) :
  Forall is_uchar pixels → Forall is_uchar other →
  SFnonneg (Prim2SF (calculateEuclideanDistance n pixels other)) = true.
Proof.
  intros Hp Ho. unfold calculateEuclideanDistance.
  rewrite FloatAxioms.sqrt_spec. apply SF64sqrt_nonneg.
  assert (SFnonneg (Prim2SF 0) = true) as H0 by reflexivity.
  revert H0. generalize 0%float. generalize (seq 0 n).
  intros l. induction l as [|i l IH]; intros result Hr; [done|].
  simpl. apply IH. rewrite FloatAxioms.add_spec.
  apply SF64add_nonneg; [done|].
  apply squared_difference_nonneg; by apply is_uchar_nth.
Qed.

(** ** Byte order *)

Lemma uint32_testbit_high (i m : Z) :
  (0 ≤ i < 2 ^ 32)%Z → (32 ≤ m)%Z → Z.testbit i m = false.
Proof.
  intros Hi Hm. rewrite <- (Z.mod_small i (2 ^ 32)) by lia.
  apply Z.mod_pow2_bits_high. lia.
Qed.

Lemma swapEndian_testbit (i n : Z) :
  (0 ≤ i < 2 ^ 32)%Z → (0 ≤ n)%Z →
  Z.testbit (swapEndian i) n
  = if (n <? 8)%Z then Z.testbit i (n + 24)
    else if (n <? 16)%Z then Z.testbit i (n + 8)
    else if (n <? 24)%Z then Z.testbit i (n - 8)
    else if (n <? 32)%Z then Z.testbit i (n - 24)
    else false.
Proof.
  intros Hi Hn. unfold swapEndian, uint32.
  change 0x0000FF00%Z with (Z.shiftl (Z.ones 8) 8).
  change 0x00FF0000%Z with (Z.shiftl (Z.ones 8) 16).
  rewrite !Z.lor_spec, !Z.land_spec, !Z.shiftr_spec, !Z.testbit_mod_pow2,
    !Z.shiftl_spec, !Z.testbit_ones by lia.
  pose proof (uint32_testbit_high i (n + 24) Hi) as H24.
  pose proof (uint32_testbit_high i (n + 8) Hi) as H8.
  pose proof (Z.testbit_neg_r i (n - 8)) as N8.
  pose proof (Z.testbit_neg_r i (n - 24)) as N24.
  repeat match goal with
         | |- context [(?a <? ?b)%Z] => destruct (Z.ltb_spec a b)
         | |- context [(?a <=? ?b)%Z] => destruct (Z.leb_spec a b)
         end; try lia;
    rewrite ?H24, ?H8, ?N8, ?N24 by lia; simpl;
    rewrite ?andb_false_r, ?orb_false_r, ?andb_true_r; try reflexivity.
Qed.

Lemma swapEndian_range (i : Z) : (0 ≤ i < 2 ^ 32)%Z → (0 ≤ swapEndian i < 2 ^ 32)%Z.
Proof.
  intros Hi.
  assert (swapEndian i = swapEndian i mod 2 ^ 32)%Z as ->; [|by apply Z.mod_pos_bound].
  apply Z.bits_inj'. intros n Hn.
  rewrite Z.testbit_mod_pow2, swapEndian_testbit by lia.
  repeat match goal with
         | |- context [(?a <? ?b)%Z] => destruct (Z.ltb_spec a b)
         end; try lia; reflexivity.
Qed.

Lemma byte_testbit (x j n : Z) :
  (0 ≤ j)%Z → (0 ≤ n)%Z →
  Z.testbit ((x / 2 ^ (8 * j)) mod 256) n = ((n <? 8)%Z && Z.testbit x (n + 8 * j))%bool.
Proof.
  intros Hj Hn. change 256%Z with (2 ^ 8)%Z.
  rewrite Z.testbit_mod_pow2, <- Z.shiftr_div_pow2, Z.shiftr_spec by lia. done.
Qed.

(** ** Pixels *)

Lemma hex02_injective (a b : Z) : is_uchar a → is_uchar b → hex02 a = hex02 b → a = b.
Proof.
  intros Ha Hb Heq. apply Z.eqb_eq.
  pose proof (bytes_forallb (λ a b, implb (String.eqb (hex02 a) (hex02 b)) (a =? b)%Z)) as Hall.
  specialize (Hall ltac:(vm_compute; reflexivity) a b Ha Hb). cbv beta in Hall.
  apply String.eqb_eq in Heq. rewrite Heq in Hall. exact Hall.
Qed.

Lemma flat_map_rows {A} (g : nat → A) (R C : nat) :
  flat_map (λ r, map (λ c, g (r * C + c)) (seq 0 C)) (seq 0 R) = map g (seq 0 (R * C)).
Proof.
  induction R as [|R IH]; [done|].
  replace (S R * C) with (R * C + C) by lia.
  rewrite seq_S, flat_map_app, IH, seq_app, map_app. f_equal.
  cbn [flat_map]. rewrite app_nil_r. simpl. by rewrite (map_seq_shift g).
Qed.

(** ** Counts and displacements *)

Section Layouts.
Context `{KMeansMPI}.

Lemma scatterCount_rank (n P rank : nat) :
  rank < P →
  nth rank (scatterCounts P (n / P) (n * (d + 1))) 0 = shardSize n P rank * (d + 1).
Proof.
  intros Hr. unfold scatterCounts. rewrite (nth_map_seq _ 0 P rank) by done. simpl.
  unfold shardSize. pose proof (shard_bound n P) as Hb.
  destruct (decide (rank = P - 1)); [|done]. set (c := n / P) in *. nia.
Qed.

Lemma sum_scatterCounts_prefix (n P z : nat) :
  z ≤ P - 1 →
  list_sum (take z (scatterCounts P (n / P) (n * (d + 1)))) = z * (n / P) * (d + 1).
Proof.
  intros Hz. unfold scatterCounts. rewrite firstn_map, take_seq, Nat.min_l by lia.
  induction z as [|z IH]; [done|].
  rewrite seq_S, map_app, list_sum_app, IH by lia. simpl.
  rewrite decide_False by lia. lia.
Qed.

Lemma sum_gatherCounts_prefix (n P z : nat) :
  z ≤ P - 1 → list_sum (take z (gatherCounts n P)) = z * (n / P + k).
Proof.
  intros Hz. unfold gatherCounts. rewrite firstn_map, take_seq, Nat.min_l by lia.
  induction z as [|z IH]; [done|].
  rewrite seq_S, map_app, list_sum_app, IH by lia. simpl.
  rewrite decide_False by lia. lia.
Qed.

End Layouts.

(** ** The collected membership lists *)

(** The list that the coordinator collects for a cluster is the list of the
    elements that the assignment phase of the last generation put there, in
    the order of the dataset. *)

Section Membership.
Context `{KMeansMPI}.

Lemma length_appendSegments (segs : list (nat * list Z)) (cl : Clusters) :
  length (fold_left appendSegment segs cl) = length cl.
Proof.
  revert cl. induction segs as [|s segs IH]; intros cl; [done|].
  cbn [fold_left]. rewrite IH. unfold appendSegment. by rewrite length_alter.
Qed.

Lemma appendSegment_elements (segs : list (nat * list Z)) (cl : Clusters) (c : nat) :
  c < length cl →
  elements (nth c (fold_left appendSegment segs cl) noCluster)
  = elements (nth c cl noCluster) ++ concat (map snd (filter (λ s, s.1 = c) segs)).
Proof.
  revert cl. induction segs as [|s segs IH]; intros cl Hc.
  { simpl. by rewrite app_nil_r. }
  cbn [fold_left]. rewrite IH by (unfold appendSegment; by rewrite length_alter).
  rewrite filter_cons. unfold appendSegment at 1.
  destruct (decide (s.1 = c)) as [Heq|Hne].
  - rewrite Heq, nth_alter_eq by done. cbn [elements map concat]. by rewrite app_assoc.
  - by rewrite nth_alter_ne.
Qed.

Lemma segment_of_cluster (g : nat → list Z) (s n c : nat) :
  concat (map snd (filter (λ x : nat * list Z, x.1 = c) (map (λ i, (i, g i)) (seq s n))))
  = if decide (s ≤ c < s + n) then g c else [].
Proof.
  revert s. induction n as [|n IH]; intros s.
  { simpl. rewrite decide_False by lia. done. }
  cbn [seq map]. rewrite filter_cons. cbn [fst]. destruct (decide (s = c)) as [->|Hne].
  - cbn [map concat snd]. rewrite IH, decide_False, decide_True by lia. by rewrite app_nil_r.
  - rewrite IH. destruct (decide (S s ≤ c < S s + n)).
    + rewrite decide_True by lia. done.
    + rewrite decide_False by lia. done.
Qed.

Lemma segments_of_cluster (ps : list Proc) (c : nat) :
  c < k →
  concat (map snd (filter (λ s : nat * list Z, s.1 = c) (flat_map segmentsOf ps)))
  = flat_map (λ p, map (globalId p) (elements (nth c (clusters p) noCluster))) ps.
Proof.
  intros Hc. induction ps as [|p ps IH]; [done|].
  cbn [flat_map]. rewrite filter_app, map_app, concat_app, IH. f_equal.
  unfold segmentsOf.
  rewrite (segment_of_cluster
             (λ i, map (globalId p) (elements (nth i (clusters p) noCluster)))).
  by rewrite decide_True by lia.
Qed.

Lemma collected_cluster colorList n P r os :
  1 ≤ P → sharded colorList n P (r :: os) →
  Forall (λ q, length (clusters q) = k
               ∧ membersOf q ≡ₚ map Z.of_nat (seq 0 (maxNum q))) (r :: os) →
  Forall countsFit (r :: os) →
  ∃ final,
    collectClusterAssignments n (r :: os) = withClusters r final :: os
    ∧ length final = k
    ∧ map centroid final = map centroid (clusters r)
    ∧ ∀ c, c < k →
        elements (nth c final noCluster)
        = flat_map (λ p, map (globalId p) (elements (nth c (clusters p) noCluster)))
                   (r :: os).
Proof.
  intros HP Hs Hall Hfit.
  pose proof (sharded_length _ _ _ _ Hs) as Hlen.
  assert (length (clusters r) = k) as Hr by (by apply Forall_cons in Hall as [[? _] _]).
  pose proof (gathered_assignments colorList n P (r :: os) HP Hs Hall) as Hg.
  rewrite <- Hlen in Hg.
  rewrite collectClusterAssignments_cons.
  change (S (length os)) with (length (r :: os)).
  rewrite Hg. eexists. split; [reflexivity|]. split; [|split].
  - rewrite deserializeAssignments_segments by done.
    by rewrite length_appendSegments, length_map.
  - apply deserializeAssignments_centroids.
  - intros c Hc. rewrite deserializeAssignments_segments by done.
    rewrite appendSegment_elements by (by rewrite length_map, Hr).
    rewrite segments_of_cluster by done.
    assert (elements (nth c (map (λ c0, mkCluster [] (centroid c0)) (clusters r)) noCluster)
            = []) as ->; [|done].
    destruct (decide (c < length (clusters r))) as [Hlt|Hge].
    + destruct (lookup_lt_is_Some_2 (clusters r) c Hlt) as [x Hx].
      erewrite nth_lookup_Some; [|by rewrite list_lookup_fmap, Hx]. done.
    + rewrite nth_overflow by (rewrite length_map; lia). done.
Qed.

Lemma nearestCluster_centroids (cl cl' : Clusters) (e : Element) :
  map centroid cl = map centroid cl' → nearestCluster cl e = nearestCluster cl' e.
Proof.
  intros Heq. unfold nearestCluster. f_equal. apply map_ext. intros j.
  rewrite <- !(map_nth centroid). by rewrite Heq.
Qed.

Lemma nearest_updateDistances (p : Proc) (i : nat) :
  i < maxNum p →
  nearest (nth i (dist (updateDistances p)) [])
  = nearestCluster (clusters p) (nth i (partition p) []).
Proof.
  intros Hi. unfold updateDistances, nearestCluster. cbn [dist].
  by rewrite (nth_map_seq _ 0 (maxNum p) i).
Qed.

Lemma filter_ext_seq (P Q : nat → Prop) `{∀ i, Decision (P i)} `{∀ i, Decision (Q i)}
    (s n : nat) :
  (∀ i, s ≤ i < s + n → (P i ↔ Q i)) → filter P (seq s n) = filter Q (seq s n).
Proof.
  revert s. induction n as [|n IH]; intros s Hpq; [done|].
  cbn [seq]. rewrite !filter_cons, IH by (intros i Hi; apply Hpq; lia).
  destruct (decide (P s)) as [Hp|Hp], (decide (Q s)) as [Hq|Hq]; try done.
  - apply Hpq in Hp; [done|lia].
  - apply Hpq in Hq; [done|lia].
Qed.

Lemma filter_seq_shift (Q : nat → Prop) `{∀ i, Decision (Q i)} (off m : nat) :
  map (λ i, off + i) (filter (λ i, Q (off + i)) (seq 0 m)) = filter Q (seq off m).
Proof.
  induction m as [|m IH]; [done|].
  rewrite !seq_S, !filter_app, map_app, IH. f_equal.
  rewrite !filter_cons, !filter_nil. simpl. by destruct (decide (Q (off + m))).
Qed.

Lemma filter_flat_map {A B} (Q : B → Prop) `{∀ x, Decision (Q x)} (f : A → list B)
    (l : list A) :
  filter Q (flat_map f l) = flat_map (λ x, filter Q (f x)) l.
Proof. induction l as [|x l IH]; [done|]. simpl. by rewrite filter_app, IH. Qed.

Lemma flat_map_by_index {A B} (f : A → list B) (g : nat → list B) (l : list A) :
  (∀ z x, l !! z = Some x → f x = g z) → flat_map f l = flat_map g (seq 0 (length l)).
Proof.
  intros Hfg. rewrite !flat_map_concat_map. f_equal. by apply map_by_index.
Qed.

Lemma assignment_elements (p : Proc) (c : nat) :
  1 ≤ k → c < k →
  elements (nth c (clusters (assignment p)) noCluster)
  = map Z.of_nat
      (filter (λ i, nearestCluster (clusters p) (nth i (partition p) []) = c)
              (seq 0 (maxNum p))).
Proof.
  intros Hk Hc. unfold assignment, updateClusters, withClusters. cbn [clusters].
  rewrite (assigned_elements (savePrev (updateDistances p)) (maxNum p) c) by done.
  cbn [dist savePrev]. f_equal. apply filter_ext_seq. intros i Hi.
  by rewrite nearest_updateDistances by lia.
Qed.

Lemma generationBody_elements (ps : list Proc) (z : nat) (q : Proc) :
  generationBody ps !! z = Some q →
  ∃ p, ps !! z = Some p
    ∧ map elements (clusters q) = map elements (clusters (assignment p))
    ∧ shard q = shard p.
Proof.
  destruct ps as [|r os]; [done|].
  destruct (generationBody_cons r os) as (cl & _ & _ & Hel & ->).
  destruct z as [|z]; simpl.
  - intros [= <-]. exists r. by repeat split.
  - rewrite list_lookup_fmap. destruct (os !! z) as [p|]; [|done].
    intros [= <-]. exists p. split; [done|]. split; [|done].
    cbn [clusters withClusters]. apply receiveCentroids_elements.
Qed.

Lemma sharded_partition (colorList : list Element) n P ps z p i :
  length colorList = n → Forall (λ e, length e = d) colorList →
  sharded colorList n P ps → ps !! z = Some p → i < shardSize n P z →
  nth i (partition p) [] = nth (z * (n / P) + i) colorList [].
Proof.
  intros Hn Hd Hs Hz Hi. pose proof (sharded_length _ _ _ _ Hs) as Hlen.
  assert (z < P) as HzP by (rewrite <- Hlen; by eapply lookup_lt_Some).
  apply (f_equal (λ l, l !! z)) in Hs.
  rewrite !list_lookup_fmap, Hz, lookup_seq_lt in Hs by done. simpl in Hs.
  injection Hs as Hpart _ _.
  trans (nth i (partition (partitionColors colorList n P z newProc)) []).
  { rewrite Hpart. reflexivity. }
  rewrite (partitionColors_partition colorList n P z newProc) by done.
  by apply nth_take_drop.
Qed.

Lemma agreeing_root (r : Proc) (os : list Proc) (p : Proc) :
  agreeing (r :: os) → p ∈ r :: os →
  map centroid (clusters p) = map centroid (clusters r).
Proof.
  intros (cs & pv & _ & _ & Hall) Hp. rewrite Forall_forall in Hall.
  destruct (Hall p Hp) as [-> _]. destruct (Hall r) as [-> _]; [left|done].
Qed.

Lemma generation_collected (colorList : list Element) n P r' os' :
  1 ≤ P → 1 ≤ k → n ≤ 256 →
  length colorList = n → Forall (λ e, length e = d) colorList →
  agreeing (r' :: os') → sharded colorList n P (r' :: os') →
  Forall countsFit (generationBody (r' :: os')) →
  ∃ r os final,
    generationBody (r' :: os') = r :: os
    ∧ collectClusterAssignments n (r :: os) = withClusters r final :: os
    ∧ length final = k
    ∧ map centroid final = map centroid (clusters r)
    ∧ prev r = clusters r'
    ∧ ∀ c, c < k →
        elements (nth c final noCluster)
        = map Z.of_nat
            (filter (λ g, nearestCluster (clusters r') (nth g colorList []) = c) (seq 0 n)).
Proof.
  intros HP Hk Hn Hlen Hd Hag Hsh Hfit.
  assert (sharded colorList n P (generationBody (r' :: os'))) as Hsh'.
  { unfold sharded. by rewrite shard_generationBody. }
  pose proof (generationBody_members (r' :: os') Hk) as Hmem.
  pose proof (prev_generationBody (r' :: os')) as Hprev.
  assert (∀ z q, generationBody (r' :: os') !! z = Some q →
            ∀ c, c < k →
              map (globalId q) (elements (nth c (clusters q) noCluster))
              = map Z.of_nat
                  (filter (λ g, nearestCluster (clusters r') (nth g colorList []) = c)
                          (seq (z * (n / P)) (shardSize n P z)))) as Hrank.
  { intros z q Hq c Hc.
    destruct (generationBody_elements _ _ _ Hq) as (p & Hp & Hel & Hshard).
    destruct (sharded_lookup _ _ _ _ _ _ Hsh Hp) as (HzP & Hmax & _).
    destruct (sharded_lookup _ _ _ _ _ _ Hsh' Hq) as (_ & _ & Hids).
    pose proof (shard_end n P z HzP) as Hend.
    change (@nil Z) with (elements noCluster) at 1.
    rewrite <- (map_nth elements), Hel, (map_nth elements).
    rewrite assignment_elements, Hmax by done.
    rewrite <- (filter_seq_shift _ (z * (n / P))), !map_map.
    rewrite (filter_ext_seq
               (λ i, nearestCluster (clusters p) (nth i (partition p) []) = c)
               (λ i, nearestCluster (clusters r') (nth (z * (n / P) + i) colorList []) = c)).
    - apply map_ext_in. intros i Hi%list_elem_of_In%list_elem_of_filter.
      destruct Hi as [_ Hi%list_elem_of_In%in_seq].
      unfold globalId. rewrite Nat2Z.id, Hids.
      rewrite (nth_map_seq (λ i, uchar (Z.of_nat (z * (n / P) + i))) 0) by lia.
      simpl. rewrite !uchar_id by lia. done.
    - intros i Hi.
      rewrite (sharded_partition colorList n P (r' :: os') z p i) by (done || lia).
      rewrite (nearestCluster_centroids (clusters p) (clusters r')); [done|].
      apply (agreeing_root r' os'); [done|]. by eapply list_elem_of_lookup_2. }
  destruct (generationBody (r' :: os')) as [|r os] eqn:Hbody.
  { apply sharded_length in Hsh'. simpl in Hsh'. lia. }
  destruct (collected_cluster colorList n P r os HP Hsh' Hmem Hfit)
    as (final & Hcollect & Hfl & Hcent & Hels).
  exists r, os, final. split; [done|]. split; [done|]. split; [done|]. split; [done|].
  split; [by injection Hprev|].
  intros c Hc. rewrite (Hels c Hc).
  rewrite (flat_map_by_index _
             (λ z, map Z.of_nat
                     (filter (λ g, nearestCluster (clusters r') (nth g colorList []) = c)
                             (seq (z * (n / P)) (shardSize n P z))))).
  2:{ intros z q Hq. by apply Hrank. }
  rewrite (sharded_length _ _ _ _ Hsh').
  rewrite <- (shards_cover n P HP).
  rewrite filter_flat_map.
  generalize (seq 0 P). intros l. induction l as [|z l IH]; [done|].
  simpl. by rewrite map_app, IH.
Qed.


Lemma fit_last_generation (colorList : list Element) (n P : nat)
    (selectedColors : list nat) :
  1 ≤ P → 1 ≤ k → 1 ≤ d →
  length colorList = n → Forall (λ e, length e = d) colorList →
  length selectedColors = k → Forall (λ s, s < n) selectedColors →
  n ≤ 255 →
  ∃ g r' os' r os final,
    Nat.iter g generationBody (fitStart colorList n P selectedColors) = r' :: os'
    ∧ generationBody (r' :: os') = r :: os
    ∧ collectClusterAssignments n (r :: os) = withClusters r final :: os
    ∧ fitWork colorList n P selectedColors = Finished (S g) (withClusters r final :: os)
    ∧ length final = k
    ∧ map centroid final = map centroid (clusters r)
    ∧ prev r = clusters r'
    ∧ ∀ c, c < k →
        elements (nth c final noCluster)
        = map Z.of_nat
            (filter (λ i, nearestCluster (clusters r') (nth i colorList []) = c) (seq 0 n)).
Proof.
  intros HP Hk Hd1 Hn Hd Hs Hlt Hn255.
  destruct (fitStart_agreeing colorList n P selectedColors) as [Ha Hne]; try done.
  destruct (generations_run MAX_NUM_GENERATIONS 0 _ Ha Hne)
    as (j & Hj & Hrun & Hbefore & Hat).
  destruct j as [|g].
  { unfold MAX_NUM_GENERATIONS in Hat. simpl in Hat.
    rewrite fitStart_unstable in Hat by done. by specialize (Hat ltac:(lia)). }
  destruct (iter_agreeing _ g Ha Hne) as [Hag Hgne].
  pose proof (fitStart_sharded colorList n P selectedColors g) as Hsh.
  pose proof (fitStart_sharded colorList n P selectedColors (S g)) as Hsh'.
  rewrite iter_generationBody_S in Hrun, Hsh'.
  destruct (Nat.iter g generationBody (fitStart colorList n P selectedColors))
    as [|r' os'] eqn:Hiter; [done|].
  assert (Forall countsFit (generationBody (r' :: os'))) as Hfit.
  { eapply members_countsFit; [done|exact Hsh'|]. by apply generationBody_members. }
  destruct (generation_collected colorList n P r' os')
    as (r & os & final & Hbody & Hcollect & Hfl & Hcent & Hprev & Hels);
    [done|done|lia|done|done|done|done|done|].
  exists g, r', os', r, os, final.
  split; [done|]. split; [done|]. split; [done|]. split; [|done].
  unfold fitWork. by rewrite Hrun, Hbody, Hcollect.
Qed.

Lemma fit_collects_all (colorList : list Element) (n P : nat)
    (selectedColors : list nat) :
  1 ≤ P → 1 ≤ k → 1 ≤ d →
  length colorList = n → Forall (λ e, length e = d) colorList →
  length selectedColors = k → Forall (λ s, s < n) selectedColors →
  n ≤ 255 →
  ∃ final,
    fit colorList n P selectedColors = Some final
    ∧ length final = k
    ∧ concat (map elements final) ≡ₚ map Z.of_nat (seq 0 n).
Proof.
  intros HP Hk Hd1 Hn Hd Hs Hlt Hn255.
  destruct (fit_last_generation colorList n P selectedColors)
    as (g & r' & os' & r & os & final & Hiter & Hbody & Hcollect & Hwork & Hfl & _ & _ & _);
    try done.
  exists final. split; [unfold fit; by rewrite Hwork|]. split; [done|].
  pose proof (fitStart_sharded colorList n P selectedColors (S g)) as Hsh.
  rewrite iter_generationBody_S, Hiter, Hbody in Hsh.
  pose proof (generationBody_members (r' :: os') Hk) as Hmem. rewrite Hbody in Hmem.
  destruct (collectClusterAssignments_members colorList n P r os)
    as (final' & Hcollect' & _ & Hperm); [done|lia|done|done| |].
  { by eapply members_countsFit. }
  rewrite Hcollect in Hcollect'. by injection Hcollect' as ->.
Qed.

Lemma map_lookup_permutation {A} (l : list A) (x : A) (ids : list Z) :
  ids ≡ₚ map Z.of_nat (seq 0 (length l)) →
  map (λ j, nth (Z.to_nat j) l x) ids ≡ₚ l.
Proof.
  intros ->. rewrite map_map.
  rewrite (map_ext _ (λ j, nth j l x)) by (intros; by rewrite Nat2Z.id).
  by rewrite map_nth_seq.
Qed.

End Membership.

(** ** Running means *)

(** The centroid of a cluster is a running mean of its members, and the
    merged centroid a weighted mean of the reports. *)

Section Means.
Context `{KMeansMPI}.

Lemma foldr_add_app (f : Z → Z) (l : list Z) (i : Z) :
  (foldr Z.add 0 (map f (l ++ [i])) = foldr Z.add 0 (map f l) + f i)%Z.
Proof. induction l as [|a l IH]; simpl; lia. Qed.

Lemma assigned_running_mean (p : Proc) (ch : nat) (l : list nat) (cl : Clusters) :
  1 ≤ k → ch < d → length cl = k →
  (∀ i, i < maxNum p → is_uchar (nth ch (nth i (partition p) []) 0%Z)) →
  Forall (λ i, i < maxNum p) l →
  Forall (λ c, (Z.of_nat (length (elements c) + length l) < 2 ^ 31)%Z) cl →
  let channel (i : Z) := nth ch (nth (Z.to_nat i) (partition p) []) 0%Z in
  let good (c : Cluster) :=
    is_uchar (nth ch (centroid c) 0%Z)
    ∧ (elements c ≠ [] →
       (nth ch (centroid c) 0 * Z.of_nat (length (elements c))
        ≤ foldr Z.add 0 (map channel (elements c)))%Z
       ∧ ∀ lo hi, (∀ i, i ∈ elements c → (lo ≤ channel i ≤ hi)%Z) →
                  (lo ≤ nth ch (centroid c) 0 ≤ hi)%Z) in
  Forall good cl → Forall good (fold_left (assignElement p) l cl).
Proof.
  intros Hk Hch Hcl Hbytes Hl Hint channel good. revert cl Hcl Hint.
  induction l as [|i l IH]; intros cl Hcl Hint Hgood; [done|].
  apply Forall_cons in Hl as [Hi Hl]. cbn [fold_left].
  assert (∀ c, c ∈ cl → (Z.of_nat (length (elements c)) + 1 < 2 ^ 31)%Z) as Hsmall.
  { intros c Hc. rewrite Forall_forall in Hint. specialize (Hint c Hc).
    cbn [length] in Hint. lia. }
  apply IH; [done|unfold assignElement; by rewrite length_alter| |].
  { unfold assignElement. apply Forall_alter.
    - eapply Forall_impl; [exact Hint|]. intros c Hc. cbn [length] in Hc. lia.
    - intros c Hc _. cbn [elements]. rewrite length_app. cbn [length].
      rewrite Forall_forall in Hint.
      specialize (Hint c ltac:(by eapply list_elem_of_lookup_2)). cbn [length] in Hint. lia. }
  unfold assignElement. apply Forall_alter; [done|]. intros c Hlook [Hx Hc].
  specialize (Hsmall c ltac:(by eapply list_elem_of_lookup_2)).
  assert (channel (Z.of_nat i) = nth ch (nth i (partition p) []) 0%Z) as Hchan.
  { unfold channel. by rewrite Nat2Z.id. }
  pose proof (Hbytes i Hi) as Hxi.
  unfold good. cbn [elements centroid]. rewrite nth_updateCentroid_counts by (done || lia).
  rewrite <- Hchan in Hxi |- *.
  rewrite length_app, foldr_add_app. cbn [length].
  replace (Z.of_nat (length (elements c) + 1)) with (Z.of_nat (length (elements c)) + 1)%Z
    by lia.
  destruct (decide (elements c = [])) as [Hempty|Hne].
  - rewrite Hempty. cbn [length map foldr Z.of_nat].
    rewrite running_mean_first.
    split; [done|]. intros _. split; [lia|]. intros lo hi Hall. apply Hall.
    apply elem_of_app. right. left.
  - destruct (Hc Hne) as (Hsum & Hrange).
    assert (0 < Z.of_nat (length (elements c)))%Z as Hpos.
    { destruct (elements c); [done|simpl; lia]. }
    unfold is_uchar in Hx, Hxi.
    destruct (running_mean_step (nth ch (centroid c) 0%Z) (Z.of_nat (length (elements c)))
                (channel (Z.of_nat i)) 0%Z 255%Z
                (foldr Z.add 0%Z (map channel (elements c)))) as (Hb & Hs & _);
      [done|done|done|done|lia|lia|].
    split; [done|]. intros _. split; [done|].
    intros lo hi Hall.
    apply (running_mean_step (nth ch (centroid c) 0%Z) (Z.of_nat (length (elements c)))
             (channel (Z.of_nat i)) lo hi
             (foldr Z.add 0%Z (map channel (elements c)))); try done.
    + apply Hrange. intros j Hj. apply Hall, elem_of_app. by left.
    + apply Hall, elem_of_app. right. left.
Qed.

Lemma assignment_channel_range (p : Proc) (c ch : nat) (lo hi : Z) :
  1 ≤ k → c < k → ch < d → (0 ≤ lo)%Z → (hi ≤ 255)%Z → (Z.of_nat (maxNum p) < 2 ^ 31)%Z →
  (∀ i, i < maxNum p → (lo ≤ nth ch (nth i (partition p) []) 0 ≤ hi)%Z) →
  is_uchar (nth ch (centroid (nth c (clusters (assignment p)) noCluster)) 0%Z)
  ∧ (elements (nth c (clusters (assignment p)) noCluster) = []
     ∨ (lo ≤ nth ch (centroid (nth c (clusters (assignment p)) noCluster)) 0 ≤ hi)%Z).
Proof.
  intros Hk Hc Hch Hlo Hhi Hint Hrange.
  assert (∀ i, i < maxNum p → is_uchar (nth ch (nth i (partition p) []) 0%Z)) as Hbytes.
  { intros i Hi. specialize (Hrange i Hi). unfold is_uchar. lia. }
  pose proof (assigned_running_mean (savePrev (updateDistances p)) ch (seq 0 (maxNum p))
                resetClusters Hk Hch length_resetClusters Hbytes) as Hall.
  cbv zeta in Hall.
  assert (Forall (λ i, i < maxNum p) (seq 0 (maxNum p))) as Hseq.
  { apply Forall_forall. intros i Hi%list_elem_of_In%in_seq. lia. }
  specialize (Hall Hseq).
  assert (Forall (λ c : Cluster,
                    (Z.of_nat (length (elements c) + length (seq 0 (maxNum p))) < 2 ^ 31)%Z)
                 resetClusters) as Hstart.
  { apply Forall_replicate. cbn [elements length]. by rewrite length_seq. }
  specialize (Hall Hstart).
  assert (Forall (λ c : Cluster,
                    is_uchar (nth ch (centroid c) 0%Z)
                    ∧ (elements c ≠ [] →
                       (nth ch (centroid c) 0 * Z.of_nat (length (elements c))
                        ≤ foldr Z.add 0
                            (map (λ i, nth ch (nth (Z.to_nat i) (partition p) []) 0)
                                 (elements c)))%Z
                       ∧ ∀ lo hi,
                           (∀ i, i ∈ elements c →
                                 (lo ≤ nth ch (nth (Z.to_nat i) (partition p) []) 0 ≤ hi)%Z) →
                           (lo ≤ nth ch (centroid c) 0 ≤ hi)%Z))
                 resetClusters) as Hzero.
  { apply Forall_replicate. cbn [elements centroid]. split; [|done].
    rewrite nth_lookup, lookup_replicate_2 by done. unfold is_uchar. simpl. lia. }
  specialize (Hall Hzero).
  rewrite Forall_forall in Hall.
  destruct (Hall (nth c (clusters (assignment p)) noCluster)) as [Hbyte Hgood].
  { apply list_elem_of_In, (nth_In (clusters (assignment p))).
    by rewrite length_assignment. }
  split; [done|].
  destruct (decide (elements (nth c (clusters (assignment p)) noCluster) = []))
    as [Hempty|Hne]; [by left|].
  right. apply (Hgood Hne). intros i Hi.
  rewrite assignment_elements in Hi by done.
  apply list_elem_of_fmap in Hi as (i' & -> & Hi'%list_elem_of_filter).
  destruct Hi' as [_ Hi'%list_elem_of_In%in_seq]. rewrite Nat2Z.id.
  apply Hrange. lia.
Qed.

Lemma mergedUpTo_range (recvbuf : list Z) (P c : nat) (C : Cluster)
    (ch : nat) (lo hi : Z) :
  ch < d → (0 ≤ lo)%Z → (hi ≤ 255)%Z →
  (Z.of_nat (length (elements C)) + 255 * Z.of_nat P < 2 ^ 31)%Z →
  is_uchar (nth ch (centroid C) 0%Z) →
  (elements C = [] ∨ lo ≤ nth ch (centroid C) 0 ≤ hi)%Z →
  (∀ z, z < P →
     (0 ≤ reportSize recvbuf z c ≤ 255)%Z
     ∧ is_uchar (nth ch (reportCentroid recvbuf z c) 0%Z)
     ∧ (reportSize recvbuf z c = 0 ∨ lo ≤ nth ch (reportCentroid recvbuf z c) 0 ≤ hi)%Z) →
  let acc := mergedUpTo recvbuf P c C in
  (Z.of_nat (length (elements C)) ≤ acc.2
   ≤ Z.of_nat (length (elements C)) + 255 * Z.of_nat P)%Z
  ∧ (∀ z, z < P → (reportSize recvbuf z c ≤ acc.2)%Z)
  ∧ is_uchar (nth ch acc.1 0%Z)
  ∧ (acc.2 = 0 ∨ lo ≤ nth ch acc.1 0 ≤ hi)%Z.
Proof.
  intros Hch Hlo Hhi Hint Hbyte HC Hreports. induction P as [|P IH].
  - cbv zeta. change (mergedUpTo recvbuf 0 c C)
      with (centroid C, Z.of_nat (length (elements C))). cbn [fst snd].
    split; [lia|]. split; [intros; lia|]. split; [done|].
    destruct HC as [->|HC]; [by left|by right].
  - destruct IH as (Hsize & Hsizes & Hb & Hacc); [lia|intros; apply Hreports; lia|].
    cbv zeta. rewrite mergedUpTo_S. unfold mergeRank. cbn [fst snd].
    destruct (Hreports P ltac:(lia)) as (Hs' & Hb' & Hx').
    set (acc := mergedUpTo recvbuf P c C) in *.
    split; [lia|]. split.
    { intros z Hz. destruct (decide (z = P)) as [->|]; [lia|].
      specialize (Hsizes z ltac:(lia)). lia. }
    split; [apply is_uchar_updateCentroid|].
    destruct (decide (acc.2 + reportSize recvbuf P c = 0)%Z) as [Hz|Hnz]; [by left|].
    right. rewrite nth_updateCentroid_counts by (done || lia).
    apply weighted_mean_between; (done || lia).
Qed.

Lemma generationBody_merged (r : Proc) (os : list Proc) (c : nat) (q : Proc) :
  c < k → q ∈ generationBody (r :: os) →
  centroid (nth c (clusters q) noCluster)
  = (mergedUpTo
       (MPI_Gather (k * (d + 1))
          (map (λ p, serializeClusters (clusters p)) (map assignment (r :: os))))
       (S (length os)) c (nth c (clusters (assignment r)) noCluster)).1.
Proof.
  intros Hc Hq.
  assert (∀ cl : Clusters, nth c cl noCluster = default noCluster (cl !! c)) as Hnth
    by (intros; apply nth_lookup).
  unfold generationBody in Hq. cbn [map] in Hq.
  rewrite combineClusters_cons, distributeCentroids_cons in Hq.
  cbn [clusters withClusters] in Hq. rewrite length_map in Hq.
  rewrite mergeClusters_rank_order in Hq by apply length_assignment.
  set (recvbuf := MPI_Gather _ _) in *.
  set (merged := mergedInRankOrder _ _ _) in *.
  assert (length merged = k ∧ Forall (λ c, length (centroid c) = d) merged) as [Hlen Hwf].
  { split.
    - unfold merged, mergedInRankOrder. rewrite length_imap. apply length_assignment.
    - apply mergedInRankOrder_wf, assignment_wf. }
  assert (centroid (nth c merged noCluster)
          = (mergedUpTo recvbuf (S (length os)) c
               (nth c (clusters (assignment r)) noCluster)).1) as Hroot.
  { unfold merged, mergedInRankOrder. rewrite !Hnth, list_lookup_imap.
    destruct (lookup_lt_is_Some_2 (clusters (assignment r)) c) as [C HC].
    { by rewrite length_assignment. }
    by rewrite HC. }
  apply elem_of_cons in Hq as [->|Hq]; [done|].
  apply list_elem_of_fmap in Hq as (p & -> & Hp). cbn [clusters withClusters].
  apply list_elem_of_fmap in Hp as (p0 & -> & Hp0).
  rewrite <- Hroot. rewrite <- !(map_nth centroid). cbn [centroid noCluster].
  f_equal. apply receiveCentroids_centroids; [done|apply length_assignment|done].
Qed.

Lemma generationBody_bytes (ps : list Proc) (c : nat) (q : Proc) :
  c < k → q ∈ generationBody ps → Forall is_uchar (centroid (nth c (clusters q) noCluster)).
Proof.
  intros Hc Hq. destruct ps as [|r os]; [by apply elem_of_nil in Hq|].
  rewrite (generationBody_merged r os c q Hc Hq), mergedUpTo_S.
  unfold mergeRank. cbn [fst]. apply updateCentroid_bytes.
Qed.

End Means.

(** * The properties of the specification *)

(** C1, as amended.  In a round in which a cluster receives no element from any
    worker, the cluster is the one that [updateClusters] left by its reset on
    every worker: no members and the zero-filled centroid [Element{}].  The
    report of every rank that the coordinator gathers for this cluster is
    the zero-filled centroid with the count 0. *)
Theorem empty_cluster_centroid `{KMeansMPI} (ps : list Proc) (i : nat) :
  i < k →
  (∀ p, p ∈ ps → elements (nth i (clusters (assignment p)) noCluster) = []) →
  let recvbuf :=
    MPI_Gather (k * (d + 1)) (map (λ p, serializeClusters (clusters p)) (map assignment ps)) in
  (∀ p, p ∈ ps →
     nth i (clusters (assignment p)) noCluster = mkCluster [] (replicate d 0%Z))
  ∧ (∀ z, z < length ps →
       reportCentroid recvbuf z i = replicate d 0%Z ∧ reportSize recvbuf z i = 0%Z).
Proof.
  intros Hi Hempty recvbuf.
  assert (∀ p, p ∈ ps →
            nth i (clusters (assignment p)) noCluster = mkCluster [] (replicate d 0%Z))
    as Hreset by (intros p Hp; by apply empty_cluster_reset, Hempty).
  split; [done|].
  intros z Hz. destruct (lookup_lt_is_Some_2 ps z Hz) as [p Hp].
  assert (p ∈ ps) as Hin by (by eapply list_elem_of_lookup_2).
  assert (map assignment ps !! z = Some (assignment p)) as Hz'
    by (by rewrite list_lookup_fmap, Hp).
  unfold recvbuf. split.
  - rewrite (reportCentroid_gathered _ z i (assignment p)) by
      (done || rewrite Hreset by done; apply length_replicate).
    by rewrite Hreset.
  - rewrite (reportSize_gathered _ z i (assignment p)) by done.
    by rewrite Hreset.
Qed.

(** Two equal colours, [k = 2], one worker: cluster 1 stays empty, and its
    centroid [[10]] is replaced by [[0]] before the reports are sent. *)
Lemma empty_cluster_centroid_witness :
  let K := MNISTKMeansMPI 2 1 in
  let ps := @fitStart K (twins 10) 2 1 [0; 1] in
  let recvbuf :=
    @MPI_Gather (2 * (1 + 1))
      (map (λ p, @serializeClusters K (clusters p)) (map (@assignment K) ps)) in
  (∀ p, p ∈ ps → nth 1 (clusters (@assignment K p)) noCluster = mkCluster [] [0%Z])
  ∧ (∀ z, z < length ps →
       @reportCentroid K recvbuf z 1 = [0%Z] ∧ @reportSize K recvbuf z 1 = 0%Z).
Proof.
  intros K ps.
  apply (@empty_cluster_centroid K ps 1); [simpl; lia|].
  intros p Hp. vm_compute in Hp. apply list_elem_of_singleton in Hp as ->. reflexivity.
Defined.

(** C1 as stated fails whatever the conversion of the quotient [0.0 / 0] to
    [int] leaves in [size]: no value [u] lets cluster 1 keep its centroid
    both for the colour 10 and for the colour 11. *)
Lemma empty_cluster_not_retained :
  ¬ ∃ u : Z,
      let K := Build_KMeansMPI 2 1 (calculateEuclideanDistance 1) u in
      ∀ colour : Z, colour ∈ [10%Z; 11%Z] →
        let ps := @fitStart K (twins colour) 2 1 [0; 1] in
        (∀ p, p ∈ ps → elements (nth 1 (clusters (@assignment K p)) noCluster) = []) →
        ∀ p q, p ∈ ps → q ∈ @generationBody K ps →
          centroid (nth 1 (clusters q) noCluster) = centroid (nth 1 (clusters p) noCluster).
Proof.
  intros [u Hu]. cbv zeta in Hu.
  set (K := Build_KMeansMPI 2 1 (calculateEuclideanDistance 1) u) in Hu.
  assert (∀ colour : Z, colour = 10%Z ∨ colour = 11%Z →
            hd [] (map (λ q, centroid (nth 1 (clusters q) noCluster))
                       (@generationBody K (@fitStart K (twins colour) 2 1 [0; 1])))
            = [colour]) as Hsame.
  { intros colour Hc.
    assert (colour ∈ [10%Z; 11%Z]) as Hin
      by (destruct Hc as [-> | ->]; [left|right; left]).
    specialize (Hu colour Hin).
    assert (∃ p, @fitStart K (twins colour) 2 1 [0; 1] = [p]
                 ∧ elements (nth 1 (clusters (@assignment K p)) noCluster) = []
                 ∧ centroid (nth 1 (clusters p) noCluster) = [colour]) as (p & Hps & Hempty & Hp).
    { destruct Hc as [-> | ->]; (eexists; split; [vm_compute; reflexivity|]);
        split; vm_compute; reflexivity. }
    rewrite Hps in Hu |- *.
    destruct (@generationBody K [p]) as [|q qs] eqn:Hq.
    { exfalso. revert Hq. unfold generationBody. cbn [map].
      rewrite combineClusters_cons, distributeCentroids_cons. done. }
    cbn [map hd]. rewrite <- Hp. apply Hu; [|left|left].
    intros p' Hp'. by apply list_elem_of_singleton in Hp' as ->. }
  pose proof (Hsame 10%Z ltac:(by left)) as H10.
  pose proof (Hsame 11%Z ltac:(by right)) as H11.
  vm_compute in H10, H11. rewrite H10 in H11. discriminate.
Qed.

(** C2, as amended.  For a dataset of [n <= 256] elements the run ends, and
    when no cluster of any worker then has more than 255 members (which is
    so whenever [n <= 255]), the membership lists that the coordinator
    collects hold every index [0 .. n-1] exactly once. *)
Theorem fit_identity_roundtrip `{KMeansMPI} (colorList : list Element) (n P : nat)
    (selectedColors : list nat) :
  1 ≤ P → 1 ≤ k → 1 ≤ d →
  length colorList = n → Forall (λ e, length e = d) colorList →
  length selectedColors = k → Forall (λ s, s < n) selectedColors →
  n ≤ 256 →
  ∃ generation ps,
    generations MAX_NUM_GENERATIONS 0 (fitStart colorList n P selectedColors)
    = Finished generation ps
    ∧ (n ≤ 255 → Forall countsFit ps)
    ∧ (Forall countsFit ps →
       ∃ final,
         fit colorList n P selectedColors = Some final
         ∧ length final = k
         ∧ concat (map elements final) ≡ₚ map Z.of_nat (seq 0 n)).
Proof.
  intros HP Hk Hd1 Hn Hd Hs Hlt Hn256.
  destruct (fitStart_agreeing colorList n P selectedColors) as [Ha Hne]; try done.
  destruct (generations_run MAX_NUM_GENERATIONS 0 _ Ha Hne)
    as (g & Hg & Hrun & Hbefore & Hat).
  destruct g as [|g].
  { unfold MAX_NUM_GENERATIONS in Hat. simpl in Hat.
    rewrite fitStart_unstable in Hat by done. by specialize (Hat ltac:(lia)). }
  pose proof (fitStart_sharded colorList n P selectedColors (S g)) as Hsh.
  pose proof (generationBody_members
                (Nat.iter g generationBody (fitStart colorList n P selectedColors)) Hk)
    as Hmem.
  change (generationBody (Nat.iter g generationBody ?s))
    with (Nat.iter (S g) generationBody s) in Hmem.
  remember (Nat.iter (S g) generationBody (fitStart colorList n P selectedColors))
    as ps eqn:Hps.
  exists (0 + S g), ps. split; [exact Hrun|]. split.
  - intros Hn255. by eapply members_countsFit.
  - intros Hfit. destruct ps as [|r os].
    { apply sharded_length in Hsh. simpl in Hsh. lia. }
    destruct (collectClusterAssignments_members colorList n P r os)
      as (final & Hcollect & Hlen & Hperm); try done.
    exists final. split; [|done].
    unfold fit, fitWork. rewrite Hrun, Hcollect. done.
Qed.

(** The example of the specification on two workers. *)
Lemma fit_identity_roundtrip_witness :
  ∃ final,
    @fit (MNISTKMeansMPI 2 1) spec_example 8 2 [0; 4] = Some final
    ∧ length final = 2
    ∧ concat (map elements final) ≡ₚ map Z.of_nat (seq 0 8).
Proof.
  destruct (@fit_identity_roundtrip (MNISTKMeansMPI 2 1) spec_example 8 2 [0; 4])
    as (generation & ps & _ & Hfit & Hfinal);
    [simpl; lia|simpl; lia|simpl; lia|done|by repeat constructor|done
    |repeat constructor; lia|lia|].
  apply Hfinal, Hfit. lia.
Defined.

(** C2 as stated fails for 257 elements on two workers: the identity of
    element 256 travels as the byte 0, so 0 is collected twice and 256 never. *)
Lemma fit_identity_wraps :
  ∃ final,
    @fit (MNISTKMeansMPI 1 1) (replicate 257 [7%Z]) 257 2 [0] = Some final
    ∧ (256%Z ∉ concat (map elements final))
    ∧ ¬ (concat (map elements final) ≡ₚ map Z.of_nat (seq 0 257)).
Proof.
  eexists. split; [vm_compute; reflexivity|].
  assert (256%Z ∉ concat (map elements
            [mkCluster (map Z.of_nat (seq 0 256) ++ [0%Z]) [7%Z]])) as Hnot.
  { apply (bool_decide_eq_false_1 _). vm_compute. reflexivity. }
  split.
  - exact Hnot.
  - intros Hperm. apply Hnot. rewrite Hperm.
    apply list_elem_of_fmap. exists 256. split; [done|].
    apply list_elem_of_In, in_seq. lia.
Qed.

(** The bound on the member counts is needed as well: 256 elements in one
    cluster of one worker are announced as 0 members, and none is collected. *)
Lemma fit_count_wraps :
  @fit (MNISTKMeansMPI 1 1) (replicate 256 [7%Z]) 256 1 [0] = Some [mkCluster [] [7%Z]].
Proof. vm_compute. reflexivity. Qed.

(** The example of the specification, started at the elements 0 and 1. *)
Lemma fit_spec_example :
  @fit (MNISTKMeansMPI 2 1) spec_example 8 2 [0; 1]
  = Some [mkCluster [0; 1; 2; 3]%Z [0%Z]; mkCluster [4; 5; 6; 7]%Z [100%Z]].
Proof. vm_compute. reflexivity. Qed.

(** C3.  With [P >= 1] workers every rank but the last gets [n / P] elements
    and the last gets [n - (P-1) * (n/P)]; the shard of [rank] is the slice of
    the dataset that starts at [rank * (n/P)], with the global indices as
    bytes beside it, and the shards in rank order make up the dataset. *)
Theorem partitionColors_shards `{KMeansMPI} (colorList : list Element) (n P rank : nat)
    (p : Proc) :
  1 ≤ P → rank < P → length colorList = n → Forall (λ e, length e = d) colorList →
  let shards := map (λ rank, partitionColors colorList n P rank p) (seq 0 P) in
  let q := partitionColors colorList n P rank p in
  maxNum q = (if decide (rank = P - 1) then n - (P - 1) * (n / P) else n / P)
  ∧ length (partition q) = maxNum q
  ∧ partition q = take (maxNum q) (drop (rank * (n / P)) colorList)
  ∧ colorIds q = map (λ i, uchar (Z.of_nat (rank * (n / P) + i))) (seq 0 (maxNum q))
  ∧ concat (map partition shards) = colorList.
Proof.
  intros HP Hr Hn Hd shards q.
  assert (maxNum q = shardSize n P rank) as Hmax by done.
  pose proof (shard_end n P rank Hr) as Hend.
  split; [|split; [|split; [|split]]].
  - rewrite Hmax. unfold shardSize.
    destruct (decide (rank = P - 1)); [by rewrite Nat.mul_comm|done].
  - rewrite Hmax. unfold q. rewrite partitionColors_partition by done.
    rewrite length_take, length_drop, Hn. lia.
  - rewrite Hmax. unfold q. by rewrite partitionColors_partition.
  - rewrite Hmax. by apply partitionColors_colorIds.
  - subst shards. rewrite map_map, <- flat_map_concat_map.
    rewrite (flat_map_ext_seq _
               (λ z, map (λ a, nth a colorList []) (seq (z * (n / P)) (shardSize n P z)))).
    + rewrite flat_map_concat_map.
      rewrite <- (map_map (λ z, seq (z * (n / P)) (shardSize n P z))
                          (map (λ a, nth a colorList []))).
      rewrite <- concat_map, <- flat_map_concat_map, shards_cover by done.
      rewrite <- Hn. apply map_nth_seq.
    + intros z Hz. rewrite partitionColors_partition by (done || lia).
      pose proof (shard_end n P z ltac:(lia)).
      rewrite (take_drop_nth_seq _ _ _ []) by lia.
      by rewrite (map_seq_shift (λ a, nth a colorList [])).
Qed.

(** Eight elements on three workers: the last one gets four. *)
Lemma partitionColors_shards_witness :
  let shards := map (λ rank, @partitionColors (MNISTKMeansMPI 2 1) spec_example 8 3 rank
                               (@newProc (MNISTKMeansMPI 2 1))) (seq 0 3) in
  let q := @partitionColors (MNISTKMeansMPI 2 1) spec_example 8 3 2
             (@newProc (MNISTKMeansMPI 2 1)) in
  maxNum q = (if decide (2 = 3 - 1) then 8 - (3 - 1) * (8 / 3) else 8 / 3)
  ∧ length (partition q) = maxNum q
  ∧ partition q = take (maxNum q) (drop (2 * (8 / 3)) spec_example)
  ∧ colorIds q = map (λ i, uchar (Z.of_nat (2 * (8 / 3) + i))) (seq 0 (maxNum q))
  ∧ concat (map partition shards) = spec_example.
Proof.
  apply (@partitionColors_shards (MNISTKMeansMPI 2 1) spec_example 8 3 2);
    [lia|lia|done|by repeat constructor].
Defined.

(** C4.  When the distances from a local element to the [k] centroids are
    numbers (no NaN), the assignment phase puts the element into exactly one
    cluster [c]; the distance to the centroid of [c] is minimal, and strictly
    smaller than the distance to every centroid of lower index. *)
Theorem assignment_nearest `{KMeansMPI} (p : Proc) (i : nat) :
  1 ≤ k → i < maxNum p →
  let e := nth i (partition p) [] in
  let distanceTo j := distance (centroid (nth j (clusters p) noCluster)) e in
  (∀ j, j < k → is_nan (distanceTo j) = false) →
  ∃ c, c < k
    ∧ (∀ c', c' < k →
         Z.of_nat i ∈ elements (nth c' (clusters (assignment p)) noCluster) ↔ c' = c)
    ∧ (∀ j, j < k → (distanceTo c <=? distanceTo j)%float = true)
    ∧ (∀ j, j < c → (distanceTo c <? distanceTo j)%float = true).
Proof.
  intros Hk Hi e distanceTo Hnan.
  set (row := nth i (dist (updateDistances p)) []).
  assert (∀ j, j < k → nth j row nan = distanceTo j) as Hrow.
  { intros j Hj. by apply nth_updateDistances. }
  destruct (nearest_spec row Hk) as (Hc & Hle & Hlt).
  { intros j Hj. rewrite Hrow by done. by apply Hnan. }
  exists (nearest row). split; [done|]. split; [|split].
  - intros c' Hc'. rewrite assignment_cluster_of by done. fold row. split; by intros ->.
  - intros j Hj. rewrite <- !Hrow by done. by apply Hle.
  - intros j Hj. rewrite <- !Hrow by lia. by apply Hlt.
Qed.

(** An element at the same distance from both centroids goes to cluster 0. *)
Lemma assignment_nearest_witness :
  0%Z ∈ elements (nth 0 (clusters (@assignment (MNISTKMeansMPI 2 1) equidistant)) noCluster).
Proof.
  destruct (@assignment_nearest (MNISTKMeansMPI 2 1) equidistant 0)
    as (c & Hc & Hin & _ & Hlt); [simpl; lia|simpl; lia| |].
  - intros [|[|j]] Hj; [vm_compute; reflexivity|vm_compute; reflexivity|simpl in Hj; lia].
  - destruct c as [|[|c]].
    + apply (Hin 0); [simpl; lia|done].
    + specialize (Hlt 0 ltac:(lia)). vm_compute in Hlt. discriminate.
    + simpl in Hc. lia.
Defined.

(** C5, as amended.  The channels are bytes and the counts are [int]s whose sum
    is positive and itself an [int]: [0 < old_count + new_count < 2^31].
    When the quotient [(old_mean[i]*old_count + new_value[i]*new_count) /
    (old_count + new_count)], truncated towards zero, is an [int], the
    binary64 quotient converts to exactly this integer and [updateCentroid]
    sets channel [i] to its conversion to [unsigned char].  For counts that
    are not negative the truncated quotient is a byte, and channel [i] is
    that byte. *)
Theorem updateCentroid_mean `{KMeansMPI} (centroid : Element) (old_count : Z)
    (new_value : Element) (new_count : Z) (i : nat) :
  i < d →
  is_uchar (nth i centroid 0%Z) → is_uchar (nth i new_value 0%Z) →
  is_int old_count → is_int new_count →
  (0 < old_count + new_count < 2 ^ 31)%Z →
  let mean := ((nth i centroid 0 * old_count + nth i new_value 0 * new_count)
               ÷ (old_count + new_count))%Z in
  let sum := (to_double (nth i centroid 0%Z) * int_to_double old_count
              + to_double (nth i new_value 0%Z) * int_to_double new_count)%float in
  let n := int32 (old_count + new_count) in
  (is_int mean →
   double_to_int (sum / int_to_double n) = Some mean
   ∧ nth i (updateCentroid centroid old_count new_value new_count) 0%Z = uchar mean)
  ∧ ((0 ≤ old_count)%Z → (0 ≤ new_count)%Z →
     nth i (updateCentroid centroid old_count new_value new_count) 0%Z = mean
     ∧ is_uchar mean
     ∧ mean = ((nth i centroid 0 * old_count + nth i new_value 0 * new_count)
               / (old_count + new_count))%Z).
Proof.
  intros Hi Hc He Ho Hn Hsum mean sum n. split.
  - intros Hmean.
    assert (double_to_int (sum / int_to_double n) = Some mean) as Hquot
      by (by apply updateCentroid_quotient_int).
    split; [done|]. rewrite nth_updateCentroid by done. fold sum n. by rewrite Hquot.
  - intros Hold Hnew.
    assert (mean = ((nth i centroid 0 * old_count + nth i new_value 0 * new_count)
                    / (old_count + new_count))%Z) as Hdiv.
    { unfold mean. apply Z.quot_div_nonneg; unfold is_uchar in *; nia. }
    split; [|split; [|done]].
    + rewrite Hdiv. by apply nth_updateCentroid_counts.
    + rewrite Hdiv. apply weighted_mean_range; unfold is_uchar in *; lia.
Qed.

(** Two elements of mean 100 and one of value 103 give 101; the counts 2 and
    -1 give 97. *)
Lemma updateCentroid_mean_witness :
  nth 0 (@updateCentroid (MNISTKMeansMPI 2 1) [100%Z] 2 [103%Z] 1) 0%Z = 101%Z
  ∧ is_uchar 101
  ∧ nth 0 (@updateCentroid (MNISTKMeansMPI 2 1) [100%Z] 2 [103%Z] (- 1)) 0%Z = uchar 97.
Proof.
  destruct (@updateCentroid_mean (MNISTKMeansMPI 2 1) [100%Z] 2 [103%Z] 1 0)
    as [_ Hcounts];
    [simpl; lia|by vm_compute|by vm_compute|by vm_compute|by vm_compute|lia|].
  destruct Hcounts as (Hnth & Hbyte & _); [lia|lia|].
  destruct (@updateCentroid_mean (MNISTKMeansMPI 2 1) [100%Z] 2 [103%Z] (- 1) 0)
    as [Hsigned _];
    [simpl; lia|by vm_compute|by vm_compute|by vm_compute|by vm_compute|lia|].
  split; [exact Hnth|]. split; [exact Hbyte|]. apply Hsigned. by vm_compute.
Defined.

(** C5 as stated fails when the sum of the counts is not an [int]: for the
    counts 2147483647 and 1 the sum [n] is [-2^31], and the mean of 255 and
    255 becomes 1. *)
Lemma updateCentroid_count_overflow :
  (2147483647 + 1 > 0)%Z
  ∧ nth 0 (@updateCentroid (MNISTKMeansMPI 1 1) [255%Z] 2147483647 [255%Z] 1) 0%Z = 1%Z
  ∧ ((255 * 2147483647 + 255 * 1) / (2147483647 + 1) = 255)%Z.
Proof. split; [lia|]. split; vm_compute; reflexivity. Qed.

(** C6.  After the assignment phase of any generation every local index of a
    worker's shard is in the membership list of exactly one cluster of that
    worker, exactly once, and the membership counts of all clusters of all
    workers add up to [n]. *)
Theorem assignment_membership `{KMeansMPI} (colorList : list Element) (n P : nat)
    (selectedColors : list nat) (j : nat) :
  1 ≤ P → 1 ≤ k →
  let ps := map assignment
              (Nat.iter j generationBody (fitStart colorList n P selectedColors)) in
  Forall (λ p, membersOf p ≡ₚ map Z.of_nat (seq 0 (maxNum p))
               ∧ ∀ i, i < maxNum p →
                   ∃ c, c < k
                     ∧ ∀ c', c' < k →
                         Z.of_nat i ∈ elements (nth c' (clusters p) noCluster) ↔ c' = c)
         ps
  ∧ list_sum (map (λ p, list_sum (map (λ c, length (elements c)) (clusters p))) ps) = n.
Proof.
  intros HP Hk ps. split.
  - apply Forall_fmap, Forall_forall. intros p _. cbv beta. unfold compose.
    change (maxNum (assignment p)) with (maxNum p). split.
    + by apply assignment_members.
    + intros i Hi.
      exists (nearest (nth i (dist (updateDistances p)) [])).
      split; [by apply nearest_lt|]. intros c' Hc'.
      rewrite assignment_cluster_of by done. split; by intros ->.
  - subst ps. rewrite map_map.
    pose proof (fitStart_sharded colorList n P selectedColors j) as Hsh.
    set (qs := Nat.iter j generationBody _) in *.
    rewrite (map_by_index _ (λ z, shardSize n P z)).
    + rewrite (sharded_length _ _ _ _ Hsh).
      trans (length (flat_map (λ z, seq (z * (n / P)) (shardSize n P z)) (seq 0 P))).
      * rewrite length_flat_map_sum. f_equal.
        apply map_ext. intros z. by rewrite length_seq.
      * by rewrite shards_cover, length_seq.
    + intros z p Hz. destruct (sharded_lookup _ _ _ _ _ _ Hsh Hz) as (_ & Hmax & _).
      rewrite <- Hmax. pose proof (assignment_members p Hk) as Hp.
      apply Permutation_length in Hp. rewrite length_map, length_seq in Hp.
      rewrite <- Hp. unfold membersOf. by rewrite length_concat, map_map.
Qed.

(** The second generation of the example of the specification. *)
Lemma assignment_membership_witness :
  let ps := map (@assignment (MNISTKMeansMPI 2 1))
              (Nat.iter 1 (@generationBody (MNISTKMeansMPI 2 1))
                 (@fitStart (MNISTKMeansMPI 2 1) spec_example 8 2 [0; 4])) in
  Forall (λ p, membersOf p ≡ₚ map Z.of_nat (seq 0 (maxNum p))
               ∧ ∀ i, i < maxNum p →
                   ∃ c, c < 2
                     ∧ ∀ c', c' < 2 →
                         Z.of_nat i ∈ elements (nth c' (clusters p) noCluster) ↔ c' = c)
         ps
  ∧ list_sum (map (λ p, list_sum (map (λ c, length (elements c)) (clusters p))) ps) = 8.
Proof.
  apply (@assignment_membership (MNISTKMeansMPI 2 1) spec_example 8 2 [0; 4] 1);
    simpl; lia.
Defined.

(** C7.  When the centroids after the broadcast of generation [j + 1] are
    those after generation [j], the loop runs no generation after that one
    (exactly [j + 1] when none before it was stable), and the run ends
    [CONVERGED]; it stays below the cap of generations unless [j + 1] is the
    cap itself. *)
Theorem fitWork_converged `{KMeansMPI} (colorList : list Element) (n P : nat)
    (selectedColors : list nat) (j : nat) :
  1 ≤ P → length colorList = n → Forall (λ e, length e = d) colorList →
  length selectedColors = k → Forall (λ s, s < n) selectedColors →
  let after j := Nat.iter j generationBody (fitStart colorList n P selectedColors) in
  let run := fitWork colorList n P selectedColors in
  j < MAX_NUM_GENERATIONS →
  map (λ p, map centroid (clusters p)) (after (S j))
  = map (λ p, map centroid (clusters p)) (after j) →
  ∃ generation,
    generation ≤ S j
    ∧ run = Finished generation (collectClusterAssignments n (after generation))
    ∧ terminalState run = Some CONVERGED
    ∧ (generation < MAX_NUM_GENERATIONS ∨ S j = MAX_NUM_GENERATIONS)
    ∧ ((∀ j', j' ≤ j → forallb stable (after j') = false) → generation = S j).
Proof.
  intros HP Hn Hd Hs Hlt after run Hj Hsame.
  destruct (fitStart_agreeing colorList n P selectedColors) as [Ha Hne]; try done.
  assert (forallb stable (after (S j)) = true) as Hstable.
  { apply forallb_all_true, Forall_forall. intros p Hp.
    unfold stable. rewrite clusters_eqb_centroids. apply bool_decide_eq_true_2.
    apply list_elem_of_lookup in Hp as [z Hz].
    assert (map (λ p, map centroid (prev p)) (after (S j))
            = map (λ p, map centroid (clusters p)) (after j)) as Hprev.
    { change (after (S j)) with (generationBody (after j)).
      rewrite <- (map_map prev (map centroid) (generationBody (after j))).
      by rewrite prev_generationBody, map_map. }
    rewrite <- Hsame in Hprev.
    apply (f_equal (λ l, l !! z)) in Hprev. rewrite !list_lookup_fmap, Hz in Hprev.
    by injection Hprev. }
  subst after run. cbv beta in *.
  destruct (generations_run MAX_NUM_GENERATIONS 0 _ Ha Hne)
    as (g & Hg & Hrun & Hbefore & Hat).
  assert (g ≤ S j) as Hle.
  { destruct (decide (g ≤ S j)) as [|Hgt]; [done|].
    rewrite (Hbefore (S j)) in Hstable by lia. done. }
  exists g. unfold fitWork. rewrite Hrun. cbn [Nat.add terminalState].
  rewrite collectClusterAssignments_stable.
  split; [done|]. split; [done|]. split; [|split; [lia|]].
  - destruct (decide (g = S j)) as [->|]; [by rewrite Hstable|].
    rewrite Hat by lia. done.
  - intros Hnot. destruct (decide (g = S j)) as [|Hne']; [done|].
    assert (g ≤ j) as Hgj by lia. specialize (Hnot g Hgj).
    rewrite Hat in Hnot by lia. done.
Qed.

(** The example of the specification started at the centroids 0 and 100. *)
Lemma fitWork_converged_witness :
  let run := @fitWork (MNISTKMeansMPI 2 1) spec_example 8 2 [0; 4] in
  ∃ generation, generation ≤ 1 ∧ terminalState run = Some CONVERGED.
Proof.
  destruct (@fitWork_converged (MNISTKMeansMPI 2 1) spec_example 8 2 [0; 4] 0)
    as (generation & Hle & _ & Hterminal & _ & _);
    [lia|done|by repeat constructor|done|repeat constructor; lia
    |unfold MAX_NUM_GENERATIONS; lia|vm_compute; reflexivity|].
  exists generation. by split.
Defined.

(** C8.  [MAX_NUM_GENERATIONS] is 300.  Every run ends, after at most that many
    generations, none of them started from stable clusters; a run that ends
    [CAPPED] ran exactly that many, and a run whose clusters are never stable
    runs exactly that many and ends [CAPPED]. *)
Theorem fitWork_generation_cap `{KMeansMPI} (colorList : list Element) (n P : nat)
    (selectedColors : list nat) :
  1 ≤ P → length colorList = n → Forall (λ e, length e = d) colorList →
  length selectedColors = k → Forall (λ s, s < n) selectedColors →
  let after j := Nat.iter j generationBody (fitStart colorList n P selectedColors) in
  let run := fitWork colorList n P selectedColors in
  MAX_NUM_GENERATIONS = 300
  ∧ ∃ generation,
      run = Finished generation (collectClusterAssignments n (after generation))
      ∧ generation ≤ MAX_NUM_GENERATIONS
      ∧ (∀ j, j < generation → forallb stable (after j) = false)
      ∧ (terminalState run = Some CAPPED → generation = MAX_NUM_GENERATIONS)
      ∧ ((∀ j, j < MAX_NUM_GENERATIONS → forallb stable (after j) = false) →
         generation = MAX_NUM_GENERATIONS)
      ∧ ((∀ j, j ≤ MAX_NUM_GENERATIONS → forallb stable (after j) = false) →
         terminalState run = Some CAPPED).
Proof.
  intros HP Hn Hd Hs Hlt after run. split; [done|].
  destruct (fitStart_agreeing colorList n P selectedColors) as [Ha Hne]; try done.
  destruct (generations_run MAX_NUM_GENERATIONS 0 _ Ha Hne)
    as (g & Hg & Hrun & Hbefore & Hat).
  exists g. subst run. unfold fitWork. rewrite Hrun. cbn [Nat.add terminalState].
  rewrite collectClusterAssignments_stable.
  split; [done|]. split; [done|]. split; [done|]. split; [|split].
  - destruct (decide (g < MAX_NUM_GENERATIONS)) as [Hlt'|]; [|lia].
    fold (after g). intros Hc. unfold after in Hc. by rewrite Hat in Hc.
  - intros Hnever. destruct (decide (g < MAX_NUM_GENERATIONS)) as [Hlt'|]; [|lia].
    specialize (Hnever g Hlt'). unfold after in Hnever. rewrite Hat in Hnever; done.
  - intros Hnever. specialize (Hnever g Hg). unfold after in Hnever. by rewrite Hnever.
Qed.

(** A metric under which the two centroids swap for ever: 300 generations. *)
Lemma fitWork_generation_cap_witness :
  let run := @fitWork farthestFirst [[0%Z]; [100%Z]] 2 1 [0; 1] in
  ∃ ps, run = Finished 300 ps ∧ terminalState run = Some CAPPED.
Proof.
  destruct (@fitWork_generation_cap farthestFirst [[0%Z]; [100%Z]] 2 1 [0; 1])
    as (_ & generation & Hrun & _ & _ & _ & Hexact & Hcapped);
    [lia|done|by repeat constructor|done|repeat constructor; lia|].
  assert (∀ j, j ≤ MAX_NUM_GENERATIONS →
            forallb stable
              (Nat.iter j (@generationBody farthestFirst)
                 (@fitStart farthestFirst [[0%Z]; [100%Z]] 2 1 [0; 1])) = false) as Hnever.
  { intros j Hj. apply negb_true_iff.
    apply (bounded_forallb
             (λ j, negb (forallb stable
                           (Nat.iter j (@generationBody farthestFirst)
                              (@fitStart farthestFirst [[0%Z]; [100%Z]] 2 1 [0; 1]))))
             MAX_NUM_GENERATIONS); [vm_compute; reflexivity|done]. }
  eexists. split; [|by apply Hcapped].
  rewrite Hrun, Hexact; [reflexivity|]. intros j Hj. apply Hnever. lia.
Defined.

(** C9.  The member count of a cluster travels as one byte.  In aggregation
    the coordinator reads the count modulo 256 for cluster [i] of rank [z]; in
    result collection the segment of cluster [i] starts with the count modulo
    256, after the segments of the clusters before it; and that byte is the
    count itself exactly when the count is at most 255. *)
Theorem counts_are_bytes `{KMeansMPI} (ps : list Proc) (z i : nat) (p : Proc) :
  ps !! z = Some p → i < k →
  let size c := length (elements (nth c (clusters p) noCluster)) in
  let recvbuf := MPI_Gather (k * (d + 1)) (map (λ p, serializeClusters (clusters p)) ps) in
  reportSize recvbuf z i = (Z.of_nat (size i) mod 256)%Z
  ∧ (∃ before ids rest,
       serializeAssignments p
       = before ++ (Z.of_nat (size i) mod 256)%Z :: ids ++ rest
       ∧ length before = list_sum (map (λ c, 1 + size c) (seq 0 i))
       ∧ length ids = size i)
  ∧ ((Z.of_nat (size i) mod 256)%Z = Z.of_nat (size i) ↔ size i ≤ 255).
Proof.
  intros Hz Hi size recvbuf. split; [|split].
  - by apply reportSize_gathered.
  - unfold serializeAssignments.
    replace k with (i + S (k - S i)) by lia.
    rewrite seq_app, flat_map_app. cbn [seq flat_map Nat.add].
    eexists _, _, _. split; [reflexivity|]. split.
    + rewrite length_flat_map_sum. f_equal. apply map_ext. intros c.
      simpl. by rewrite length_map.
    + by rewrite length_map.
  - split.
    + intros Hmod. pose proof (Z.mod_pos_bound (Z.of_nat (size i)) 256 ltac:(lia)). lia.
    + intros Hle. apply Z.mod_small. lia.
Qed.

(** 300 members are reported as 44. *)
Lemma counts_are_bytes_witness :
  let recvbuf :=
    @MPI_Gather (1 * (1 + 1))
      (map (λ p, @serializeClusters (MNISTKMeansMPI 1 1) (clusters p)) [crowded]) in
  @reportSize (MNISTKMeansMPI 1 1) recvbuf 0 0 = 44%Z
  ∧ ¬ (300 ≤ 255).
Proof.
  destruct (@counts_are_bytes (MNISTKMeansMPI 1 1) [crowded] 0 0 crowded)
    as (Hsize & _ & Hiff); [done|simpl; lia|].
  split; [exact Hsize|]. intros Hle. apply Hiff in Hle. vm_compute in Hle. discriminate.
Defined.

(** C10.  The coordinator's merge is the fold, for every cluster, of the
    reports of the ranks [0, 1, ..., P-1] in this order, read from the
    gathered buffer rank by rank and, inside a rank, cluster by cluster.  The
    merged centroids are a function of the buffer and of the centroids and
    sizes before the merge: two states that agree on these get the same
    centroids. *)
Theorem mergeClusters_rank_order_deterministic `{KMeansMPI} (proccesses : nat)
    (recvbuf : list Z) (cl cl' : Clusters) :
  length cl = k → length cl' = k →
  mergeClusters proccesses recvbuf cl = mergedInRankOrder proccesses recvbuf cl
  ∧ (map centroid cl' = map centroid cl →
     map (λ c, length (elements c)) cl' = map (λ c, length (elements c)) cl →
     map centroid (mergeClusters proccesses recvbuf cl')
     = map centroid (mergeClusters proccesses recvbuf cl)).
Proof.
  intros Hcl Hcl'. split; [by apply mergeClusters_rank_order|].
  intros Hc Hl. rewrite !mergeClusters_rank_order by done.
  apply list_eq. intros i. unfold mergedInRankOrder.
  rewrite !list_lookup_fmap, !list_lookup_imap.
  apply (f_equal (λ l, l !! i)) in Hc. apply (f_equal (λ l, l !! i)) in Hl.
  cbv beta in Hc, Hl. rewrite !list_lookup_fmap in Hc. rewrite !list_lookup_fmap in Hl.
  destruct (cl !! i) as [c|], (cl' !! i) as [c'|]; simpl in *; try done.
  injection Hc as Hc. injection Hl as Hl. by rewrite (mergedUpTo_ext _ _ _ c c').
Qed.

(** Two ranks, two clusters. *)
Lemma mergeClusters_rank_order_deterministic_witness :
  let cl := [mkCluster [0%Z; 1%Z] [10%Z]; mkCluster [] [0%Z]] in
  let cl' := [mkCluster [5%Z; 6%Z] [10%Z]; mkCluster [] [0%Z]] in
  @mergeClusters (MNISTKMeansMPI 2 1) 2 two_reports cl
  = @mergedInRankOrder (MNISTKMeansMPI 2 1) 2 two_reports cl
  ∧ map centroid (@mergeClusters (MNISTKMeansMPI 2 1) 2 two_reports cl')
    = map centroid (@mergeClusters (MNISTKMeansMPI 2 1) 2 two_reports cl).
Proof.
  intros cl cl'.
  destruct (@mergeClusters_rank_order_deterministic (MNISTKMeansMPI 2 1) 2 two_reports cl cl')
    as [Horder Hsame]; [done|done|].
  split; [exact Horder|]. by apply Hsame.
Defined.

(** * Further properties *)

(** X1.  The gathered buffer starts with the coordinator's own report, and the
    merge starts from the coordinator's own centroid and size: cluster [i] of
    the coordinator is first merged with itself, then with the reports of
    the ranks [1 .. P-1]. *)
Theorem coordinator_report_merged_twice `{KMeansMPI} (r : Proc) (os : list Proc) (i : nat) :
  i < k → length (clusters r) = k →
  length (centroid (nth i (clusters r) noCluster)) = d →
  let c := nth i (clusters r) noCluster in
  let size := Z.of_nat (length (elements c)) in
  let recvbuf :=
    MPI_Gather (k * (d + 1)) (map (λ p, serializeClusters (clusters p)) (r :: os)) in
  ∃ merged,
    combineClusters (r :: os) = withClusters r merged :: os
    ∧ centroid (nth i merged noCluster)
      = (fold_left (mergeRank recvbuf i) (seq 1 (length os))
           (updateCentroid (centroid c) size (centroid c) (uchar size),
            (size + uchar size)%Z)).1.
Proof.
  intros Hi Hlen Hd c size recvbuf.
  rewrite combineClusters_cons, mergeClusters_rank_order by done.
  eexists. split; [reflexivity|]. fold recvbuf.
  unfold mergedInRankOrder. rewrite nth_lookup, list_lookup_imap.
  destruct (lookup_lt_is_Some_2 (clusters r) i) as [c' Hc']; [lia|].
  assert (c = c') as <- by (unfold c; by rewrite nth_lookup, Hc').
  rewrite Hc'. cbn [fmap option_fmap option_map default centroid].
  unfold mergedUpTo. cbn [seq fold_left]. f_equal. f_equal.
  unfold mergeRank. cbn [fst snd]. fold size.
  unfold recvbuf.
  rewrite (reportCentroid_gathered (r :: os) 0 i r), (reportSize_gathered (r :: os) 0 i r)
    by done.
  done.
Qed.

(** One worker, one cluster of three members. *)
Lemma coordinator_report_merged_twice_witness :
  ∃ merged,
    @combineClusters (MNISTKMeansMPI 1 1)
      [mkProc [] [] 0 [mkCluster [0; 1; 2]%Z [9%Z]] [] []]
    = [mkProc [] [] 0 merged [] []]
    ∧ centroid (nth 0 merged noCluster)
      = @updateCentroid (MNISTKMeansMPI 1 1) [9%Z] 3 [9%Z] 3.
Proof.
  destruct (@coordinator_report_merged_twice (MNISTKMeansMPI 1 1)
              (mkProc [] [] 0 [mkCluster [0; 1; 2]%Z [9%Z]] [] []) [] 0)
    as (merged & Hcombine & Hcentroid); [simpl; lia|done|done|].
  exists merged. split; [exact Hcombine|exact Hcentroid].
Defined.

(** X2.  After [distributeCentroids] every rank holds the coordinator's
    centroids, and no membership list has changed. *)
Theorem distributeCentroids_identical `{KMeansMPI} (r : Proc) (os : list Proc) :
  length (clusters r) = k →
  Forall (λ c, length (centroid c) = d) (clusters r) →
  Forall (λ p, length (clusters p) = k) os →
  Forall (λ q, map centroid (clusters q) = map centroid (clusters r))
         (distributeCentroids (r :: os))
  ∧ map (λ q, map elements (clusters q)) (distributeCentroids (r :: os))
    = map (λ p, map elements (clusters p)) (r :: os).
Proof.
  intros Hlen Hd Hos. rewrite distributeCentroids_cons. split.
  - constructor; [done|]. apply Forall_fmap.
    eapply Forall_impl; [exact Hos|]. intros p Hp. simpl.
    by apply receiveCentroids_centroids.
  - cbn [map]. f_equal. rewrite map_map. apply map_ext. intros p.
    cbn [clusters withClusters]. apply receiveCentroids_elements.
Qed.

(** A coordinator and one other rank. *)
Lemma distributeCentroids_identical_witness :
  let r := mkProc [] [] 0 [mkCluster [] [3%Z]; mkCluster [] [7%Z]] [] [] in
  let p := mkProc [] [] 0 [mkCluster [0%Z] [0%Z]; mkCluster [1%Z] [0%Z]] [] [] in
  Forall (λ q, map centroid (clusters q) = [[3%Z]; [7%Z]])
         (@distributeCentroids (MNISTKMeansMPI 2 1) [r; p])
  ∧ map (λ q, map elements (clusters q)) (@distributeCentroids (MNISTKMeansMPI 2 1) [r; p])
    = [[[]; []]; [[0%Z]; [1%Z]]].
Proof.
  intros r p.
  apply (@distributeCentroids_identical (MNISTKMeansMPI 2 1) r [p]);
    [done|by repeat constructor|by repeat constructor].
Defined.

(** X3.  [fitWork] increments the first channel of [prev] before the loop, so
    the first test of the loop fails and at least one generation runs, also
    when that channel is 255 and wraps to 0; the run ends after 1 to 300
    generations. *)
Theorem fitWork_first_generation `{KMeansMPI} (colorList : list Element) (n P : nat)
    (selectedColors : list nat) :
  1 ≤ P → 1 ≤ k → 1 ≤ d →
  length colorList = n → Forall (λ e, length e = d) colorList →
  length selectedColors = k → Forall (λ s, s < n) selectedColors →
  forallb stable (fitStart colorList n P selectedColors) = false
  ∧ ∃ generation ps,
      fitWork colorList n P selectedColors = Finished generation ps
      ∧ 1 ≤ generation ≤ MAX_NUM_GENERATIONS.
Proof.
  intros HP Hk Hd Hn Hcl Hsel Hlt.
  pose proof (fitStart_unstable colorList n P selectedColors HP Hk Hd Hn Hcl Hsel Hlt) as Hun.
  split; [done|].
  destruct (fitStart_agreeing colorList n P selectedColors HP Hn Hcl Hsel Hlt) as [Hag Hne].
  destruct (generations_run MAX_NUM_GENERATIONS 0 _ Hag Hne) as (j & Hj & Hrun & _ & Hst).
  unfold fitWork. rewrite Hrun. eexists _, _. split; [reflexivity|].
  split; [|simpl; lia].
  destruct j as [|j]; [|simpl; lia].
  simpl in Hst. rewrite Hst in Hun; [discriminate|]. unfold MAX_NUM_GENERATIONS. lia.
Qed.

(** One element of colour 255. *)
Lemma fitWork_first_generation_witness :
  ∃ generation ps,
    @fitWork (MNISTKMeansMPI 1 1) [[255%Z]] 1 1 [0] = Finished generation ps
    ∧ 1 ≤ generation ≤ MAX_NUM_GENERATIONS.
Proof.
  apply (@fitWork_first_generation (MNISTKMeansMPI 1 1) [[255%Z]] 1 1 [0]);
    [simpl; lia|simpl; lia|simpl; lia|done|by repeat constructor|done|repeat constructor; lia].
Defined.

(** X4.  The Euclidean distance between two images of bytes is a number (not
    a NaN) and not negative. *)
Theorem calculateEuclideanDistance_number (n : nat) (pixels other : Element) :
  Forall is_uchar pixels → Forall is_uchar other →
  is_nan (calculateEuclideanDistance n pixels other) = false
  ∧ (0 <=? calculateEuclideanDistance n pixels other)%float = true.
Proof.
  intros Hp Ho. by apply SFnonneg_number, calculateEuclideanDistance_nonneg.
Qed.

(** The pixels 0 and 255, two channels. *)
Lemma calculateEuclideanDistance_number_witness :
  is_nan (calculateEuclideanDistance 2 [0; 255]%Z [255; 0]%Z) = false
  ∧ (0 <=? calculateEuclideanDistance 2 [0; 255]%Z [255; 0]%Z)%float = true.
Proof.
  apply calculateEuclideanDistance_number; repeat constructor; unfold is_uchar; lia.
Defined.

(** X5.  The Euclidean distance between two images of bytes is symmetric, and
    the distance of an image to itself is 0. *)
Theorem calculateEuclideanDistance_symmetric (n : nat) (pixels other : Element) :
  Forall is_uchar pixels → Forall is_uchar other →
  calculateEuclideanDistance n pixels other = calculateEuclideanDistance n other pixels
  ∧ calculateEuclideanDistance n pixels pixels = 0%float.
Proof.
  intros Hp Ho. unfold calculateEuclideanDistance. split.
  - f_equal. generalize 0%float. generalize (seq 0 n).
    intros l. induction l as [|i l IH]; intros result; [done|].
    simpl. rewrite IH. do 2 f_equal.
    apply squared_difference_symmetric; by apply is_uchar_nth.
  - match goal with |- PrimFloat.sqrt ?x = _ => assert (x = 0%float) as ->; [|reflexivity] end.
    generalize (seq 0 n). intros l. induction l as [|i l IH]; [done|].
    simpl. rewrite squared_difference_same by (by apply is_uchar_nth). exact IH.
Qed.

(** A 3-4-5 triangle. *)
Lemma calculateEuclideanDistance_symmetric_witness :
  calculateEuclideanDistance 2 [3; 4]%Z [0; 0]%Z = calculateEuclideanDistance 2 [0; 0]%Z [3; 4]%Z
  ∧ calculateEuclideanDistance 2 [3; 4]%Z [3; 4]%Z = 0%float.
Proof.
  apply calculateEuclideanDistance_symmetric; repeat constructor; unfold is_uchar; lia.
Defined.

(** X6.  [swapEndian] reverses the four bytes of a 32-bit value, stays within
    32 bits and is its own inverse. *)
Theorem swapEndian_reverses_bytes (i : Z) :
  (0 ≤ i < 2 ^ 32)%Z →
  let byte (x j : Z) := ((x / 2 ^ (8 * j)) mod 256)%Z in
  (0 ≤ swapEndian i < 2 ^ 32)%Z
  ∧ (∀ j, (0 ≤ j ≤ 3)%Z → byte (swapEndian i) j = byte i (3 - j)%Z)
  ∧ swapEndian (swapEndian i) = i.
Proof.
  intros Hi byte. pose proof (swapEndian_range i Hi) as Hr.
  split; [done|]. split.
  - intros j Hj. unfold byte. apply Z.bits_inj'. intros n Hn.
    rewrite !byte_testbit, swapEndian_testbit by lia.
    assert (j = 0 ∨ j = 1 ∨ j = 2 ∨ j = 3)%Z as [->|[->|[->| ->]]] by lia;
      repeat match goal with
             | |- context [(?a <? ?b)%Z] => destruct (Z.ltb_spec a b)
             end; try lia; simpl; try reflexivity; f_equal; lia.
  - apply Z.bits_inj'. intros n Hn.
    rewrite swapEndian_testbit by lia.
    repeat match goal with
           | |- context [(?a <? ?b)%Z] => destruct (Z.ltb_spec a b)
           end; try lia;
      rewrite ?swapEndian_testbit by lia;
      repeat match goal with
             | |- context [(?a <? ?b)%Z] => destruct (Z.ltb_spec a b)
             end; try lia; try (f_equal; lia).
    symmetry. apply uint32_testbit_high; lia.
Qed.

(** The magic number of an MNIST image file. *)
Lemma swapEndian_reverses_bytes_witness :
  swapEndian 0x00000803 = 0x03080000%Z ∧ swapEndian (swapEndian 0x00000803) = 0x00000803%Z.
Proof.
  destruct (swapEndian_reverses_bytes 0x00000803) as (_ & _ & Hinv); [lia|].
  split; [reflexivity|exact Hinv].
Defined.

(** X7.  [getPixelHex] is the grey colour of the value that [getPixelValue]
    returns for the same row and column: its two hexadecimal digits three
    times.  Outside the 28 x 28 grid the value is 0 and the colour
    ["000000"]; inside, it is the pixel at [row * 28 + col].  Two bytes
    with the same colour are equal. *)
Theorem getPixelHex_getPixelValue (pixels : Element) (row col : Z) :
  let pixel := getPixelValue pixels row col in
  getPixelHex pixels row col = hex02 pixel +:+ hex02 pixel +:+ hex02 pixel
  ∧ String.length (getPixelHex pixels row col) = 6
  ∧ ((row < 0 ∨ row >= ROWS ∨ col < 0 ∨ col >= COLS)%Z →
     pixel = 0%Z ∧ getPixelHex pixels row col = "000000")
  ∧ ((0 ≤ row < ROWS)%Z → (0 ≤ col < COLS)%Z →
     pixel = nth (Z.to_nat row * Z.to_nat COLS + Z.to_nat col) pixels 0%Z
     ∧ Z.to_nat row * Z.to_nat COLS + Z.to_nat col < PIXELS_N)
  ∧ (∀ other row' col',
       is_uchar pixel → is_uchar (getPixelValue other row' col') →
       getPixelHex pixels row col = getPixelHex other row' col' →
       pixel = getPixelValue other row' col').
Proof.
  assert (∀ px r c, getPixelHex px r c
                    = hex02 (getPixelValue px r c) +:+ hex02 (getPixelValue px r c)
                      +:+ hex02 (getPixelValue px r c)) as Hgrey.
  { intros px r c. unfold getPixelHex, getPixelValue.
    destruct (decide _) as [Hout|Hin]; [reflexivity|].
    cbv zeta. by replace (ROWS * r + c)%Z with (r * COLS + c)%Z by (unfold ROWS, COLS; lia). }
  intros pixel. split; [apply Hgrey|]. split; [by rewrite Hgrey|]. split; [|split].
  - intros Hout. unfold pixel, getPixelHex, getPixelValue. by rewrite !decide_True.
  - intros Hrow Hcol. unfold pixel, getPixelValue.
    rewrite decide_False by lia. change (Z.to_nat COLS) with 28. change PIXELS_N with 784.
    unfold ROWS, COLS in *. split; [f_equal|]; lia.
  - intros other row' col' Hp Ho. rewrite !Hgrey. fold pixel. intros Heq.
    apply hex02_injective; [done|done|].
    unfold hex02 in *. cbn [String.app] in Heq. injection Heq as H1 H2 _ _ _ _.
    by rewrite H1, H2.
Qed.

(** The pixel 171 is the colour ab ab ab. *)
Lemma getPixelHex_getPixelValue_witness :
  getPixelHex [0; 171]%Z 0 1 = "ababab" ∧ getPixelValue [0; 171]%Z 0 1 = 171%Z
  ∧ getPixelHex [0; 171]%Z 28 0 = "000000".
Proof.
  destruct (getPixelHex_getPixelValue [0; 171]%Z 0 1) as (Hhex & _).
  destruct (getPixelHex_getPixelValue [0; 171]%Z 28 0) as (_ & _ & Hout & _).
  split; [exact Hhex|]. split; [reflexivity|].
  apply Hout. unfold ROWS. lia.
Defined.

(** X8.  The table that [createHTMLCell] writes for an image has 28 rows of 28
    cells, and its cells in reading order are the colours of the pixels in
    the order of the image. *)
Theorem createHTMLCell_pixels (image : Element) :
  length image = PIXELS_N →
  length (createHTMLCell image) = Z.to_nat ROWS
  ∧ Forall (λ cells, length cells = Z.to_nat COLS) (createHTMLCell image)
  ∧ concat (createHTMLCell image)
    = map (λ pixel, hex02 pixel +:+ hex02 pixel +:+ hex02 pixel) image.
Proof.
  intros Hlen. unfold createHTMLCell. split; [by rewrite length_map, length_seq|]. split.
  - apply Forall_map, Forall_forall. intros row _. cbv beta. by rewrite length_map, length_seq.
  - rewrite <- flat_map_concat_map.
    trans (map (λ pixel, hex02 pixel +:+ hex02 pixel +:+ hex02 pixel)
               (map (λ j, nth j image 0%Z) (seq 0 (length image))));
      [|by rewrite map_nth_seq].
    rewrite map_map, Hlen.
    change PIXELS_N with (Z.to_nat ROWS * Z.to_nat COLS).
    rewrite <- (flat_map_rows
                  (λ i, hex02 (nth i image 0%Z) +:+ hex02 (nth i image 0%Z)
                        +:+ hex02 (nth i image 0%Z))).
    apply flat_map_ext_seq. intros row Hrow. simpl in Hrow.
    apply map_ext_in. intros col Hcol%in_seq.
    unfold getPixelHex. change (Z.to_nat COLS) with 28 in *.
    change (Z.to_nat ROWS) with 28 in *. unfold ROWS, COLS.
    rewrite decide_False by lia. cbv zeta.
    by replace (Z.to_nat (28 * Z.of_nat row + Z.of_nat col)) with (row * 28 + col) by lia.
Qed.

(** A white image. *)
Lemma createHTMLCell_pixels_witness :
  concat (createHTMLCell (replicate PIXELS_N 255%Z)) = replicate PIXELS_N "ffffff".
Proof.
  destruct (createHTMLCell_pixels (replicate PIXELS_N 255%Z)) as (_ & _ & ->);
    [by rewrite length_replicate|].
  vm_compute. reflexivity.
Defined.

(** X9.  The counts and displacements that [partitionColors] passes to
    [MPI_Scatterv] tile the send buffer: every rank's displacement is the
    sum of the counts before it, its block lies inside the buffer and has
    the length that the rank expects, and the counts add up to the buffer. *)
Theorem partitionColors_scatter_layout `{KMeansMPI} (colorList : list Element) (n P : nat) :
  1 ≤ P →
  let sendbuf := marshalColors colorList n in
  let sendcounts := scatterCounts P (n / P) (length sendbuf) in
  let displs := scatterDispls P (n / P) in
  length sendbuf = n * (d + 1)
  ∧ (∀ rank, rank < P →
       let recvcount := shardSize n P rank * (d + 1) in
       nth rank sendcounts 0 = recvcount
       ∧ nth rank displs 0 = list_sum (take rank sendcounts)
       ∧ nth rank displs 0 + nth rank sendcounts 0 ≤ length sendbuf
       ∧ length (MPI_Scatterv sendbuf sendcounts displs rank) = recvcount)
  ∧ list_sum sendcounts = length sendbuf.
Proof.
  intros HP sendbuf sendcounts displs.
  assert (length sendbuf = n * (d + 1)) as Hlen by apply length_marshalColors.
  assert (∀ rank, rank < P → nth rank displs 0 = rank * (n / P) * (d + 1)) as Hdispl.
  { intros rank Hr. unfold displs, scatterDispls. by rewrite (nth_map_seq _ 0 P rank). }
  split; [done|]. subst sendcounts. rewrite Hlen. split.
  - intros rank Hr recvcount. pose proof (shard_end n P rank Hr) as He.
    rewrite scatterCount_rank, Hdispl, sum_scatterCounts_prefix by (done || lia).
    assert (rank * (n / P) * (d + 1) + shardSize n P rank * (d + 1) ≤ n * (d + 1)) as Hfit.
    { rewrite <- Nat.mul_add_distr_r. apply Nat.mul_le_mono_r, He. }
    split; [done|]. split; [done|]. split; [exact Hfit|].
    unfold MPI_Scatterv. rewrite scatterCount_rank, Hdispl by done.
    rewrite length_take, length_drop, Hlen. subst recvcount.
    apply Nat.min_l. clear -Hfit. set (a := rank * (n / P) * (d + 1)) in *.
    set (b := shardSize n P rank * (d + 1)) in *. clearbody a b. lia.
  - destruct P as [|Q]; [lia|].
    rewrite <- (take_ge (scatterCounts (S Q) _ _) (S Q)) by
      (unfold scatterCounts; rewrite length_map, length_seq; lia).
    rewrite (take_S_r _ Q (shardSize n (S Q) Q * (d + 1))).
    + rewrite list_sum_app, sum_scatterCounts_prefix by lia.
      cbn [list_sum fold_right]. unfold shardSize. rewrite decide_True by lia.
      pose proof (shard_bound n (S Q)) as Hb. replace (S Q - 1) with Q in * by lia.
      set (c := n / S Q) in *. clearbody c. nia.
    + rewrite <- scatterCount_rank by lia.
      destruct (lookup_lt_is_Some_2 (scatterCounts (S Q) (n / S Q) (n * (d + 1))) Q) as [x Hx].
      { unfold scatterCounts. rewrite length_map, length_seq. lia. }
      rewrite Hx. f_equal. symmetry. by apply nth_lookup_Some.
Qed.

(** Eight elements of one channel on three workers. *)
Lemma partitionColors_scatter_layout_witness :
  let sendbuf := @marshalColors (MNISTKMeansMPI 2 1) spec_example 8 in
  let sendcounts := @scatterCounts (MNISTKMeansMPI 2 1) 3 (8 / 3) (length sendbuf) in
  sendcounts = [4; 4; 8] ∧ list_sum sendcounts = length sendbuf.
Proof.
  destruct (@partitionColors_scatter_layout (MNISTKMeansMPI 2 1) spec_example 8 3)
    as (_ & _ & Hsum); [lia|].
  split; [reflexivity|exact Hsum].
Defined.

(** X10.  The counts and displacements that [collectClusterAssignments] passes
    to [MPI_Gatherv] are those of the buffers that the ranks send: the
    receive buffer is the concatenation of the send buffers in rank order. *)
Theorem collectClusterAssignments_gather_layout `{KMeansMPI} (colorList : list Element)
    (n P : nat) (selectedColors : list nat) (j : nat) :
  1 ≤ P → 1 ≤ k →
  let ps := Nat.iter (S j) generationBody (fitStart colorList n P selectedColors) in
  let recvcounts := gatherCounts n P in
  let displs := gatherDispls n P in
  length ps = P
  ∧ (∀ z p, ps !! z = Some p →
       let sendcount := maxNum p + k in
       length (serializeAssignments p) = sendcount
       ∧ nth z recvcounts 0 = sendcount
       ∧ nth z displs 0 = list_sum (take z recvcounts))
  ∧ list_sum recvcounts = n + k * P
  ∧ MPI_Gatherv (n + k * P) (map serializeAssignments ps) recvcounts displs
    = concat (map serializeAssignments ps).
Proof.
  intros HP Hk ps recvcounts displs.
  pose proof (fitStart_sharded colorList n P selectedColors (S j)) as Hsh.
  pose proof (generationBody_members
                (Nat.iter j generationBody (fitStart colorList n P selectedColors)) Hk)
    as Hmem.
  change (generationBody (Nat.iter j generationBody ?s))
    with (Nat.iter (S j) generationBody s) in Hmem.
  fold ps in Hsh, Hmem. clearbody ps.
  pose proof (sharded_length _ _ _ _ Hsh) as Hlen.
  split; [done|]. split; [|split].
  - intros z p Hz sendcount.
    rewrite Forall_forall in Hmem. destruct (Hmem p) as [Hcl Hm].
    { by eapply list_elem_of_lookup_2. }
    destruct (sharded_lookup _ _ _ _ _ _ Hsh Hz) as (HzP & Hmax & _).
    rewrite length_serializeAssignments by done.
    rewrite (sharded_members_length _ _ _ _ _ _ Hsh Hz Hm).
    subst sendcount recvcounts displs. rewrite Hmax.
    rewrite sum_gatherCounts_prefix by lia.
    unfold gatherCounts, gatherDispls.
    rewrite !(nth_map_seq _ 0 P z) by done. simpl.
    unfold shardSize. destruct (decide (z = P - 1)); lia.
  - subst recvcounts. unfold gatherCounts.
    rewrite <- (sum_shards_total n P HP). f_equal. apply map_ext. intros z.
    unfold shardSize. destruct (decide (z = P - 1)); lia.
  - by eapply gathered_assignments.
Qed.

(** The example of the specification on three workers. *)
Lemma collectClusterAssignments_gather_layout_witness :
  let ps := Nat.iter 1 (@generationBody (MNISTKMeansMPI 2 1))
              (@fitStart (MNISTKMeansMPI 2 1) spec_example 8 3 [0; 4]) in
  @MPI_Gatherv (8 + 2 * 3) (map (@serializeAssignments (MNISTKMeansMPI 2 1)) ps)
    (@gatherCounts (MNISTKMeansMPI 2 1) 8 3) (@gatherDispls (MNISTKMeansMPI 2 1) 8 3)
  = concat (map (@serializeAssignments (MNISTKMeansMPI 2 1)) ps).
Proof.
  apply (@collectClusterAssignments_gather_layout (MNISTKMeansMPI 2 1) spec_example 8 3
           [0; 4] 0); simpl; lia.
Defined.





(** X13.  After [updateClusters] on a rank that holds fewer than [2^31]
    elements of bytes, a channel of the centroid of a cluster that has
    members is a byte, lies between the least and the greatest value of
    that channel among the members, and is at most their mean: every step
    of the running mean rounds down. *)
Theorem updateClusters_running_mean `{KMeansMPI} (p : Proc) (c ch : nat) :
  1 ≤ k → c < k → ch < d → (Z.of_nat (maxNum p) < 2 ^ 31)%Z →
  (∀ i, i < maxNum p → is_uchar (nth ch (nth i (partition p) []) 0%Z)) →
  let cluster := nth c (clusters (assignment p)) noCluster in
  let members := elements cluster in
  let channel (i : Z) := nth ch (nth (Z.to_nat i) (partition p) []) 0%Z in
  let mean := nth ch (centroid cluster) 0%Z in
  members ≠ [] →
  is_uchar mean
  ∧ (mean * Z.of_nat (length members) ≤ foldr Z.add 0 (map channel members))%Z
  ∧ ∀ lo hi, (∀ i, i ∈ members → (lo ≤ channel i ≤ hi)%Z) → (lo ≤ mean ≤ hi)%Z.
Proof.
  intros Hk Hc Hch Hint Hbytes cluster members channel mean Hne.
  pose proof (assigned_running_mean (savePrev (updateDistances p)) ch (seq 0 (maxNum p))
                resetClusters Hk Hch length_resetClusters Hbytes) as Hall.
  cbv zeta in Hall.
  assert (Forall (λ i, i < maxNum p) (seq 0 (maxNum p))) as Hseq.
  { apply Forall_forall. intros i Hi%list_elem_of_In%in_seq. lia. }
  specialize (Hall Hseq).
  assert (Forall (λ c : Cluster,
                    (Z.of_nat (length (elements c) + length (seq 0 (maxNum p))) < 2 ^ 31)%Z)
                 resetClusters) as Hstart.
  { apply Forall_replicate. cbn [elements length]. by rewrite length_seq. }
  specialize (Hall Hstart).
  assert (Forall (λ c : Cluster,
                    is_uchar (nth ch (centroid c) 0%Z)
                    ∧ (elements c ≠ [] →
                       (nth ch (centroid c) 0 * Z.of_nat (length (elements c))
                        ≤ foldr Z.add 0
                            (map (λ i, nth ch (nth (Z.to_nat i) (partition p) []) 0)
                                 (elements c)))%Z
                       ∧ ∀ lo hi,
                           (∀ i, i ∈ elements c →
                                 (lo ≤ nth ch (nth (Z.to_nat i) (partition p) []) 0 ≤ hi)%Z) →
                           (lo ≤ nth ch (centroid c) 0 ≤ hi)%Z))
                 resetClusters) as Hzero.
  { apply Forall_replicate. cbn [elements centroid]. split; [|done].
    rewrite nth_lookup, lookup_replicate_2 by done. unfold is_uchar. simpl. lia. }
  specialize (Hall Hzero).
  rewrite Forall_forall in Hall.
  destruct (Hall cluster) as [Hx Hgood].
  - apply list_elem_of_In, (nth_In (clusters (assignment p))).
    by rewrite length_assignment.
  - destruct (Hgood Hne) as [Hsum Hrange]. done.
Qed.

(** The members 100, 101, 102 and 103 give the centroid 100; their mean is
    101.5. *)
Lemma updateClusters_running_mean_witness :
  let p := mkProc [[100]; [101]; [102]; [103]]%Z [4; 5; 6; 7]%Z 4
             [mkCluster [] [0%Z]; mkCluster [] [100%Z]] [] [] in
  let cluster := nth 1 (clusters (@assignment (MNISTKMeansMPI 2 1) p)) noCluster in
  elements cluster = [0; 1; 2; 3]%Z
  ∧ centroid cluster = [100%Z]
  ∧ (100 * 4 ≤ 100 + 101 + 102 + 103 + 0)%Z.
Proof.
  intros p cluster.
  destruct (@updateClusters_running_mean (MNISTKMeansMPI 2 1) p 1 0) as (_ & Hmean & _);
    [simpl; lia|simpl; lia|simpl; lia|simpl; lia| |vm_compute; discriminate|].
  - intros [|[|[|[|i]]]] Hi; try (unfold is_uchar; simpl; lia). simpl in Hi. lia.
  - split; [vm_compute; reflexivity|]. split; [vm_compute; reflexivity|].
    exact Hmean.
Defined.

(** X14.  With fewer than [2^23] ranks that hold at most 255 elements each,
    when some rank assigns an element to cluster [c], every channel of
    centroid [c] after the generation lies between the bounds [lo] and [hi]
    of that channel over the elements of all ranks. *)
Theorem generationBody_centroid_range `{KMeansMPI} (ps : list Proc) (c ch : nat)
    (lo hi : Z) :
  1 ≤ k → c < k → ch < d → (0 ≤ lo)%Z → (hi ≤ 255)%Z →
  (Z.of_nat (length ps) < 2 ^ 23)%Z →
  (∀ p, p ∈ ps →
     maxNum p ≤ 255
     ∧ ∀ i, i < maxNum p → (lo ≤ nth ch (nth i (partition p) []) 0 ≤ hi)%Z) →
  (∃ p, p ∈ ps ∧ elements (nth c (clusters (assignment p)) noCluster) ≠ []) →
  ∀ q, q ∈ generationBody ps →
    (lo ≤ nth ch (centroid (nth c (clusters q) noCluster)) 0 ≤ hi)%Z.
Proof.
  intros Hk Hc Hch Hlo Hhi HP Hps (p1 & Hp1 & Hne) q Hq.
  destruct ps as [|r os]; [by apply elem_of_nil in Hp1|].
  rewrite (generationBody_merged r os c q Hc Hq).
  set (recvbuf := MPI_Gather _ _).
  assert (∀ p, p ∈ r :: os →
            length (elements (nth c (clusters (assignment p)) noCluster)) ≤ 255) as Hfit.
  { intros p Hp. destruct (Hps p Hp) as [Hmax _].
    pose proof (assignment_members p Hk) as Hperm. apply Permutation_length in Hperm.
    rewrite length_map, length_seq in Hperm.
    pose proof (length_elements_le (clusters (assignment p)) c) as Hle.
    unfold membersOf in Hperm. lia. }
  assert (∀ p, p ∈ r :: os →
            is_uchar (nth ch (centroid (nth c (clusters (assignment p)) noCluster)) 0%Z)
            ∧ (elements (nth c (clusters (assignment p)) noCluster) = []
               ∨ (lo ≤ nth ch (centroid (nth c (clusters (assignment p)) noCluster)) 0
                  ≤ hi)%Z)) as Hassigned.
  { intros p Hp. destruct (Hps p Hp) as [Hmax Hrange].
    apply assignment_channel_range; (done || lia). }
  assert (∀ z p, (r :: os) !! z = Some p →
            reportSize recvbuf z c
            = Z.of_nat (length (elements (nth c (clusters (assignment p)) noCluster)))
            ∧ reportCentroid recvbuf z c
              = centroid (nth c (clusters (assignment p)) noCluster)) as Hreport.
  { intros z p Hz. unfold recvbuf. split.
    - rewrite (reportSize_gathered _ z c (assignment p))
        by (by rewrite ?list_lookup_fmap, ?Hz).
      apply uchar_id. specialize (Hfit p ltac:(by eapply list_elem_of_lookup_2)). lia.
    - apply reportCentroid_gathered; [by rewrite list_lookup_fmap, Hz|done|].
      pose proof (assignment_wf p) as Hwf. rewrite Forall_forall in Hwf.
      apply Hwf, list_elem_of_In, nth_In. by rewrite length_assignment. }
  pose proof (Hfit r ltac:(left)) as Hroot.
  cbn [length] in HP.
  destruct (mergedUpTo_range recvbuf (S (length os)) c
              (nth c (clusters (assignment r)) noCluster) ch lo hi Hch Hlo Hhi)
    as (_ & Hsizes & _ & Hacc).
  - lia.
  - apply Hassigned. left.
  - apply Hassigned. left.
  - intros z Hz. destruct (lookup_lt_is_Some_2 (r :: os) z) as [p Hp]; [simpl; lia|].
    assert (p ∈ r :: os) as Hin by (by eapply list_elem_of_lookup_2).
    destruct (Hreport z p Hp) as [-> ->]. specialize (Hfit p Hin).
    split; [lia|]. destruct (Hassigned p Hin) as [Hbyte [Hempty|Hrange]].
    + split; [done|]. left. by rewrite Hempty.
    + split; [done|]. by right.
  - destruct Hacc as [Hzero|Hrange]; [|done].
    apply list_elem_of_lookup in Hp1 as [z Hz].
    pose proof (lookup_lt_Some _ _ _ Hz) as Hlt. simpl in Hlt.
    specialize (Hsizes z Hlt). destruct (Hreport z p1 Hz) as [Hsize _].
    rewrite Hsize, Hzero in Hsizes.
    destruct (elements (nth c (clusters (assignment p1)) noCluster)); [done|].
    simpl in Hsizes. lia.
Qed.

(** The example of the specification on two workers. *)
Lemma generationBody_centroid_range_witness :
  Forall (λ q, (0 ≤ nth 0 (centroid (nth 1 (clusters q) noCluster)) 0 ≤ 103)%Z)
         (@generationBody (MNISTKMeansMPI 2 1)
            (@fitStart (MNISTKMeansMPI 2 1) spec_example 8 2 [0; 1])).
Proof.
  apply Forall_forall.
  apply (@generationBody_centroid_range (MNISTKMeansMPI 2 1) _ 1 0 0 103);
    [simpl; lia|simpl; lia|simpl; lia|lia|lia|by vm_compute| |].
  - intros p Hp. vm_compute in Hp.
    apply elem_of_cons in Hp as [->|Hp];
      [|apply list_elem_of_singleton in Hp as ->];
      (split; [simpl; lia|]);
      intros [|[|[|[|i]]]] Hi; simpl in Hi |- *; lia.
  - eexists. split; [left|]. vm_compute. discriminate.
Defined.

(** X15.  [main] clusters exactly 250 images into 10 clusters: the run ends,
    every collected identity is the index of an image, [displayClusters]
    prints the label of every image once, and [generateHTML] writes, for
    every cluster, its centroid and then its images, every image once. *)
Theorem main_reports_every_image (images : list Element) (labels : list Z) (P : nat)
    (selectedColors : list nat) :
  1 ≤ P →
  length images = IMAGE_MAX → Forall (λ e, length e = PIXELS_N) images →
  length labels = IMAGE_MAX →
  length selectedColors = K → Forall (λ s, s < IMAGE_MAX) selectedColors →
  ∃ final,
    @fit kMeans images IMAGE_MAX P selectedColors = Some final
    ∧ main images labels P selectedColors
      = Some (displayClusters final labels, generateHTML final images)
    ∧ Forall (λ c, Forall (λ j, 0 ≤ j < Z.of_nat IMAGE_MAX)%Z (elements c)) final
    ∧ length (displayClusters final labels) = K
    ∧ concat (displayClusters final labels) ≡ₚ labels
    ∧ map (hd []) (generateHTML final images) = map centroid final
    ∧ concat (map (drop 1) (generateHTML final images)) ≡ₚ images.
Proof.
  intros HP Himg Hd Hlab Hsel Hlt.
  destruct (@fit_collects_all kMeans images IMAGE_MAX P selectedColors)
    as (final & Hfit & Hlen & Hperm);
    [done|vm_compute; lia|vm_compute; lia|done|done|done|done|vm_compute; lia|].
  exists final. split; [done|]. split; [unfold main; by rewrite Hfit|].
  split; [|split; [|split; [|split]]].
  - apply Forall_forall. intros c Hc. apply Forall_forall. intros j Hj.
    assert (j ∈ concat (map elements final)) as Hin.
    { apply list_elem_of_In, in_concat. exists (elements c).
      split; [by apply in_map, list_elem_of_In|by apply list_elem_of_In]. }
    rewrite Hperm in Hin. apply list_elem_of_fmap in Hin as (i & -> & Hi%list_elem_of_In%in_seq).
    lia.
  - unfold displayClusters. by rewrite length_map.
  - unfold displayClusters.
    rewrite <- (map_map elements (map (λ j, nth (Z.to_nat j) labels 0%Z)) final).
    rewrite <- concat_map. apply map_lookup_permutation. by rewrite Hlab.
  - unfold generateHTML. rewrite map_map. done.
  - unfold generateHTML.
    rewrite map_map, (map_ext _ (λ c, map (λ i, nth (Z.to_nat i) images []) (elements c)))
      by done.
    rewrite <- (map_map elements (map (λ i, nth (Z.to_nat i) images [])) final).
    rewrite <- concat_map. apply map_lookup_permutation. by rewrite Himg.
Qed.

(** 250 images of one grey level each, on four workers. *)
Lemma main_reports_every_image_witness :
  ∃ report html,
    main (map (λ i, replicate PIXELS_N (Z.of_nat i)) (seq 0 IMAGE_MAX))
         (map (λ i, Z.of_nat (i mod 10)) (seq 0 IMAGE_MAX)) 4 (seq 0 K)
    = Some (report, html)
    ∧ concat report ≡ₚ map (λ i, Z.of_nat (i mod 10)) (seq 0 IMAGE_MAX).
Proof.
  destruct (main_reports_every_image
              (map (λ i, replicate PIXELS_N (Z.of_nat i)) (seq 0 IMAGE_MAX))
              (map (λ i, Z.of_nat (i mod 10)) (seq 0 IMAGE_MAX)) 4 (seq 0 K))
    as (final & _ & Hmain & _ & _ & Hperm & _).
  - lia.
  - by rewrite length_map, length_seq.
  - apply Forall_forall. intros e (i & -> & _)%list_elem_of_fmap. apply length_replicate.
  - by rewrite length_map, length_seq.
  - by rewrite length_seq.
  - apply Forall_forall. intros s Hs%list_elem_of_In%in_seq. unfold K, IMAGE_MAX in *. lia.
  - exists (displayClusters final (map (λ i, Z.of_nat (i mod 10)) (seq 0 IMAGE_MAX))),
      (generateHTML final (map (λ i, replicate PIXELS_N (Z.of_nat i)) (seq 0 IMAGE_MAX))).
    split; [exact Hmain|exact Hperm].
Defined.

(** X16.  With the Euclidean distance, at most 255 images of bytes and a run
    that ends [CONVERGED], every image is in exactly one cluster, and no
    returned centroid is nearer to it than the centroid of its cluster. *)
Theorem MNISTKMeansMPI_converged_minimal (k0 d0 : nat) (colorList : list Element)
    (n P : nat) (selectedColors : list nat) :
  1 ≤ P → 1 ≤ k0 → 1 ≤ d0 →
  length colorList = n →
  Forall (λ e, length e = d0 ∧ Forall is_uchar e) colorList →
  length selectedColors = k0 → Forall (λ s, s < n) selectedColors →
  n ≤ 255 →
  terminalState (@fitWork (MNISTKMeansMPI k0 d0) colorList n P selectedColors)
  = Some CONVERGED →
  ∃ final,
    @fit (MNISTKMeansMPI k0 d0) colorList n P selectedColors = Some final
    ∧ ∀ g, g < n →
        let D j := calculateEuclideanDistance d0 (centroid (nth j final noCluster))
                     (nth g colorList []) in
        ∃ c, c < k0
          ∧ (∀ c', c' < k0 → Z.of_nat g ∈ elements (nth c' final noCluster) ↔ c' = c)
          ∧ (∀ j, j < k0 → (D c <=? D j)%float = true)
          ∧ (∀ j, j < c → (D c <? D j)%float = true).
Proof.
  intros HP Hk Hd1 Hn Hd Hs Hlt Hn255 Hconv.
  assert (Forall (λ e, length e = d0) colorList) as Hlen.
  { eapply Forall_impl; [exact Hd|]. by intros e [? _]. }
  destruct (@fit_last_generation (MNISTKMeansMPI k0 d0) colorList n P selectedColors)
    as (g0 & r' & os' & r & os & final & Hiter & Hbody & _ & Hwork & Hfl & Hcent & Hprev
        & Hels); try done.
  exists final. split; [unfold fit; by rewrite Hwork|].
  assert (map centroid (clusters r') = map centroid final) as Hsame.
  { rewrite <- Hprev.
    rewrite Hwork in Hconv. cbn [terminalState] in Hconv.
    destruct (forallb stable (withClusters r final :: os)) eqn:Hst; [|done].
    cbn [forallb] in Hst. apply andb_prop in Hst as [Hst _].
    unfold stable in Hst. cbn [prev clusters withClusters] in Hst.
    rewrite clusters_eqb_centroids in Hst. by apply bool_decide_eq_true in Hst. }
  assert (∀ j, j < k0 → Forall is_uchar (centroid (nth j final noCluster))) as Hbytes.
  { intros j Hj.
    assert (centroid (nth j final noCluster) = centroid (nth j (clusters r) noCluster)) as ->.
    { rewrite <- !(map_nth centroid). by rewrite Hcent. }
    apply (@generationBody_bytes (MNISTKMeansMPI k0 d0) (r' :: os')); [done|].
    rewrite Hbody. left. }
  intros g Hg D.
  set (row := map (λ j, D j) (seq 0 k0)).
  assert (∀ j, j < k0 → nth j row nan = D j) as Hrow.
  { intros j Hj. unfold row. by rewrite (nth_map_seq _ 0 k0 j). }
  destruct (@nearest_spec (MNISTKMeansMPI k0 d0) row Hk) as (Hc & Hmin & Hstrict).
  { intros j Hj. rewrite Hrow by done. unfold D.
    apply SFnonneg_number, calculateEuclideanDistance_nonneg; [by apply Hbytes|].
    destruct (decide (g < length colorList)) as [Hin|Hout].
    - rewrite Forall_forall in Hd. apply Hd, list_elem_of_In, nth_In, Hin.
    - rewrite nth_overflow by lia. constructor. }
  assert (@nearestCluster (MNISTKMeansMPI k0 d0) final (nth g colorList [])
          = @nearest (MNISTKMeansMPI k0 d0) row) as Hnc by reflexivity.
  exists (@nearest (MNISTKMeansMPI k0 d0) row).
  split; [exact Hc|]. split; [|split].
  - intros c' Hc'. rewrite (Hels c' Hc'), list_elem_of_fmap. split.
    + intros (i & Heq%Nat2Z.inj & Hi%list_elem_of_filter). subst i.
      destruct Hi as [Hi _]. rewrite <- Hi. rewrite <- Hnc.
      by apply (@nearestCluster_centroids (MNISTKMeansMPI k0 d0)).
    + intros ->. exists g. split; [done|]. apply list_elem_of_filter. split.
      * rewrite <- Hnc. by apply (@nearestCluster_centroids (MNISTKMeansMPI k0 d0)).
      * apply list_elem_of_In, in_seq. lia.
  - intros j Hj. specialize (Hmin j Hj). by rewrite (Hrow _ Hc), (Hrow _ Hj) in Hmin.
  - intros j Hj. specialize (Hstrict j Hj). change (@nearest (MNISTKMeansMPI k0 d0) row < k0) in Hc.
    by rewrite (Hrow _ Hc), (Hrow j ltac:(lia)) in Hstrict.
Qed.

(** The example of the specification. *)
Lemma MNISTKMeansMPI_converged_minimal_witness :
  ∃ final,
    @fit (MNISTKMeansMPI 2 1) spec_example 8 2 [0; 1] = Some final
    ∧ ∃ c, c < 2
        ∧ (∀ c', c' < 2 → 7%Z ∈ elements (nth c' final noCluster) ↔ c' = c)
        ∧ (∀ j, j < 2 →
             (calculateEuclideanDistance 1 (centroid (nth c final noCluster)) [103%Z]
              <=? calculateEuclideanDistance 1 (centroid (nth j final noCluster)) [103%Z])%float
             = true).
Proof.
  assert (Forall (λ e : list Z, length e = 1 ∧ Forall is_uchar e) spec_example) as Hd
    by (repeat constructor; unfold is_uchar; lia).
  assert (terminalState (@fitWork (MNISTKMeansMPI 2 1) spec_example 8 2 [0; 1])
          = Some CONVERGED) as Hconv by (vm_compute; reflexivity).
  destruct (MNISTKMeansMPI_converged_minimal 2 1 spec_example 8 2 [0; 1]
              ltac:(lia) ltac:(lia) ltac:(lia) eq_refl Hd eq_refl
              ltac:(repeat constructor; lia) ltac:(lia) Hconv)
    as (final & Hfit & Hall).
  exists final. split; [exact Hfit|].
  destruct (Hall 7 ltac:(lia)) as (c & Hc & Hin & Hmin & _).
  exists c. split; [exact Hc|]. split; [exact Hin|exact Hmin].
Defined.
